(** * A skip-list key/value store: shallow embedding and verification

    The repository holds three renderings of one ordered map:
    - [xsf_skip_list::XSFSkipList] (xsf_skip_list.h): [uint8_t] levels, a
      seeded [std::mt19937], a member mutex taken by [put] and [remove];
    - [momu::skip_list::SkipList] (same file): the same algorithm split into
      helpers ([move_forward_in_level], [adjust_max_level], ...);
    - the older [xsf_skip_list::SkipList]: [int] levels, [rand()], a global
      mutex, and the text snapshot ([dump_file] / [load_file]).

    Nodes live in a store indexed by addresses; a pointer is an
    [option addr] with [None] for [nullptr].  Keys are [int]s, values are
    of an arbitrary type. *)

From Stdlib Require Import ZArith Ascii String.
From stdpp Require Import base gmap list sorting strings.

Local Open Scope nat_scope.

(** ** Faults, exceptions and results *)

(** What a run can do instead of returning: read outside an array,
    dereference [nullptr] or a freed node, loop forever, or wait forever for
    a mutex. *)
Inductive fault := OutOfBounds | NullDeref | Dangling | Diverged | Blocked.

Inductive res (A : Type) : Type :=
  | Ok (a : A)
  | Err (f : fault).
Arguments Ok {A} a.
Arguments Err {A} f.

#[global] Instance res_ret : MRet res := @Ok.
#[global] Instance res_bind : MBind res :=
  λ A B f m, match m with Ok a => f a | Err e => Err e end.

(** The C++ exceptions the code can raise. *)
Inductive exn := bad_alloc | invalid_argument | out_of_range.

(** A call either returns a value or leaves by an exception; in both cases
    the object is left in some state. *)
Inductive completion (S A : Type) : Type :=
  | Returned (a : A) (s : S)
  | Threw (e : exn) (s : S).
Arguments Returned {S A} a s.
Arguments Threw {S A} e s.

(** The state a call leaves the object in. *)
Definition state_of {S A : Type} (c : completion S A) : S :=
  match c with Returned _ s => s | Threw _ s => s end.

(** ** Nodes and the store *)

Definition addr := nat.

Record Node (V : Type) : Type := mkNode {
  key_ : Z;
  value_ : V;
  forward_ : list (option addr);
  node_level_ : nat
}.
Arguments mkNode {V} _ _ _ _.
Arguments key_ {V} _.
Arguments value_ {V} _.
Arguments forward_ {V} _.
Arguments node_level_ {V} _.

(** [Node(key, value, level)]: the link array has [level + 1] null slots. *)
Definition new_Node {V} (key : Z) (value : V) (level : nat) : Node V :=
  mkNode key value (replicate (level + 1) None) level.

Definition set_forward {V} (n : Node V) (f : list (option addr)) : Node V :=
  mkNode (key_ n) (value_ n) f (node_level_ n).

Definition set_value {V} (n : Node V) (v : V) : Node V :=
  mkNode (key_ n) v (forward_ n) (node_level_ n).

(** The data members the three classes share, and the store their nodes
    live in.  [element_count_] is unbounded: the count cannot reach the
    limit of [size_t] while every node takes memory. *)
Record skip_list (V G : Type) : Type := mkSkipList {
  max_level_ : nat;
  skip_list_level_ : nat;
  header_ : addr;
  element_count_ : nat;
  mutex_ : bool;
  gen_ : G;
  store_ : gmap addr (Node V)
}.
Arguments mkSkipList {V G} _ _ _ _ _ _ _.
Arguments max_level_ {V G} _.
Arguments skip_list_level_ {V G} _.
Arguments header_ {V G} _.
Arguments element_count_ {V G} _.
Arguments mutex_ {V G} _.
Arguments gen_ {V G} _.
Arguments store_ {V G} _.

Section store.
Context {V : Type}.
Implicit Types (h : gmap addr (Node V)) (n : Node V).

(** [*p] for a non-null [p]. *)
Definition deref h (a : addr) : res (Node V) :=
    match h !! a with Some n => Ok n | None => Err Dangling end.

(** [p->...] for a pointer that may be null. *)
Definition nonnull (p : option addr) : res addr :=
    match p with Some a => Ok a | None => Err NullDeref end.

(** [arr[i]], read. *)
Definition at_index {A} (l : list A) (i : nat) : res A :=
    match l !! i with Some x => Ok x | None => Err OutOfBounds end.

(** [arr[i] = x]. *)
Definition store_index {A} (l : list A) (i : nat) (x : A) : res (list A) :=
    if decide (i < length l) then Ok (<[i:=x]> l) else Err OutOfBounds.

(** [a->forward_[i]], read. *)
Definition load_forward h (a : addr) (i : nat) : res (option addr) :=
    n ← deref h a; at_index (forward_ n) i.

(** [a->forward_[i] = x]. *)
Definition store_forward h (a : addr) (i : nat) (x : option addr)
      : res (gmap addr (Node V)) :=
    n ← deref h a;
    f ← store_index (forward_ n) i x;
    Ok (<[a := set_forward n f]> h).

(** [new Node<K, V>(key, value, level)] at an address that is not live. *)
Definition alloc h (n : Node V) : addr * gmap addr (Node V) :=
    let a := fresh (dom h) in (a, <[a := n]> h).
End store.

(** ** The algorithm shared by the three classes *)

Section engine.
Context {V G : Type}.
(** One toss of the coin: [distribution_(gen_)], or [rand() % 2]. *)
Variable draw : G → bool * G.
(** Conversion to the type of the level counters: [uint8_t] in
    [XSFSkipList] and [momu::SkipList], [int] in the older class. *)
Variable wrap : nat → nat.

Implicit Types (h : gmap addr (Node V)) (s : skip_list V G).

(** [while (cur->forward_[lvl] && cur->forward_[lvl]->key_ < key)
       cur = cur->forward_[lvl];]
    A walk that takes more steps than there are nodes has entered a
    cycle and never ends: the fuel is the size of the store. *)
Fixpoint move_forward_in_level (fuel : nat) h (cur : addr) (lvl : nat)
      (key : Z) : res addr :=
    match fuel with
    | 0 => Err Diverged
    | S fuel' =>
      nxt ← load_forward h cur lvl;
      match nxt with
      | None => Ok cur
      | Some a =>
        m ← deref h a;
        if bool_decide (key_ m < key)%Z
        then move_forward_in_level fuel' h a lvl key
        else Ok cur
      end
    end.

(** [for (int i = skip_list_level_; i >= 0; i--) { <walk>; update[i] = current; }] *)
Fixpoint traverse_and_collect_predecessors h (i : nat) (cur : addr)
      (key : Z) (update : list (option addr))
      : res (addr * list (option addr)) :=
    cur' ← move_forward_in_level (S (size h)) h cur i key;
    update' ← store_index update i (Some cur');
    match i with
    | 0 => Ok (cur', update')
    | S i' => traverse_and_collect_predecessors h i' cur' key update'
    end.

(** The search of [get]: the same descent without the trail. *)
Fixpoint traverse_to_level_zero h (i : nat) (cur : addr) (key : Z)
      : res addr :=
    cur' ← move_forward_in_level (S (size h)) h cur i key;
    match i with
    | 0 => Ok cur'
    | S i' => traverse_to_level_zero h i' cur' key
    end.

(** [Node* update[max_level_ + 1]; memset(update, 0, ...)] and the
    descent from the header. *)
Definition find_predecessors s (key : Z) : res (addr * list (option addr)) :=
    traverse_and_collect_predecessors (store_ s) (skip_list_level_ s)
      (header_ s) key (replicate (max_level_ s + 1) None).

(** [current = current->forward_[0];
    if (current != nullptr && current->key_ == key)]: the node that holds
    [key], if there is one. *)
Definition get_node_at_level_zero h (pred : addr) (key : Z)
      : res (option addr) :=
    nxt ← load_forward h pred 0;
    match nxt with
    | None => Ok None
    | Some a =>
      m ← deref h a;
      Ok (if bool_decide (key_ m = key) then Some a else None)
    end.

(** [while (distribution_(gen_) && k < max_level_) k++;]
    The coin is tossed before the bound is tested; [n] is
    [max_level_ - k], so [k < max_level_] reads [n ≠ 0]. *)
Fixpoint random_level_loop (n k : nat) (g : G) : nat * G :=
    let '(heads, g') := draw g in
    match n with
    | 0 => (k, g')
    | S n' => if heads then random_level_loop n' (S k) g' else (k, g')
    end.

Definition get_random_level s : nat * G :=
    random_level_loop (max_level_ s) 0 (gen_ s).

(** [for (i = skip_list_level_ + 1; i < new_node_level + 1; i++)
       update[i] = header_;]
    [i] has the counter's type, the bound is computed in [int]. *)
Fixpoint raise_loop (fuel : nat) (i lvl : nat) (hdr : addr)
      (update : list (option addr)) : res (list (option addr)) :=
    match fuel with
    | 0 => Err Diverged
    | S fuel' =>
      if bool_decide (i < lvl + 1) then
        update' ← store_index update i (Some hdr);
        raise_loop fuel' (wrap (i + 1)) lvl hdr update'
      else Ok update
    end.

(** [if (lvl > skip_list_level_) { <raise_loop>; skip_list_level_ = lvl; }] *)
Definition adjust_max_level_for_insertion s (lvl : nat)
      (update : list (option addr)) : res (list (option addr) * nat) :=
    if bool_decide (skip_list_level_ s < lvl) then
      update' ← raise_loop (S (S (max_level_ s))) (wrap (skip_list_level_ s + 1))
                           lvl (header_ s) update;
      Ok (update', lvl)
    else Ok (update, skip_list_level_ s).

(** [for (i = 0; i <= new_node_level; i++) {
       new_node->forward_[i] = update[i]->forward_[i];
       update[i]->forward_[i] = new_node; }] *)
Fixpoint splice_loop (fuel : nat) (i lvl : nat) (new_node : addr)
      (update : list (option addr)) h : res (gmap addr (Node V)) :=
    match fuel with
    | 0 => Err Diverged
    | S fuel' =>
      if bool_decide (i ≤ lvl) then
        p ← at_index update i;
        p ← nonnull p;
        nxt ← load_forward h p i;
        h ← store_forward h new_node i nxt;
        h ← store_forward h p i (Some new_node);
        splice_loop fuel' (wrap (i + 1)) lvl new_node update h
      else Ok h
    end.

(** [for (i = 0; i <= skip_list_level_; i++)
       if (update[i]->forward_[i] == current)
         update[i]->forward_[i] = current->forward_[i];] *)
Fixpoint unlink_loop (fuel : nat) (i top : nat) (current : addr)
      (update : list (option addr)) h : res (gmap addr (Node V)) :=
    match fuel with
    | 0 => Err Diverged
    | S fuel' =>
      if bool_decide (i ≤ top) then
        p ← at_index update i;
        p ← nonnull p;
        nxt ← load_forward h p i;
        if bool_decide (nxt = Some current) then
          x ← load_forward h current i;
          h ← store_forward h p i x;
          unlink_loop fuel' (wrap (i + 1)) top current update h
        else unlink_loop fuel' (wrap (i + 1)) top current update h
      else Ok h
    end.

(** [while (skip_list_level_ > 0 &&
           header_->forward_[skip_list_level_] == nullptr)
       skip_list_level_--;] *)
Fixpoint adjust_max_level h (hdr : addr) (top : nat) : res nat :=
    match top with
    | 0 => Ok 0
    | S top' =>
      x ← load_forward h hdr top;
      match x with
      | None => adjust_max_level h hdr top'
      | Some _ => Ok top
      end
    end.

(** The body of [put] / [insert_element] between taking and releasing
    the mutex.  [mem] tells whether [new] finds memory for the node.  The
    result is the older class's return code: 1 for an update, 0 for an
    insertion. *)
Definition put_body (mem : bool) (key : Z) (value : V) s
      : res (completion (skip_list V G) nat) :=
    '(cur, update) ← find_predecessors s key;
    hit ← get_node_at_level_zero (store_ s) cur key;
    match hit with
    | Some c =>
      n ← deref (store_ s) c;
      Ok (Returned 1
            (mkSkipList (max_level_ s) (skip_list_level_ s) (header_ s)
               (element_count_ s) (mutex_ s) (gen_ s)
               (<[c := set_value n value]> (store_ s))))
    | None =>
      let '(lvl, g) := get_random_level s in
      '(update, top) ← adjust_max_level_for_insertion s lvl update;
      if mem then
        let '(new_node, h) := alloc (store_ s) (new_Node key value lvl) in
        h ← splice_loop (S (S (max_level_ s))) 0 lvl new_node update h;
        Ok (Returned 0
              (mkSkipList (max_level_ s) top (header_ s)
                 (element_count_ s + 1) (mutex_ s) g h))
      else
        Ok (Threw bad_alloc
              (mkSkipList (max_level_ s) top (header_ s)
                 (element_count_ s) (mutex_ s) g (store_ s)))
    end.

(** The body of [get] / [search_element]. *)
Definition get_body (key : Z) s : res (option V) :=
    cur ← traverse_to_level_zero (store_ s) (skip_list_level_ s)
            (header_ s) key;
    hit ← get_node_at_level_zero (store_ s) cur key;
    match hit with
    | Some c => n ← deref (store_ s) c; Ok (Some (value_ n))
    | None => Ok None
    end.

(** The body of [remove] / [delete_element]; the result tells whether a
    node was removed. *)
Definition remove_body (key : Z) s : res (bool * skip_list V G) :=
    '(cur, update) ← find_predecessors s key;
    hit ← get_node_at_level_zero (store_ s) cur key;
    match hit with
    | Some c =>
      h ← unlink_loop (S (S (max_level_ s))) 0 (skip_list_level_ s)
            c update (store_ s);
      top ← adjust_max_level h (header_ s) (skip_list_level_ s);
      _ ← deref h c;
      Ok (true,
          mkSkipList (max_level_ s) top (header_ s) (element_count_ s - 1)
            (mutex_ s) (gen_ s) (delete c h))
    | None => Ok (false, s)
    end.

(** The walk of [dump_file]: the pairs of the level-0 chain, in order. *)
Fixpoint chain_from (fuel : nat) h (p : option addr) : res (list (Z * V)) :=
    match p with
    | None => Ok []
    | Some a =>
      match fuel with
      | 0 => Err Diverged
      | S fuel' =>
        n ← deref h a;
        nxt ← at_index (forward_ n) 0;
        rest ← chain_from fuel' h nxt;
        Ok ((key_ n, value_ n) :: rest)
      end
    end.

Definition level0_chain s : res (list (Z * V)) :=
    first ← load_forward (store_ s) (header_ s) 0;
    chain_from (size (store_ s)) (store_ s) first.

(** The nodes of the level-0 chain, in order. *)
Fixpoint nodes_from (fuel : nat) h (p : option addr) : res (list addr) :=
  match p with
  | None => Ok []
  | Some a =>
    match fuel with
    | 0 => Err Diverged
    | S fuel' =>
      nxt ← load_forward h a 0;
      rest ← nodes_from fuel' h nxt;
      Ok (a :: rest)
    end
  end.

Definition level0_nodes s : res (list addr) :=
  first ← load_forward (store_ s) (header_ s) 0;
  nodes_from (size (store_ s)) (store_ s) first.

(** [void clear(Node* node) {
         if (node->forward_[0] != nullptr) clear(node->forward_[0]);
         delete node; }]
      The call is not a tail call: the frame of [clear(node)] stays on the
      stack until the whole rest of the chain is released.  The result
      records the store afterwards, the nodes in the order of their
      [delete], and the number of frames of [clear] at the deepest point. *)
Fixpoint clear (fuel : nat) h (node : addr)
      : res (gmap addr (Node V) * list addr * nat) :=
    match fuel with
    | 0 => Err Diverged
    | S fuel' =>
      nxt ← load_forward h node 0;
      match nxt with
      | Some a =>
        '(h', deleted, depth) ← clear fuel' h a;
        _ ← deref h' node;
        Ok (delete node h', deleted ++ [node], S depth)
      | None => Ok (delete node h, [node], 1)
      end
    end.

(** The destructor: [if (header_->forward_[0] != nullptr)
    clear(header_->forward_[0]); delete header_;] *)
Definition destroy s : res (gmap addr (Node V) * list addr * nat) :=
    first ← load_forward (store_ s) (header_ s) 0;
    match first with
    | Some a =>
      '(h, deleted, depth) ← clear (size (store_ s)) (store_ s) a;
      _ ← deref h (header_ s);
      Ok (delete (header_ s) h, deleted ++ [header_ s], depth)
    | None => Ok (delete (header_ s) (store_ s), [header_ s], 0)
    end.

(** [std::mutex::lock] and [unlock].  A caller that finds the mutex held
    waits; nothing in a single run releases it. *)
Definition mutex_lock s : res (skip_list V G) :=
    if mutex_ s then Err Blocked
    else Ok (mkSkipList (max_level_ s) (skip_list_level_ s) (header_ s)
               (element_count_ s) true (gen_ s) (store_ s)).

Definition mutex_unlock s : skip_list V G :=
    mkSkipList (max_level_ s) (skip_list_level_ s) (header_ s)
      (element_count_ s) false (gen_ s) (store_ s).
End engine.

(** ** [xsf_skip_list::XSFSkipList] *)

Module XSF.
Section xsf.
Context {V G : Type}.
(** [std::mt19937 gen_(seed)] and [distribution_(gen_)] with
    [std::bernoulli_distribution distribution_(0.5)]: the standard
    library's generator, taken as given. *)
Variable mt19937 : Z → G.
Variable bernoulli : G → bool * G.

(** Conversion to [uint8_t]. *)
Definition to_uint8 (n : nat) : nat := n mod 256.

(** [XSFSkipList(uint8_t max_level, unsigned int seed)].  [K k; V v;] are
    the header's placeholders; for [int] their values are whatever the
    stack holds. *)
Definition XSFSkipList (k : Z) (v : V) (max_level : nat) (seed : Z)
      : skip_list V G :=
    let '(hdr, h) := alloc ∅ (new_Node k v (to_uint8 max_level)) in
    mkSkipList (to_uint8 max_level) 0 hdr 0 false (mt19937 seed) h.

(** [put]: [std::lock_guard] takes the mutex and releases it on every way
    out of the scope. *)
Definition put (mem : bool) (key : Z) (value : V) (s : skip_list V G)
      : res (completion (skip_list V G) ()) :=
    s ← mutex_lock s;
    c ← put_body bernoulli to_uint8 mem key value s;
    Ok (match c with
        | Returned _ s => Returned () (mutex_unlock s)
        | Threw e s => Threw e (mutex_unlock s)
        end).

(** [get] takes no lock. *)
Definition get (key : Z) (s : skip_list V G) : res (option V) :=
    get_body key s.

Definition remove (key : Z) (s : skip_list V G) : res (skip_list V G) :=
    s ← mutex_lock s;
    '(_, s) ← remove_body to_uint8 key s;
    Ok (mutex_unlock s).

Definition size (s : skip_list V G) : nat := element_count_ s.

End xsf.
End XSF.

(** ** [momu::skip_list::SkipList]

    The same algorithm, with every public member function but [size] and
    [empty] behind [std::lock_guard].  Nodes are held by [shared_ptr]: the
    node [remove] unlinks is released when its last link goes, which the
    model renders by the [delete] of the other two classes. *)

Module Momu.
Section momu.
Context {V G : Type}.
Variable mt19937 : Z → G.
Variable bernoulli : G → bool * G.

(** [SkipList(uint8_t max_level, unsigned int seed)]; the header holds
    [K{}] and [V{}]. *)
Definition SkipList (v : V) (max_level : nat) (seed : Z) : skip_list V G :=
  let '(hdr, h) := alloc ∅ (new_Node 0%Z v (XSF.to_uint8 max_level)) in
  mkSkipList (XSF.to_uint8 max_level) 0 hdr 0 false (mt19937 seed) h.

Definition put (mem : bool) (key : Z) (value : V) (s : skip_list V G)
    : res (completion (skip_list V G) ()) :=
  s ← mutex_lock s;
  c ← put_body bernoulli XSF.to_uint8 mem key value s;
  Ok (match c with
      | Returned _ s => Returned () (mutex_unlock s)
      | Threw e s => Threw e (mutex_unlock s)
      end).

Definition get (key : Z) (s : skip_list V G) : res (option V) :=
  s ← mutex_lock s;
  get_body key s.

Definition contains (key : Z) (s : skip_list V G) : res bool :=
  s ← mutex_lock s;
  v ← get_body key s;
  Ok (bool_decide (is_Some v)).

Definition remove (key : Z) (s : skip_list V G)
    : res (bool * skip_list V G) :=
  s ← mutex_lock s;
  '(found, s) ← remove_body XSF.to_uint8 key s;
  Ok (found, mutex_unlock s).

Definition size (s : skip_list V G) : nat := element_count_ s.

Definition empty (s : skip_list V G) : bool :=
  bool_decide (element_count_ s = 0).
End momu.
End Momu.

(** ** The older [xsf_skip_list::SkipList], with its text snapshot

    [int] levels and counters, [rand()] for the coin, a mutex [mtx] shared
    by the whole program and taken with [lock()] / [unlock()].  [load_file]
    passes [std::stoi] of the two halves of a line to [insert_element]:
    the model takes keys and values to be integers, those of type [int]
    lying between [INT_MIN] and [INT_MAX].  [load_file] reads through the
    member [file_reader_], which stays open when the function leaves by an
    exception. *)

Module Legacy.

Local Open Scope string_scope.

Definition INT_MIN : Z := (- 2 ^ 31)%Z.
Definition INT_MAX : Z := (2 ^ 31 - 1)%Z.

(** *** [operator<<] for [int]: decimal digits, [-] for a negative value *)

Definition digit_char (d : Z) : ascii := ascii_of_N (Z.to_N (48 + d)).

(** The digits of [n], least significant first, in front of [acc]; a
    number has no more decimal digits than bits, which bounds the fuel. *)
Fixpoint digits_fuel (fuel : nat) (n : Z) (acc : string) : string :=
  match fuel with
  | 0 => acc
  | S fuel' =>
    let acc' := String (digit_char (n mod 10)) acc in
    if (n <? 10)%Z then acc' else digits_fuel fuel' (n / 10) acc'
  end.

Definition show_nat (n : Z) : string :=
  digits_fuel (S (Z.to_nat (Z.log2 n))) n "".

Definition show_int (z : Z) : string :=
  if (z <? 0)%Z then String "-" (show_nat (- z)) else show_nat z.

(** *** [std::stoi] *)

(** [isspace] in the "C" locale. *)
Definition isspace (c : ascii) : bool :=
  let n := nat_of_ascii c in
  ((n =? 32) || ((9 <=? n) && (n <=? 13)))%nat.

Fixpoint skip_spaces (s : string) : string :=
  match s with
  | String c s' => if isspace c then skip_spaces s' else s
  | EmptyString => EmptyString
  end.

Definition digit_of (c : ascii) : option Z :=
  let n := Z.of_N (N_of_ascii c) in
  if ((48 <=? n) && (n <=? 57))%Z then Some (n - 48)%Z else None.

(** The value of the digits [s] starts with, after the digits read so far. *)
Fixpoint read_digits (acc : Z) (s : string) : Z :=
  match s with
  | String c s' =>
    match digit_of c with
    | Some d => read_digits (acc * 10 + d) s'
    | None => acc
    end
  | EmptyString => acc
  end.

(** [std::stoi(str)]: blanks, a sign, digits; what follows the digits is
    ignored.  Without a digit it throws [std::invalid_argument], with a
    value outside [int] it throws [std::out_of_range]. *)
Definition stoi (str : string) : exn + Z :=
  let s1 := skip_spaces str in
  let '(neg, s2) :=
    match s1 with
    | String "-" r => (true, r)
    | String "+" r => (false, r)
    | _ => (false, s1)
    end in
  match s2 with
  | String c _ =>
    match digit_of c with
    | Some _ =>
      let v := read_digits 0 s2 in
      let v := if neg then (- v)%Z else v in
      if ((INT_MIN <=? v) && (v <=? INT_MAX))%Z then inr v
      else inl out_of_range
    | None => inl invalid_argument
    end
  | EmptyString => inl invalid_argument
  end.

(** *** Lines *)

Definition newline : ascii := "010"%char.

(** The lines [std::getline] yields, one call after the other, from the
    text [rest] when [cur] has been read of the current line: a last line
    without its newline counts when it is not empty. *)
Fixpoint getlines (cur rest : string) : list string :=
  match rest with
  | EmptyString => if bool_decide (cur = "") then [] else [cur]
  | String c rest' =>
    if Ascii.eqb c newline then cur :: getlines "" rest'
    else getlines (cur ++ String c "") rest'
  end.

(** [str.find(':')] *)
Fixpoint find_colon (str : string) : option nat :=
  match str with
  | EmptyString => None
  | String c str' =>
    if Ascii.eqb c ":" then Some 0 else S <$> find_colon str'
  end.

(** [str.substr(0, n)] and [str.substr(n)] *)
Fixpoint substr_to (n : nat) (str : string) : string :=
  match n, str with
  | S n', String c str' => String c (substr_to n' str')
  | _, _ => ""
  end.

Fixpoint substr_from (n : nat) (str : string) : string :=
  match n, str with
  | S n', String _ str' => substr_from n' str'
  | _, _ => str
  end.

Definition is_valid_string (str : string) : bool :=
  negb (bool_decide (str = "")) && bool_decide (is_Some (find_colon str)).

(** [get_key_value_from_string(str, &key, &value)]: an invalid string
    leaves [*key] and [*value] as they are. *)
Definition get_key_value_from_string (str key value : string)
    : string * string :=
  if negb (is_valid_string str) then (key, value)
  else
    match find_colon str with
    | Some n => (substr_to n str, substr_from (n + 1) str)
    | None => (key, value)
    end.

(** The arguments of [insert_element(std::stoi(key), std::stoi(value))].
    The language leaves open which of the two conversions runs first;
    [value_first] tells what the compiler chose.  The first conversion
    that fails ends the call with its exception. *)
Definition stoi_args (value_first : bool) (key value : string)
    : exn + Z * Z :=
  if value_first then
    match stoi value with
    | inl e => inl e
    | inr v =>
      match stoi key with
      | inl e => inl e
      | inr k => inr (k, v)
      end
    end
  else
    match stoi key with
    | inl e => inl e
    | inr k =>
      match stoi value with
      | inl e => inl e
      | inr v => inr (k, v)
      end
    end.

Section legacy.
Context {G : Type}.
(** [rand() % 2], with the state of the C library's generator. *)
Variable rand_bit : G → bool * G.
(** The order in which the compiler evaluates the arguments of a call. *)
Variable value_first : bool.

(** Conversion to [int]: the levels are array indices and stay far below
    [INT_MAX]. *)
Definition to_int (n : nat) : nat := n.

(** [SkipList(int max_level)], for [max_level >= 0]; [g] is the state of
    [rand()] when the list is built. *)
Definition SkipList (k v : Z) (max_level : nat) (g : G) : skip_list Z G :=
  let '(hdr, h) := alloc ∅ (new_Node k v max_level) in
  mkSkipList max_level 0 hdr 0 false g h.

(** [insert_element]: [mtx.lock()], the body, [mtx.unlock()]; an
    exception leaves the function with [mtx] still locked.  The field
    [mutex_] of [s] is the program's [mtx] and [gen_] the state of
    [rand()], as the call finds them (see the globals below). *)
Definition insert_element (mem : bool) (key value : Z) (s : skip_list Z G)
    : res (completion (skip_list Z G) nat) :=
  s ← mutex_lock s;
  c ← put_body rand_bit to_int mem key value s;
  Ok (match c with
      | Returned r s => Returned r (mutex_unlock s)
      | Threw e s => Threw e s
      end).

(** [bool search_element(K key, V& value)], without a lock. *)
Definition search_element (key value : Z) (s : skip_list Z G)
    : res (bool * Z) :=
  r ← get_body key s;
  Ok (match r with Some v => (true, v) | None => (false, value) end).

Definition delete_element (key : Z) (s : skip_list Z G)
    : res (skip_list Z G) :=
  s ← mutex_lock s;
  '(_, s) ← remove_body to_int key s;
  Ok (mutex_unlock s).

(** *** [display_list] *)

(** The walk of [display_list] along level [i]:
    [while (current) { <print the pair>; current = current->forward_[i]; }] *)
Fixpoint row_from (fuel : nat) (h : gmap addr (Node Z)) (i : nat)
    (p : option addr) : res (list (Z * Z)) :=
  match p with
  | None => Ok []
  | Some a =>
    match fuel with
    | 0 => Err Diverged
    | S fuel' =>
      n ← deref h a;
      nxt ← at_index (forward_ n) i;
      rest ← row_from fuel' h i nxt;
      Ok ((key_ n, value_ n) :: rest)
    end
  end.

(** The pairs [display_list] prints for level [i], from
    [header_->forward_[i]] on. *)
Definition display_row (s : skip_list Z G) (i : nat) : res (list (Z * Z)) :=
  current ← load_forward (store_ s) (header_ s) i;
  row_from (size (store_ s)) (store_ s) i current.

(** The line for level [i], without the [std::endl]: the label, then
    every pair followed by a blank. *)
Definition display_line (i : nat) (pairs : list (Z * Z)) : string :=
  "Level " ++ show_int (Z.of_nat i) ++ ": "
  ++ foldr (λ kv text,
              show_int kv.1 ++ ":" ++ show_int kv.2 ++ " "
              ++ text) "" pairs.

(** [for (int i = ...; i >= 0; i--)], from level [i] down. *)
Fixpoint display_from (i : nat) (s : skip_list Z G) : res (list string) :=
  pairs ← display_row s i;
  match i with
  | 0 => Ok [display_line 0 pairs]
  | S i' => rest ← display_from i' s; Ok (display_line i pairs :: rest)
  end.

(** [display_list]: the lines written to [std::cout], no lock taken. *)
Definition display_list (s : skip_list Z G) : res (list string) :=
  display_from (skip_list_level_ s) s.

Definition size (s : skip_list Z G) : nat := element_count_ s.

(** The line [dump_file] writes for a pair. *)
Definition dump_line (kv : Z * Z) : string :=
  show_int kv.1 ++ ":" ++ show_int kv.2 ++ String newline "".

(** [dump_file]: the text written to the store file, the pairs of the
    level-0 chain in order; no lock is taken. *)
Definition dump_file (s : skip_list Z G) : res string :=
  pairs ← level0_chain s;
  Ok (foldr (λ kv text, dump_line kv ++ text) "" pairs).

(** What [load_file] writes to [std::cout] after a pair is put, without
    the [std::endl]. *)
Definition load_message (key value : string) : string :=
  "Load key: " ++ key ++ ", value: " ++ value.

(** The body of the loop of [load_file] over the lines that are left.
    [key] and [value] are declared outside the loop and keep what the last
    valid line put there; [out] is what has been written to [std::cout].
    Every [new] of the loop finds memory. *)
Fixpoint load_lines (lines : list string) (key value : string)
    (out : list string) (s : skip_list Z G)
    : res (completion (skip_list Z G) (list string)) :=
  match lines with
  | [] => Ok (Returned out s)
  | line :: lines' =>
    let '(key, value) := get_key_value_from_string line key value in
    if bool_decide (key = "") || bool_decide (value = "")
    then load_lines lines' key value out s
    else
      match stoi_args value_first key value with
      | inr (k, v) =>
        c ← insert_element true k v s;
        match c with
        | Returned _ s' =>
          load_lines lines' key value (out ++ [load_message key value]) s'
        | Threw e s' => Ok (Threw e s')
        end
      | inl e => Ok (Threw e s)
      end
  end.

(** [load_file].  [file] is the text of the store file, [None] when the
    file cannot be opened.  The list comes with the state of its member
    [file_reader_]: [true] while the stream is open.  [open] on a stream
    that is open fails and sets [failbit], so that [getline] reads
    nothing; [close] is the last statement, which an exception skips. *)
Definition load_file (file : option string) (st : skip_list Z G * bool)
    : res (completion (skip_list Z G * bool) (list string)) :=
  if st.2 then Ok (Returned [] (st.1, false))
  else
    c ← load_lines
          (match file with Some text => getlines "" text | None => [] end)
          "" "" [] st.1;
    Ok (match c with
        | Returned out s' => Returned out (s', false)
        | Threw e s' => Threw e (s', true)
        end).

(** *** The globals of the class

    [mtx] (line 14) and the generator behind [rand()] belong to the
    program: every list of the class uses the same two.  In the state of
    a list on which a member function runs, [mutex_] and [gen_] are these
    globals, as the call finds them and as it leaves them.  A program
    holds the globals once, and its lists beside them. *)
Record program : Type := mkProgram {
  mtx : bool;
  rand_state : G;
  lists : list (skip_list Z G)
}.

(** List [i] of the program as a member function finds it. *)
Definition the_list (p : program) (i : nat) : res (skip_list Z G) :=
  s ← at_index (lists p) i;
  Ok (mkSkipList (max_level_ s) (skip_list_level_ s) (header_ s)
        (element_count_ s) (mtx p) (rand_state p) (store_ s)).

(** The program once a member function has left list [i] as [s]. *)
Definition leave_list (p : program) (i : nat) (s : skip_list Z G)
    : program :=
  mkProgram (mutex_ s) (gen_ s) (<[i := s]> (lists p)).

(** [SkipList<int, int> list(max_level);]: one more list.  The
    constructor has no other argument; [k] and [v] are what the header's
    placeholders happen to hold. *)
Definition construct (k v : Z) (max_level : nat) (p : program) : program :=
  mkProgram (mtx p) (rand_state p)
    (lists p ++ [SkipList k v max_level (rand_state p)]).

(** [insert_element] and [delete_element] called on list [i]. *)
Definition insert_on (i : nat) (mem : bool) (key value : Z) (p : program)
    : res (completion program nat) :=
  s ← the_list p i;
  c ← insert_element mem key value s;
  Ok (match c with
      | Returned r s' => Returned r (leave_list p i s')
      | Threw e s' => Threw e (leave_list p i s')
      end).

Definition delete_on (i : nat) (key : Z) (p : program) : res program :=
  s ← the_list p i;
  s' ← delete_element key s;
  Ok (leave_list p i s').
End legacy.

Arguments program : clear implicits.
Arguments mkProgram {G} _ _ _.
Arguments mtx {G} _.
Arguments rand_state {G} _.
Arguments lists {G} _.
End Legacy.

(** * Specification vocabulary

    ** The chain a store represents

    The proofs describe a store by a ghost list, the level-0 chain from
    the header on.  Each entry records the node's address, key, value
    and level, and the interval [e_lo, e_hi) of levels at which the node
    is currently linked in: every node at rest has [0, level + 1); the
    node being spliced in by [put] has [0, i) after [i] rounds of the
    loop, the node being unlinked by [remove] has [i, level + 1). *)

Record entry (V : Type) : Type := mkEntry {
  e_addr : addr;
  e_key : Z;
  e_val : V;
  e_lvl : nat;
  e_lo : nat;
  e_hi : nat
}.
Arguments mkEntry {V} _ _ _ _ _ _.
Arguments e_addr {V} _.
Arguments e_key {V} _.
Arguments e_val {V} _.
Arguments e_lvl {V} _.
Arguments e_lo {V} _.
Arguments e_hi {V} _.

Section chain_defs.
Context {V : Type}.
Implicit Types (h : gmap addr (Node V)) (e d c p x : entry V)
    (l C P Q L : list (entry V)) (i j : nat).

(** [e] is linked in at level [j]. *)
Definition vis e j : bool := bool_decide (e_lo e ≤ j) && bool_decide (j < e_hi e).

(** The first node of [l] linked in at level [j]. *)
Fixpoint first_at j l : option addr :=
  match l with
  | [] => None
  | e :: l' => if vis e j then Some (e_addr e) else first_at j l'
  end.

(** The last node of [d :: l] linked in at level [j], [d] if none is. *)
Fixpoint last_at j d l : entry V :=
  match l with
  | [] => d
  | e :: l' => last_at j (if vis e j then e else d) l'
  end.

(** The link array of [e] when [rest] is what follows it in the chain. *)
Definition fwd_of e rest : list (option addr) :=
  (λ j, if bool_decide (j < e_hi e) then first_at j rest else None)
    <$> seq 0 (e_lvl e + 1).

Definition node_of e rest : Node V :=
  mkNode (e_key e) (e_val e) (fwd_of e rest) (e_lvl e).

(** Slot [j] of that array. *)
Definition slot e rest j : option addr :=
  if bool_decide (j < e_hi e) then first_at j rest else None.

(** The store holds the chain [C]. *)
Definition rep h C : Prop :=
  ∀ l1 e l2, C = l1 ++ e :: l2 → h !! e_addr e = Some (node_of e l2).

(** A node at rest. *)
Definition regular e : Prop := e_lo e = 0 ∧ e_hi e = e_lvl e + 1.

Definition hidden e : Prop := ∀ j, vis e j = false.

Definition with_val x (v : V) : entry V :=
  mkEntry (e_addr x) (e_key x) v (e_lvl x) (e_lo x) (e_hi x).

Definition with_span x (lo hi : nat) : entry V :=
  mkEntry (e_addr x) (e_key x) (e_val x) (e_lvl x) lo hi.

(** The predecessor of [key] at level [j]. *)
Definition pred_at (hd : entry V) (Llt : list (entry V)) (j : nat)
    : entry V := last_at j hd Llt.

(** The node found at level 0, if it has the key. *)
Definition hit_entry (Lge : list (entry V)) (key : Z) : option (entry V) :=
  match Lge with
  | q :: _ => if bool_decide (e_key q = key) then Some q else None
  | [] => None
  end.

(** The new node after [i] rounds of the splice. *)
Definition spliced (a : addr) (key : Z) (value : V) (lvl i : nat)
    : entry V :=
  mkEntry a key value lvl 0 i.

(** The node being removed after [i] rounds of the loop. *)
Definition unlinking (c : entry V) (i : nat) : entry V :=
  with_span c (i `min` (e_lvl c + 1)) (e_lvl c + 1).

(** The top level after the loop that lowers it over the chain [L]. *)
Fixpoint shrink_top L (top : nat) : nat :=
  match top with
  | 0 => 0
  | S top' =>
    match first_at top L with
    | None => shrink_top L top'
    | Some _ => top
    end
  end.

(** The store without the nodes of [l]. *)
Definition delete_all (l : list addr) h : gmap addr (Node V) :=
  foldr delete h l.

End chain_defs.

(** ** The invariant of the engine *)

Section invariant_defs.
Context {V G : Type}.
Variable wrap : nat → nat.
Implicit Types (h : gmap addr (Node V)) (s : skip_list V G)
    (e hd : entry V) (L : list (entry V)).

(** The level counters do not overflow up to level [n]. *)
Definition wrap_ok (n : nat) : Prop := ∀ i, i ≤ n → wrap (i + 1) = i + 1.

(** The value the chain holds for [key]. *)
Fixpoint assoc (key : Z) L : option V :=
  match L with
  | [] => None
  | e :: L' => if bool_decide (e_key e = key) then Some (e_val e) else assoc key L'
  end.

(** The state [s] holds the chain [L] behind the header [hd]. *)
Record Inv s hd L : Prop := mkInv {
    inv_rep : rep (store_ s) (hd :: L);
    inv_nodup : NoDup (e_addr <$> (hd :: L));
    inv_dom : dom (store_ s) = list_to_set (e_addr <$> (hd :: L));
    inv_regular : Forall regular (hd :: L);
    inv_hd_addr : e_addr hd = header_ s;
    inv_hd_lvl : e_lvl hd = max_level_ s;
    inv_sorted : StronglySorted Z.lt (e_key <$> L);
    inv_levels : Forall (λ e, e_lvl e ≤ skip_list_level_ s) L;
    inv_top : skip_list_level_ s ≤ max_level_ s;
    inv_count : element_count_ s = length L;
    inv_wrap : wrap_ok (skip_list_level_ s)
  }.

End invariant_defs.

(** ** Clients of [XSFSkipList]: sequences of operations *)

(** An operation of a client; every [new] of a run finds memory. *)
Inductive op (V : Type) : Type :=
| Put (key : Z) (value : V)
| Get (key : Z)
| Remove (key : Z).
Arguments Put {V} key value.
Arguments Get {V} key.
Arguments Remove {V} key.

(** The map a sequence of operations describes. *)
Definition apply_op {V} (m : gmap Z V) (o : op V) : gmap Z V :=
  match o with
  | Put k v => <[k:=v]> m
  | Get _ => m
  | Remove k => delete k m
  end.

Definition model {V} (ops : list (op V)) : gmap Z V :=
  fold_left apply_op ops ∅.

(** [put key v] occurs in [ops], and neither another [put key] nor a
    [remove key] comes after it. *)
Definition live_put {V} (ops : list (op V)) (key : Z) (v : V) : Prop :=
  ∃ before after,
    ops = before ++ Put key v :: after
    ∧ Forall (λ o, o ≠ Remove key ∧ ∀ v', o ≠ Put key v') after.

Section xsf_defs.
Context {V G : Type}.
Variable mt19937 : Z → G.
Variable bernoulli : G → bool * G.
Implicit Types (s : skip_list V G) (L : list (entry V)).

(** The operations of [ops] in order, from the state [s]. *)
Fixpoint run (ops : list (op V)) s : res (completion (skip_list V G) ()) :=
  match ops with
  | [] => Ok (Returned () s)
  | Put k v :: ops' =>
    c ← XSF.put bernoulli true k v s;
    match c with
    | Returned _ s' => run ops' s'
    | Threw e s' => Ok (Threw e s')
    end
  | Get k :: ops' => _ ← XSF.get k s; run ops' s
  | Remove k :: ops' => s' ← XSF.remove k s; run ops' s'
  end.


(** The states an [XSFSkipList] is in between two calls. *)
Definition xsf_wf s L : Prop :=
  ∃ hd, Inv XSF.to_uint8 s hd L ∧ mutex_ s = false ∧ max_level_ s ≤ 255.

(** The states reachable from the empty list the constructor builds: by a
    [put] that returns, by a [put] that leaves by an exception, and by a
    [remove]; [mem] tells whether [new] finds memory in that call. *)
Inductive reachable (k0 : Z) (v0 : V) (max_level : nat) (seed : Z)
  : skip_list V G → Prop :=
| reach_init :
    reachable k0 v0 max_level seed (XSF.XSFSkipList mt19937 k0 v0 max_level seed)
| reach_put s mem key value s' :
    reachable k0 v0 max_level seed s →
    XSF.put bernoulli mem key value s = Ok (Returned () s') →
    reachable k0 v0 max_level seed s'
| reach_put_threw s mem key value e s' :
    reachable k0 v0 max_level seed s →
    XSF.put bernoulli mem key value s = Ok (Threw e s') →
    reachable k0 v0 max_level seed s'
| reach_remove s key s' :
    reachable k0 v0 max_level seed s →
    XSF.remove key s = Ok s' →
    reachable k0 v0 max_level seed s'.

(** Two lists that differ in the header's placeholders only. *)
Definition twin s s' : Prop :=
  ∃ hd hd' L,
    Inv XSF.to_uint8 s hd L ∧ Inv XSF.to_uint8 s' hd' L
    ∧ max_level_ s = max_level_ s'
    ∧ skip_list_level_ s = skip_list_level_ s'
    ∧ header_ s = header_ s' ∧ gen_ s = gen_ s'
    ∧ mutex_ s = false ∧ mutex_ s' = false ∧ max_level_ s ≤ 255.

End xsf_defs.

(** ** The text snapshot of the older class *)

Section text_defs.
Import Legacy.
Local Open Scope string_scope.

(** A text without [:] and without a newline. *)
Fixpoint plain (s : string) : bool :=
  match s with
  | EmptyString => true
  | String c s' =>
    negb (Ascii.eqb c ":") && negb (Ascii.eqb c newline) && plain s'
  end.

(** A text without a newline. *)
Fixpoint one_line (s : string) : bool :=
  match s with
  | EmptyString => true
  | String c s' => negb (Ascii.eqb c newline) && one_line s'
  end.

(** The part of a line before its first [:], and the part after it. *)
Definition key_segment (line : string) : string :=
  match find_colon line with
  | Some n => substr_to n line
  | None => ""
  end.

Definition value_segment (line : string) : string :=
  match find_colon line with
  | Some n => substr_from (n + 1) line
  | None => ""
  end.

(** A line without a delimiter, or with an empty key segment, or with an
    empty value segment. *)
Definition skipped (line : string) : bool :=
  bool_decide (find_colon line = None)
  || bool_decide (key_segment line = "")
  || bool_decide (value_segment line = "").

(** The pair a line stands for: it is not skipped and [std::stoi] accepts
    both segments. *)
Definition record_of (line : string) : option (Z * Z) :=
  if skipped line then None
  else
    match stoi (key_segment line), stoi (value_segment line) with
    | inr k, inr v => Some (k, v)
    | _, _ => None
    end.

(** A line [load_file] gets past: skipped, or standing for a pair. *)
Definition loadable (line : string) : Prop :=
  skipped line = true ∨ is_Some (record_of line).

(** The map after the lines: every pair is put, the last one for a key
    stays. *)
Definition load_model (lines : list string) (m : gmap Z Z) : gmap Z Z :=
  fold_left (λ m line,
               match record_of line with
               | Some (k, v) => <[k:=v]> m
               | None => m
               end) lines m.

(** The text of a pair, without the newline that ends its line. *)
Definition pair_text (kv : Z * Z) : string :=
  show_int kv.1 ++ ":" ++ show_int kv.2.

End text_defs.

Section legacy_defs.
Context {G : Type}.
Variable rand_bit : G → bool * G.
Local Open Scope string_scope.

(** A value of type [int]. *)
Definition in_int (z : Z) : Prop :=
  (Legacy.INT_MIN ≤ z ≤ Legacy.INT_MAX)%Z.

Definition legacy_wf (s : skip_list Z G) (L : list (entry Z)) : Prop :=
  ∃ hd, Inv Legacy.to_int s hd L ∧ mutex_ s = false.

(** The lists a program can hold: built by the constructor, changed by
    [insert_element] and [delete_element] on [int] arguments. *)
Inductive legacy_reachable (k0 v0 : Z) (max_level : nat) (g : G)
    : skip_list Z G → Prop :=
| lreach_init :
    legacy_reachable k0 v0 max_level g (Legacy.SkipList k0 v0 max_level g)
| lreach_insert s key value r s' :
    legacy_reachable k0 v0 max_level g s →
    in_int key → in_int value →
    Legacy.insert_element rand_bit true key value s = Ok (Returned r s') →
    legacy_reachable k0 v0 max_level g s'
| lreach_delete s key s' :
    legacy_reachable k0 v0 max_level g s →
    Legacy.delete_element key s = Ok s' →
    legacy_reachable k0 v0 max_level g s'.

(** The programs that hold lists of the older class: lists are built,
    and changed by calls of [insert_element] and [delete_element] that
    return; [g] is the state of [rand()] at the start. *)
Inductive legacy_program (g : G) : Legacy.program G → Prop :=
| lprog_start : legacy_program g (Legacy.mkProgram false g [])
| lprog_construct p k v max_level :
    legacy_program g p →
    legacy_program g (Legacy.construct k v max_level p)
| lprog_insert p i key value r p' :
    legacy_program g p →
    Legacy.insert_on rand_bit i true key value p = Ok (Returned r p') →
    legacy_program g p'
| lprog_delete p i key p' :
    legacy_program g p →
    Legacy.delete_on i key p = Ok p' →
    legacy_program g p'.

(** What holds of such a program between two calls. *)
Definition program_wf (p : Legacy.program G) : Prop :=
  Legacy.mtx p = false
  ∧ Forall (λ s, ∃ hd L, Inv Legacy.to_int s hd L) (Legacy.lists p).

(** Every pair of the chain is a pair of [int]s. *)
Definition ranged (L : list (entry Z)) : Prop :=
  ∀ k v, assoc k L = Some v → in_int k ∧ in_int v.

(** What [load_file] holds in [key] and [value] between two lines: nothing
    yet, or the segments of the last line that was put. *)
Definition stale_ok (key value : string) (L : list (entry Z)) : Prop :=
  key = "" ∨ value = ""
  ∨ ∃ k v, Legacy.stoi key = inr k ∧ Legacy.stoi value = inr v
           ∧ assoc k L = Some v.

(** Every line written to [std::cout] is a message for a pair that was
    put. *)
Definition is_message (msg : string) : Prop :=
  ∃ key value, msg = Legacy.load_message key value.

End legacy_defs.

(** ** Levels *)

(** The level of the tallest node of a chain, 0 for the empty chain. *)
Definition tallest {V} (L : list (entry V)) : nat :=
  max_list (e_lvl <$> L).

(** The top level is the level of some node of the list, or it is 0. *)
Definition tight {V G} (s : skip_list V G) : Prop :=
  0 < skip_list_level_ s →
  ∃ a n, store_ s !! a = Some n ∧ a ≠ header_ s
         ∧ node_level_ n = skip_list_level_ s.

(** [n] successive tosses of the coin. *)
Fixpoint draws {G} (draw : G → bool * G) (n : nat) (g : G) : list bool * G :=
  match n with
  | 0 => ([], g)
  | S n' =>
    let '(b, g1) := draw g in
    let '(bs, g2) := draws draw n' g1 in
    (b :: bs, g2)
  end.

(** The pairs of the nodes of the chain [L] that reach level [i]. *)
Definition level_row (L : list (entry Z)) (i : nat) : list (Z * Z) :=
  (λ e, (e_key e, e_val e)) <$> filter (λ e, i ≤ e_lvl e) L.

(** ** Clients of [momu::SkipList] and of the older class *)

(** What a call answered. *)
Inductive answer (V : Type) : Type :=
| AUnit
| AValue (o : option V)
| ABool (b : bool)
| ASize (n : nat)
| ACode (r : nat)
| AFound (found : bool) (value : V).
Arguments AUnit {V}.
Arguments AValue {V} o.
Arguments ABool {V} b.
Arguments ASize {V} n.
Arguments ACode {V} r.
Arguments AFound {V} found value.

(** A call of a public member function of [momu::SkipList]. *)
Inductive momu_op (V : Type) : Type :=
| MPut (key : Z) (value : V)
| MGet (key : Z)
| MContains (key : Z)
| MRemove (key : Z)
| MSize
| MEmpty.
Arguments MPut {V} key value.
Arguments MGet {V} key.
Arguments MContains {V} key.
Arguments MRemove {V} key.
Arguments MSize {V}.
Arguments MEmpty {V}.

(** The answer a map gives to the call, and the map afterwards. *)
Definition momu_step {V} (m : gmap Z V) (o : momu_op V)
    : answer V * gmap Z V :=
  match o with
  | MPut k v => (AUnit, <[k:=v]> m)
  | MGet k => (AValue (m !! k), m)
  | MContains k => (ABool (bool_decide (is_Some (m !! k))), m)
  | MRemove k => (ABool (bool_decide (is_Some (m !! k))), delete k m)
  | MSize => (ASize (size m), m)
  | MEmpty => (ABool (bool_decide (size m = 0)), m)
  end.

Fixpoint momu_model {V} (ops : list (momu_op V)) (m : gmap Z V)
    : list (answer V) * gmap Z V :=
  match ops with
  | [] => ([], m)
  | o :: ops' =>
    let '(a, m1) := momu_step m o in
    let '(rest, m2) := momu_model ops' m1 in
    (a :: rest, m2)
  end.

Section momu_defs.
Context {V G : Type}.
Variable bernoulli : G → bool * G.

(** One call on the list [s], every [new] finding memory. *)
Definition momu_call (o : momu_op V) (s : skip_list V G)
    : res (completion (skip_list V G) (answer V)) :=
  match o with
  | MPut k v =>
    c ← Momu.put bernoulli true k v s;
    Ok (match c with
        | Returned _ s' => Returned AUnit s'
        | Threw e s' => Threw e s'
        end)
  | MGet k => v ← Momu.get k s; Ok (Returned (AValue v) s)
  | MContains k => b ← Momu.contains k s; Ok (Returned (ABool b) s)
  | MRemove k => '(b, s') ← Momu.remove k s; Ok (Returned (ABool b) s')
  | MSize => Ok (Returned (ASize (Momu.size s)) s)
  | MEmpty => Ok (Returned (ABool (Momu.empty s)) s)
  end.

(** The calls of [ops] in order, with the answers collected. *)
Fixpoint momu_run (ops : list (momu_op V)) (s : skip_list V G)
    : res (completion (skip_list V G) (list (answer V))) :=
  match ops with
  | [] => Ok (Returned [] s)
  | o :: ops' =>
    step ← momu_call o s;
    match step with
    | Returned a s' =>
      rest ← momu_run ops' s';
      Ok (match rest with
          | Returned rs s'' => Returned (a :: rs) s''
          | Threw e s'' => Threw e s''
          end)
    | Threw e s' => Ok (Threw e s')
    end
  end.
End momu_defs.

(** A call of a public member function of the older class;
    [LSearch key value] passes [value] as what the reference parameter
    holds before the call. *)
Inductive legacy_op : Type :=
| LInsert (key value : Z)
| LSearch (key value : Z)
| LDelete (key : Z)
| LSize.

Definition legacy_step (m : gmap Z Z) (o : legacy_op)
    : answer Z * gmap Z Z :=
  match o with
  | LInsert k v =>
    (ACode (match m !! k with Some _ => 1 | None => 0 end), <[k:=v]> m)
  | LSearch k d =>
    (match m !! k with Some v => AFound true v | None => AFound false d end,
     m)
  | LDelete k => (AUnit, delete k m)
  | LSize => (ASize (size m), m)
  end.

Fixpoint legacy_model (ops : list legacy_op) (m : gmap Z Z)
    : list (answer Z) * gmap Z Z :=
  match ops with
  | [] => ([], m)
  | o :: ops' =>
    let '(a, m1) := legacy_step m o in
    let '(rest, m2) := legacy_model ops' m1 in
    (a :: rest, m2)
  end.

Section legacy_client_defs.
Context {G : Type}.
Variable rand_bit : G → bool * G.

(** One call on the list [s], every [new] finding memory. *)
Definition legacy_call (o : legacy_op) (s : skip_list Z G)
    : res (completion (skip_list Z G) (answer Z)) :=
  match o with
  | LInsert k v =>
    c ← Legacy.insert_element rand_bit true k v s;
    Ok (match c with
        | Returned r s' => Returned (ACode r) s'
        | Threw e s' => Threw e s'
        end)
  | LSearch k d =>
    '(b, v) ← Legacy.search_element k d s; Ok (Returned (AFound b v) s)
  | LDelete k => s' ← Legacy.delete_element k s; Ok (Returned AUnit s')
  | LSize => Ok (Returned (ASize (Legacy.size s)) s)
  end.

(** The calls of [ops] in order, with the answers collected. *)
Fixpoint legacy_run (ops : list legacy_op) (s : skip_list Z G)
    : res (completion (skip_list Z G) (list (answer Z))) :=
  match ops with
  | [] => Ok (Returned [] s)
  | o :: ops' =>
    step ← legacy_call o s;
    match step with
    | Returned a s' =>
      rest ← legacy_run ops' s';
      Ok (match rest with
          | Returned rs s'' => Returned (a :: rs) s''
          | Threw e s'' => Threw e s''
          end)
    | Threw e s' => Ok (Threw e s')
    end
  end.
End legacy_client_defs.

(** ** Examples *)

(** A generator that reads its tosses off a tape, for the examples. *)
Definition tape_draw (g : list bool) : bool * list bool :=
  match g with [] => (false, []) | b :: g' => (b, g') end.

Definition tape_seed (tape : list bool) (seed : Z) : list bool := tape.

Definition example_ops : list (op Z) :=
  [Put 3 30; Put 9 90; Remove 3; Get 9; Put 9 91]%Z.

Definition example_list : skip_list Z (list bool) :=
  XSF.XSFSkipList (tape_seed [true; false; true; true; false]) 0%Z 0%Z 3 7%Z.

(** The state after [example_ops]. *)
Definition example_state : skip_list Z (list bool) :=
  match run tape_draw example_ops example_list with
  | Ok (Returned _ s) => s
  | _ => example_list
  end.

(** A list of three elements. *)
Definition three_list : skip_list Z (list bool) :=
  match run tape_draw [Put 3 30; Put 6 60; Put 9 90]%Z example_list with
  | Ok (Returned _ s) => s
  | _ => example_list
  end.

(** The state of [example_state] while some thread holds the mutex. *)
Definition example_locked : skip_list Z (list bool) :=
  mkSkipList (max_level_ example_state) (skip_list_level_ example_state)
    (header_ example_state) (element_count_ example_state) true
    (gen_ example_state) (store_ example_state).

(** An empty list whose next node gets level 2. *)
Definition bad_alloc_list : skip_list Z (list bool) :=
  XSF.XSFSkipList (tape_seed [true; true; false]) 0%Z 0%Z 4 1%Z.

(** [bad_alloc_list] after a [put] that found no memory: still empty,
    with the top level at 2. *)
Definition raised_list : skip_list Z (list bool) :=
  match XSF.put tape_draw false 7%Z 70%Z bad_alloc_list with
  | Ok (Threw _ s) => s
  | _ => bad_alloc_list
  end.

(** An empty list of the older class. *)
Definition legacy_example : skip_list Z (list bool) :=
  Legacy.SkipList 0%Z 0%Z 3 [true; false; true; true; false].

(** Five lines: a pair, an empty line, a line with an empty key segment, a
    line without [:], a pair. *)
Definition legacy_file : string :=
  ("5:50" ++ String Legacy.newline
     (String Legacy.newline
        (":40" ++ String Legacy.newline
           ("bad" ++ String Legacy.newline "7:70"))))%string.

(** Three lines, the second with a key that is no number. *)
Definition legacy_broken_file : string :=
  ("5:50" ++ String Legacy.newline
     ("x:1" ++ String Legacy.newline "7:70"))%string.

Definition legacy_one : skip_list Z (list bool) :=
  match Legacy.insert_element tape_draw true 5%Z 50%Z legacy_example with
  | Ok (Returned _ s) => s
  | _ => legacy_example
  end.

Definition legacy_two : skip_list Z (list bool) :=
  match Legacy.insert_element tape_draw true 7%Z 70%Z legacy_one with
  | Ok (Returned _ s) => s
  | _ => legacy_one
  end.

(** The list of an instance with values of type [long]: one pair whose
    value is [INT_MAX + 1]. *)
Definition legacy_long : skip_list Z (list bool) :=
  match Legacy.insert_element tape_draw true 1%Z 2147483648%Z legacy_example
  with
  | Ok (Returned _ s) => s
  | _ => legacy_example
  end.

(** [legacy_two] while some thread holds [mtx]. *)
Definition legacy_locked : skip_list Z (list bool) :=
  mkSkipList (max_level_ legacy_two) (skip_list_level_ legacy_two)
    (header_ legacy_two) (element_count_ legacy_two) true
    (gen_ legacy_two) (store_ legacy_two).

(** A program with two lists of the older class built by the same
    constructor call, [rand()] yielding heads, tails, tails. *)
Definition legacy_pair : Legacy.program (list bool) :=
  Legacy.construct 0%Z 0%Z 3
    (Legacy.construct 0%Z 0%Z 3 (Legacy.mkProgram false [true; false; false] [])).

(** An empty list with 255 levels whose generator yields heads 255 times. *)
Definition tall_list : skip_list Z (list bool) :=
  XSF.XSFSkipList (tape_seed (replicate 255 true)) 0%Z 0%Z 255 0%Z.

(** Calls on a [momu::SkipList]. *)
Definition momu_example_ops : list (momu_op Z) :=
  [MPut 3 30; MContains 3; MRemove 3; MRemove 3; MGet 3; MPut 4 40; MSize;
   MEmpty]%Z.

(** The node of [three_list] that holds the key 3. *)
Definition three_node : Node Z := mkNode 3%Z 30%Z [Some 2; Some 2] 1.

(** ** Tactics *)

Tactic Notation "simpl_fields" :=
  cbn [store_ max_level_ skip_list_level_ header_ element_count_ mutex_ gen_].
Tactic Notation "simpl_fields" "in" hyp(H) :=
  cbn [store_ max_level_ skip_list_level_ header_ element_count_ mutex_ gen_]
    in H.

(** * Verification

    ** The chain a store represents *)

Section chain.
Context {V : Type}.
Implicit Types (h : gmap addr (Node V)) (e d c p x : entry V)
    (l C P Q : list (entry V)) (i j : nat).

Lemma vis_regular e j : regular e → vis e j = bool_decide (j ≤ e_lvl e).
Proof.
  intros [Hlo Hhi]. unfold vis. rewrite Hlo, Hhi.
  rewrite bool_decide_eq_true_2 by lia. simpl.
  apply bool_decide_ext. lia.
Qed.

Lemma vis_true e j : vis e j = true ↔ e_lo e ≤ j < e_hi e.
Proof.
  unfold vis. rewrite andb_true_iff, !bool_decide_eq_true. tauto.
Qed.

Lemma vis_false e j : vis e j = false ↔ j < e_lo e ∨ e_hi e ≤ j.
Proof.
  rewrite <- not_true_iff_false, vis_true. lia.
Qed.

Lemma fwd_of_length e rest : length (fwd_of e rest) = e_lvl e + 1.
Proof. unfold fwd_of. by rewrite length_fmap, length_seq. Qed.

Lemma fwd_of_lookup e rest j :
  j ≤ e_lvl e →
  fwd_of e rest !! j
  = Some (if bool_decide (j < e_hi e) then first_at j rest else None).
Proof.
  intros Hj. unfold fwd_of. rewrite list_lookup_fmap.
  rewrite lookup_seq_lt by lia. done.
Qed.

Lemma fwd_of_lookup_ge e rest j : e_lvl e < j → fwd_of e rest !! j = None.
Proof.
  intros Hj. apply lookup_ge_None_2. rewrite fwd_of_length. lia.
Qed.

(** *** Facts on [first_at] and [last_at] *)

Lemma first_at_app j l1 l2 :
  first_at j (l1 ++ l2)
  = match first_at j l1 with Some a => Some a | None => first_at j l2 end.
Proof.
  induction l1 as [|e l1 IH]; simpl; [done|]. by destruct (vis e j).
Qed.

Lemma first_at_None j l :
  first_at j l = None ↔ Forall (λ e, vis e j = false) l.
Proof.
  induction l as [|e l IH]; simpl.
  - split; [constructor | done].
  - destruct (vis e j) eqn:Hv.
    + split; [done|]. intros H. apply Forall_cons in H as [? _]. congruence.
    + rewrite IH. split; [by constructor|]. intros H.
      by apply Forall_cons in H as [_ ?].
Qed.

Lemma first_at_Some j l a :
  first_at j l = Some a →
  ∃ l1 e l2, l = l1 ++ e :: l2 ∧ e_addr e = a ∧ vis e j = true
             ∧ Forall (λ e, vis e j = false) l1.
Proof.
  induction l as [|e l IH]; simpl; [done|].
  destruct (vis e j) eqn:Hv.
  - intros [= <-]. by exists [], e, l.
  - intros (l1 & e' & l2 & -> & ? & ? & ?)%IH.
    exists (e :: l1), e', l2. split_and!; try done. by constructor.
Qed.

Lemma first_at_skip j l1 l2 :
  Forall (λ e, vis e j = false) l1 → first_at j (l1 ++ l2) = first_at j l2.
Proof.
  intros H. rewrite first_at_app.
  apply first_at_None in H. by rewrite H.
Qed.

Lemma first_at_elem j l a :
  first_at j l = Some a → a ∈ e_addr <$> l.
Proof.
  intros (l1 & e & l2 & -> & <- & _)%first_at_Some.
  rewrite fmap_app, fmap_cons. set_solver.
Qed.

(** Two chains that link the same nodes at level [j] have the same first
    node there. *)
Lemma first_at_ext j l l' :
  Forall2 (λ e e', e_addr e = e_addr e' ∧ vis e j = vis e' j) l l' →
  first_at j l = first_at j l'.
Proof.
  induction 1 as [|e e' l l' [Ha Hv] _ IH]; simpl; [done|].
  by rewrite Hv, Ha, IH.
Qed.

Lemma last_at_app j d l1 c l2 :
  vis c j = true → last_at j d (l1 ++ c :: l2) = last_at j c l2.
Proof.
  intros Hc. revert d. induction l1 as [|e l1 IH]; intros d; simpl.
  - by rewrite Hc.
  - apply IH.
Qed.

Lemma last_at_hidden j d l :
  Forall (λ e, vis e j = false) l → last_at j d l = d.
Proof.
  intros H. revert d. induction H as [|e l He _ IH]; intros d; simpl; [done|].
  rewrite He. apply IH.
Qed.

(** Where [last_at] sits in the chain. *)
Lemma last_at_split j d l :
  ∃ l1 l2, d :: l = l1 ++ last_at j d l :: l2
           ∧ Forall (λ e, vis e j = false) l2
           ∧ (vis d j = true → vis (last_at j d l) j = true).
Proof.
  revert d. induction l as [|e l IH]; intros d; simpl.
  - exists [], []. split_and!; [done|constructor|done].
  - destruct (vis e j) eqn:Hv.
    + destruct (IH e) as (l1 & l2 & Heq & Hl2 & Hvis).
      exists (d :: l1), l2. rewrite Heq. split_and!; [done|done|auto].
    + destruct (IH d) as (l1 & l2 & Heq & Hl2 & Hvis).
      destruct l1 as [|d' l1]; simpl in Heq; injection Heq as Hd Hl.
      * exists [], (e :: l). rewrite <- Hd. simpl.
        split_and!; [done| |done]. constructor; [done|by rewrite Hl].
      * subst d'. exists (d :: e :: l1), l2. simpl. by rewrite <- Hl.
Qed.

(** *** Splitting a list at two places *)

Lemma app_cons_split l1 e l2 P x Q :
  l1 ++ e :: l2 = P ++ x :: Q →
  (∃ m, P = l1 ++ e :: m ∧ l2 = m ++ x :: Q)
  ∨ (l1 = P ∧ e = x ∧ l2 = Q)
  ∨ (∃ m, Q = m ++ e :: l2 ∧ l1 = P ++ x :: m).
Proof.
  revert P. induction l1 as [|a l1 IH]; intros [|b P] Heq; simpl in Heq.
  - injection Heq as -> ->. right; left. done.
  - injection Heq as -> ->. left. by exists P.
  - injection Heq as -> <-. right; right. by exists l1.
  - injection Heq as -> Heq.
    destruct (IH _ Heq) as [(m & -> & ->)|[(-> & -> & ->)|(m & -> & ->)]].
    + left. by exists m.
    + right; left. done.
    + right; right. by exists m.
Qed.

Lemma app_split_cons P Q l1 e l2 :
  P ++ Q = l1 ++ e :: l2 →
  (∃ m, Q = m ++ e :: l2 ∧ l1 = P ++ m)
  ∨ (∃ m, P = l1 ++ e :: m ∧ l2 = m ++ Q).
Proof.
  revert l1. induction P as [|a P IH]; intros l1 Heq; simpl in Heq.
  - left. by exists l1.
  - destruct l1 as [|b l1]; simpl in Heq; injection Heq as -> Heq.
    + right. exists P. by rewrite Heq.
    + destruct (IH _ Heq) as [(m & -> & ->)|(m & -> & ->)].
      * left. by exists m.
      * right. by exists m.
Qed.

Lemma NoDup_split_unique l1 e l2 P p Q :
  NoDup (e_addr <$> (l1 ++ e :: l2)) →
  l1 ++ e :: l2 = P ++ p :: Q → e_addr e = e_addr p →
  l1 = P ∧ e = p ∧ l2 = Q.
Proof.
  intros Hnd Heq Ha.
  destruct (app_cons_split _ _ _ _ _ _ Heq)
    as [(m & -> & ->)|[(-> & -> & ->)|(m & -> & ->)]]; [exfalso|done|exfalso].
  - rewrite fmap_app, fmap_cons, fmap_app, fmap_cons in Hnd.
    apply NoDup_app in Hnd as (_ & _ & Hnd).
    apply NoDup_cons in Hnd as [Hnd _]. apply Hnd. rewrite Ha. set_solver.
  - rewrite Heq in Hnd.
    rewrite fmap_app, fmap_cons, fmap_app, fmap_cons in Hnd.
    apply NoDup_app in Hnd as (_ & _ & Hnd).
    apply NoDup_cons in Hnd as [Hnd _]. apply Hnd. rewrite <- Ha. set_solver.
Qed.

(** *** How an array changes *)

Lemma fwd_of_slot e rest : fwd_of e rest = slot e rest <$> seq 0 (e_lvl e + 1).
Proof. done. Qed.

Lemma fwd_of_ext e rest e' rest' :
  e_lvl e' = e_lvl e →
  (∀ j, j ≤ e_lvl e → slot e rest j = slot e' rest' j) →
  fwd_of e rest = fwd_of e' rest'.
Proof.
  intros Hl H. apply list_eq. intros j.
  destruct (decide (j ≤ e_lvl e)) as [Hj|Hj].
  - rewrite !fwd_of_lookup by lia. f_equal. by apply H.
  - rewrite !fwd_of_lookup_ge by lia. done.
Qed.

Lemma fwd_of_update e rest e' rest' i v :
  e_lvl e' = e_lvl e → i ≤ e_lvl e →
  slot e' rest' i = v →
  (∀ j, j ≤ e_lvl e → j ≠ i → slot e rest j = slot e' rest' j) →
  <[i:=v]> (fwd_of e rest) = fwd_of e' rest'.
Proof.
  intros Hl Hi Hv H. apply list_eq. intros j.
  destruct (decide (j = i)) as [->|Hne].
  - rewrite list_lookup_insert_eq by (rewrite fwd_of_length; lia).
    rewrite fwd_of_lookup by lia. by rewrite <- Hv.
  - rewrite list_lookup_insert_ne by done.
    destruct (decide (j ≤ e_lvl e)) as [Hj|Hj].
    + rewrite !fwd_of_lookup by lia. f_equal. by apply H.
    + rewrite !fwd_of_lookup_ge by lia. done.
Qed.

(** Changing one node of the rest changes a slot only at a level where
    that node's linking changed and nothing before it is linked. *)
Lemma slot_change e l x x' Q i j :
  e_addr x' = e_addr x →
  (∀ j, j ≠ i → vis x' j = vis x j) →
  j ≠ i ∨ first_at i l ≠ None ∨ e_hi e ≤ i →
  slot e (l ++ x :: Q) j = slot e (l ++ x' :: Q) j.
Proof.
  intros Ha Hv Hcase. unfold slot. case_bool_decide as Hhi; [|done].
  rewrite !first_at_app. destruct (first_at j l) eqn:Hl; [done|].
  simpl. rewrite Ha.
  destruct (decide (j = i)) as [->|Hne].
  - destruct Hcase as [?|[?|?]]; [done|done|lia].
  - by rewrite Hv.
Qed.

(** *** The store under the pointer writes of [put] and [remove] *)

Lemma rep_lookup h C l1 e l2 :
  rep h C → C = l1 ++ e :: l2 → h !! e_addr e = Some (node_of e l2).
Proof. intros H. apply H. Qed.

Lemma rep_elem h C e :
  rep h C → e ∈ C → ∃ rest, h !! e_addr e = Some (node_of e rest).
Proof.
  intros H (l1 & l2 & ->)%list_elem_of_split. exists l2. by eapply H.
Qed.

Lemma rep_tail h e C : rep h (e :: C) → rep h C.
Proof. intros H l1 e' l2 ->. by apply (H (e :: l1)). Qed.

(** Level [i]: the predecessor [p] is redirected, the node [x] after it
    changes its linking at that level. *)
Lemma rep_relink h h' P1 p P2 x x' Q i :
  rep h (P1 ++ p :: P2 ++ x :: Q) →
  NoDup (e_addr <$> (P1 ++ p :: P2 ++ x :: Q)) →
  vis p i = true → i ≤ e_lvl p →
  Forall (λ e, e_hi e ≤ i) P2 →
  e_addr x' = e_addr x →
  (∀ j, j ≠ i → vis x' j = vis x j) →
  h' !! e_addr x = Some (node_of x' Q) →
  h' !! e_addr p
  = Some (set_forward (node_of p (P2 ++ x :: Q))
            (<[i := first_at i (x' :: Q)]> (fwd_of p (P2 ++ x :: Q)))) →
  (∀ a, a ≠ e_addr x → a ≠ e_addr p → h' !! a = h !! a) →
  rep h' (P1 ++ p :: P2 ++ x' :: Q).
Proof.
  intros Hrep Hnd Hp Hip HP2 Ha Hv Hx' Hp' Hframe l1 e l2 Heq.
  assert (HP2v : Forall (λ e, vis e i = false) P2).
  { eapply Forall_impl; [exact HP2|]. intros y Hy. simpl in Hy. apply vis_false. lia. }
  assert (Hassoc : ∀ y, P1 ++ p :: P2 ++ y :: Q = (P1 ++ p :: P2) ++ y :: Q)
    by (intros; by rewrite <- app_assoc).
  rewrite Hassoc in Heq, Hrep, Hnd. symmetry in Heq.
  destruct (app_cons_split _ _ _ _ _ _ Heq)
    as [(m & HP & ->)|[(-> & -> & ->)|(m & -> & ->)]].
  - (* [e] lies before [x] *)
    assert (Hold : h !! e_addr e = Some (node_of e (m ++ x :: Q))).
    { apply (Hrep l1). rewrite HP. by rewrite <- app_assoc. }
    assert (Hex : e_addr e ≠ e_addr x).
    { intros Hax. rewrite HP, <- app_assoc in Hnd. simpl in Hnd.
      rewrite fmap_app, fmap_cons, fmap_app, fmap_cons in Hnd.
      apply NoDup_app in Hnd as (_ & _ & Hnd).
      apply NoDup_cons in Hnd as [Hnd _]. apply Hnd. rewrite Hax. set_solver. }
    symmetry in HP.
    destruct (app_cons_split _ _ _ _ _ _ HP)
      as [(k & -> & ->)|[(-> & -> & ->)|(k & -> & ->)]].
    + (* before [p] *)
      assert (Hep : e_addr e ≠ e_addr p).
      { intros Hap. rewrite <- !app_assoc in Hnd. simpl in Hnd.
        rewrite fmap_app, fmap_cons, fmap_app, fmap_cons in Hnd.
        apply NoDup_app in Hnd as (_ & _ & Hnd).
        apply NoDup_cons in Hnd as [Hnd _]. apply Hnd. rewrite Hap. set_solver. }
      rewrite Hframe, Hold by done. f_equal. unfold node_of. f_equal.
      apply fwd_of_ext; [done|]. intros j Hj.
      apply slot_change with (i := i); [done|done|].
      destruct (decide (j = i)) as [->|]; [|by left]. right; left.
      rewrite first_at_app.
      destruct (first_at i k); [done|]. simpl. by rewrite Hp.
    + (* [p] itself *)
      rewrite Hp'. f_equal. unfold node_of, set_forward. simpl. f_equal.
      apply fwd_of_update; [done|done| |].
      * unfold slot. rewrite bool_decide_eq_true_2
          by (apply vis_true in Hp; lia).
        by rewrite first_at_skip.
      * intros j Hj Hne. apply slot_change with (i := i); [done|done|by left].
    + (* between [p] and [x] *)
      assert (Hep : e_addr e ≠ e_addr p).
      { intros Hap. rewrite <- !app_assoc in Hnd. simpl in Hnd.
        rewrite fmap_app, fmap_cons, fmap_app, fmap_cons in Hnd.
        apply NoDup_app in Hnd as (_ & _ & Hnd).
        apply NoDup_cons in Hnd as [Hnd _]. apply Hnd. rewrite <- Hap. set_solver. }
      rewrite Hframe, Hold by done. f_equal. unfold node_of. f_equal.
      apply fwd_of_ext; [done|]. intros j Hj.
      apply slot_change with (i := i); [done|done|].
      destruct (decide (j = i)) as [->|]; [|by left]. right; right.
      apply Forall_app in HP2 as [_ HP2].
      by apply Forall_cons in HP2 as [? _].
  - (* [x] itself *)
    rewrite Ha. exact Hx'.
  - (* after [x] *)
    assert (Hold : h !! e_addr e = Some (node_of e l2)).
    { apply (Hrep ((P1 ++ p :: P2) ++ x :: m)). by rewrite <- !app_assoc. }
    rewrite Hframe; [done| |].
    + intros Hax.
      rewrite fmap_app, fmap_cons, fmap_app, fmap_cons in Hnd.
      apply NoDup_app in Hnd as (_ & _ & Hnd).
      apply NoDup_cons in Hnd as [Hnd _]. apply Hnd. rewrite <- Hax. set_solver.
    + intros Hap. rewrite <- !app_assoc in Hnd. simpl in Hnd.
      rewrite fmap_app, fmap_cons in Hnd.
      apply NoDup_app in Hnd as (_ & _ & Hnd).
      apply NoDup_cons in Hnd as [Hnd _]. apply Hnd. rewrite <- Hap.
      rewrite fmap_app, fmap_cons, fmap_app, fmap_cons. set_solver.
Qed.

Lemma addr_in_split (P : list (entry V)) x Q e :
  NoDup (e_addr <$> (P ++ x :: Q)) → e ∈ P ++ Q → e_addr e ≠ e_addr x.
Proof.
  rewrite fmap_app, fmap_cons. intros Hnd He Ha.
  apply NoDup_app in Hnd as (_ & Hdis & Hnd).
  apply NoDup_cons in Hnd as [Hx _].
  apply elem_of_app in He as [He|He].
  - apply (Hdis (e_addr e)); [by apply list_elem_of_fmap_2|].
    rewrite Ha. set_solver.
  - apply Hx. rewrite <- Ha. by apply list_elem_of_fmap_2.
Qed.

Lemma slot_hidden e l x Q j :
  hidden x → slot e (l ++ x :: Q) j = slot e (l ++ Q) j.
Proof.
  intros Hx. unfold slot. case_bool_decide; [|done].
  rewrite !first_at_app. simpl. by rewrite Hx.
Qed.

(** A node that is linked nowhere may join or leave the chain. *)
Lemma rep_insert_hidden h P x Q :
  rep h (P ++ Q) → h !! e_addr x = None → hidden x →
  rep (<[e_addr x := node_of x Q]> h) (P ++ x :: Q).
Proof.
  intros Hrep Hfresh Hx l1 e l2 Heq. symmetry in Heq.
  destruct (app_cons_split _ _ _ _ _ _ Heq)
    as [(m & -> & ->)|[(-> & -> & ->)|(m & -> & ->)]].
  - assert (Hold : h !! e_addr e = Some (node_of e (m ++ Q)))
      by (apply (Hrep l1); by rewrite <- app_assoc).
    rewrite lookup_insert_ne by congruence. rewrite Hold. f_equal.
    unfold node_of. f_equal. apply fwd_of_ext; [done|]. intros j _.
    symmetry. by apply slot_hidden.
  - by rewrite lookup_insert_eq.
  - assert (Hold : h !! e_addr e = Some (node_of e l2))
      by (apply (Hrep (P ++ m)); by rewrite <- app_assoc).
    rewrite lookup_insert_ne by congruence. done.
Qed.

Lemma rep_delete_hidden h P x Q :
  rep h (P ++ x :: Q) → NoDup (e_addr <$> (P ++ x :: Q)) → hidden x →
  rep (delete (e_addr x) h) (P ++ Q).
Proof.
  intros Hrep Hnd Hx l1 e l2 Heq.
  assert (He : e_addr e ≠ e_addr x).
  { apply (addr_in_split P x Q); [done|]. rewrite Heq. set_solver. }
  rewrite lookup_delete_ne by done.
  destruct (app_split_cons _ _ _ _ _ Heq) as [(m & -> & ->)|(m & -> & ->)].
  - rewrite (Hrep (P ++ x :: m) e l2) by (by rewrite <- app_assoc). done.
  - rewrite (Hrep l1 e (m ++ x :: Q)) by (by rewrite <- app_assoc).
    f_equal. unfold node_of. f_equal. apply fwd_of_ext; [done|]. intros j _.
    by apply slot_hidden.
Qed.

Lemma rep_set_value h P x Q v :
  rep h (P ++ x :: Q) → NoDup (e_addr <$> (P ++ x :: Q)) →
  rep (<[e_addr x := set_value (node_of x Q) v]> h) (P ++ with_val x v :: Q).
Proof.
  intros Hrep Hnd l1 e l2 Heq. symmetry in Heq.
  destruct (app_cons_split _ _ _ _ _ _ Heq)
    as [(m & -> & ->)|[(-> & -> & ->)|(m & -> & ->)]].
  - assert (He : e_addr e ≠ e_addr x).
    { apply (addr_in_split (l1 ++ e :: m) x Q); [done|]. set_solver. }
    rewrite lookup_insert_ne by done.
    rewrite (Hrep l1 e (m ++ x :: Q)) by (by rewrite <- app_assoc).
    f_equal. unfold node_of. f_equal. apply fwd_of_ext; [done|]. intros j _.
    apply slot_change with (i := S j); [done|done|left; lia].
  - simpl. by rewrite lookup_insert_eq.
  - assert (He : e_addr e ≠ e_addr x).
    { apply (addr_in_split P x (m ++ e :: l2)); [done|]. set_solver. }
    rewrite lookup_insert_ne by done.
    apply (Hrep (P ++ x :: m)). by rewrite <- app_assoc.
Qed.

(** *** Reading the store through the chain *)

Lemma rep_load_forward h C l1 e l2 i :
  rep h C → C = l1 ++ e :: l2 → i ≤ e_lvl e →
  load_forward h (e_addr e) i = Ok (slot e l2 i).
Proof.
  intros Hrep -> Hi. unfold load_forward, deref.
  rewrite (Hrep l1 e l2) by done. simpl. unfold at_index. simpl.
  by rewrite fwd_of_lookup.
Qed.

Lemma rep_load_regular h C l1 e l2 i :
  rep h C → C = l1 ++ e :: l2 → regular e → i ≤ e_lvl e →
  load_forward h (e_addr e) i = Ok (first_at i l2).
Proof.
  intros Hrep HC [_ Hhi] Hi. erewrite rep_load_forward by done.
  unfold slot. by rewrite bool_decide_eq_true_2 by lia.
Qed.

Lemma rep_deref h C e :
  rep h C → e ∈ C → ∃ n, deref h (e_addr e) = Ok n ∧ key_ n = e_key e
                        ∧ value_ n = e_val e.
Proof.
  intros Hrep He. destruct (rep_elem h C e Hrep He) as (rest & Hl).
  unfold deref. rewrite Hl. eauto.
Qed.

(** The walk along one level stops at the last node linked in at that
    level whose key is below [key]. *)
Lemma move_forward_spec h i key Q B : ∀ c fuel,
  load_forward h (e_addr c) i = Ok (first_at i (B ++ Q)) →
  (∀ B1 e B2, B = B1 ++ e :: B2 → vis e i = true →
     (∃ n, deref h (e_addr e) = Ok n ∧ key_ n = e_key e)
     ∧ load_forward h (e_addr e) i = Ok (first_at i (B2 ++ Q))) →
  Forall (λ e, (e_key e < key)%Z) B →
  (∀ a, first_at i Q = Some a →
     ∃ n, deref h a = Ok n ∧ ¬ (key_ n < key)%Z) →
  length B < fuel →
  move_forward_in_level fuel h (e_addr c) i key = Ok (e_addr (last_at i c B)).
Proof.
  induction B as [|b B IH]; intros c fuel Hc Hchain Hkeys HQ Hfuel.
  - destruct fuel as [|fuel]; [simpl in Hfuel; lia|]. simpl.
    rewrite Hc. simpl. destruct (first_at i Q) as [a|] eqn:Ha; [|done].
    destruct (HQ a eq_refl) as (n & -> & Hn). simpl.
    by rewrite bool_decide_eq_false_2.
  - apply Forall_cons in Hkeys as [Hb Hkeys]. simpl in Hc |- *.
    destruct (vis b i) eqn:Hv.
    + destruct fuel as [|fuel]; [simpl in Hfuel; lia|]. simpl.
      rewrite Hc. simpl.
      destruct (Hchain [] b B eq_refl Hv) as [(n & -> & Hn) Hload]. simpl.
      rewrite Hn, bool_decide_eq_true_2 by done.
      apply IH; [done| |done|done|simpl in Hfuel; lia].
      intros B1 e B2 -> He. by apply (Hchain (b :: B1)).
    + apply IH; [done| |done|done|simpl in Hfuel; lia].
      intros B1 e B2 -> He. by apply (Hchain (b :: B1)).
Qed.

Lemma last_at_from j d l A c B :
  d :: l = A ++ c :: B → vis c j = true → last_at j d l = last_at j c B.
Proof.
  intros Heq Hc. destruct A as [|a A]; simpl in Heq; injection Heq as -> ->.
  - done.
  - by apply last_at_app.
Qed.

Lemma regular_vis e j : regular e → j ≤ e_lvl e → vis e j = true.
Proof. intros He Hj. rewrite vis_regular by done. by apply bool_decide_eq_true_2. Qed.

Lemma regular_vis_inv e j : regular e → vis e j = true → j ≤ e_lvl e.
Proof. intros He. rewrite vis_regular by done. by intros ?%bool_decide_eq_true. Qed.

(** *** The search *)

Section search.
Variables (h : gmap addr (Node V)) (hd : entry V) (Llt Lge : list (entry V))
      (key : Z).
Hypothesis Hrep : rep h (hd :: Llt ++ Lge).
Hypothesis Hreg : Forall regular (hd :: Llt ++ Lge).
Hypothesis Hlt : Forall (λ e, (e_key e < key)%Z) Llt.
Hypothesis Hge : Forall (λ e, ¬ (e_key e < key)%Z) Lge.
Hypothesis Hsize : length (hd :: Llt ++ Lge) ≤ size h.

Lemma search_position A c B :
  hd :: Llt = A ++ c :: B →
  hd :: Llt ++ Lge = A ++ c :: B ++ Lge
  ∧ regular c ∧ Forall (λ e, (e_key e < key)%Z) B ∧ length B < S (size h).
Proof.
  intros Heq.
  assert (Hfull : hd :: Llt ++ Lge = A ++ c :: B ++ Lge).
  { change (hd :: Llt ++ Lge) with ((hd :: Llt) ++ Lge).
    rewrite Heq. by rewrite <- app_assoc. }
  split_and!; [done| | |].
  - rewrite Hfull in Hreg. apply Forall_app in Hreg as [_ Hr].
    by apply Forall_cons in Hr as [? _].
  - destruct A as [|a A]; simpl in Heq; injection Heq as -> ->; [done|].
    apply Forall_app in Hlt as [_ Hl]. by apply Forall_cons in Hl as [_ ?].
  - rewrite Hfull in Hsize. rewrite length_app in Hsize. simpl in Hsize.
    rewrite length_app in Hsize. lia.
Qed.

Lemma walk_level A c B i :
  hd :: Llt = A ++ c :: B → i ≤ e_lvl c →
  move_forward_in_level (S (size h)) h (e_addr c) i key
  = Ok (e_addr (last_at i c B)).
Proof.
  intros Heq Hi.
  destruct (search_position A c B Heq) as (Hfull & Hc & HB & Hfuel).
  apply move_forward_spec with (Q := Lge); [| |done| |done].
  - by eapply rep_load_regular.
  - intros B1 e B2 -> He.
    assert (Hpos : hd :: Llt ++ Lge = (A ++ c :: B1) ++ e :: B2 ++ Lge).
    { rewrite Hfull. by rewrite <- !app_assoc. }
    assert (Hre : regular e).
    { rewrite Hpos in Hreg. apply Forall_app in Hreg as [_ Hr].
      by apply Forall_cons in Hr as [? _]. }
    split.
    + destruct (rep_deref h _ e Hrep) as (n & ? & ? & _); [|by eauto].
      rewrite Hpos. set_solver.
    + eapply rep_load_regular; [done..|]. by apply regular_vis_inv.
  - intros a (l1 & e & l2 & HL & <- & _)%first_at_Some.
    destruct (rep_deref h _ e Hrep) as (n & ? & Hk & _).
    { rewrite HL. set_solver. }
    exists n. split; [done|]. rewrite Hk.
    rewrite HL in Hge. apply Forall_app in Hge as [_ Hg].
    by apply Forall_cons in Hg as [? _].
Qed.

Lemma traverse_unfold i cur update :
  traverse_and_collect_predecessors h i cur key update
  = (cur' ← move_forward_in_level (S (size h)) h cur i key;
     update' ← store_index update i (Some cur');
     match i with
     | 0 => Ok (cur', update')
     | S i' => traverse_and_collect_predecessors h i' cur' key update'
     end).
Proof. by destruct i. Qed.

Lemma traverse_zero_unfold i cur :
  traverse_to_level_zero h i cur key
  = (cur' ← move_forward_in_level (S (size h)) h cur i key;
     match i with
     | 0 => Ok cur'
     | S i' => traverse_to_level_zero h i' cur' key
     end).
Proof. by destruct i. Qed.

Lemma descent i : ∀ A c B update,
  hd :: Llt = A ++ c :: B → i ≤ e_lvl c → i < length update →
  ∃ update',
    traverse_and_collect_predecessors h i (e_addr c) key update
    = Ok (e_addr (last_at 0 hd Llt), update')
    ∧ length update' = length update
    ∧ (∀ j, j ≤ i → update' !! j = Some (Some (e_addr (last_at j hd Llt))))
    ∧ (∀ j, i < j → update' !! j = update !! j).
Proof.
  induction i as [|i IH]; intros A c B update Heq Hi Hlen.
  - rewrite traverse_unfold, (walk_level A c B 0) by done. simpl.
    unfold store_index. rewrite decide_True by done. simpl.
    destruct (search_position A c B Heq) as (_ & Hc & _).
    assert (Hlast : last_at 0 hd Llt = last_at 0 c B).
    { eapply last_at_from; [done|]. by apply regular_vis. }
    rewrite Hlast. eexists. split_and!; [done|by rewrite length_insert| |].
    + intros j Hj. assert (j = 0) as -> by lia.
      by rewrite Hlast, list_lookup_insert_eq by lia.
    + intros j Hj. by rewrite list_lookup_insert_ne by lia.
  - rewrite traverse_unfold, (walk_level A c B (S i)) by done. simpl.
    unfold store_index. rewrite decide_True by done. simpl.
    destruct (search_position A c B Heq) as (_ & Hc & _).
    assert (Hvc : vis c (S i) = true) by (by apply regular_vis).
    assert (Hlast : last_at (S i) hd Llt = last_at (S i) c B)
      by (by eapply last_at_from).
    destruct (last_at_split (S i) c B) as (l1 & l2 & Hsplit & _ & Hvis).
    specialize (Hvis Hvc).
    assert (Heq' : hd :: Llt = (A ++ l1) ++ last_at (S i) c B :: l2).
    { rewrite Heq, Hsplit. by rewrite <- app_assoc. }
    destruct (search_position _ _ _ Heq') as (_ & Hc' & _).
    apply regular_vis_inv in Hvis; [|done].
    destruct (IH _ _ _ (<[S i := Some (e_addr (last_at (S i) c B))]> update)
                Heq') as (update' & Hrun & Hlen' & Hlow & Hhigh);
      [lia|rewrite length_insert; lia|].
    exists update'. split_and!; [done|by rewrite Hlen', length_insert| |].
    + intros j Hj. destruct (decide (j = S i)) as [->|Hne].
      * rewrite Hhigh by lia. rewrite list_lookup_insert_eq by done.
        by rewrite Hlast.
      * apply Hlow. lia.
    + intros j Hj. rewrite Hhigh by lia.
      by rewrite list_lookup_insert_ne by lia.
Qed.

Lemma descent_to_zero i : ∀ A c B,
  hd :: Llt = A ++ c :: B → i ≤ e_lvl c →
  traverse_to_level_zero h i (e_addr c) key
  = Ok (e_addr (last_at 0 hd Llt)).
Proof.
  induction i as [|i IH]; intros A c B Heq Hi.
  - rewrite traverse_zero_unfold, (walk_level A c B 0) by done. simpl.
    destruct (search_position A c B Heq) as (_ & Hc & _).
    f_equal. f_equal. symmetry. eapply last_at_from; [done|].
    by apply regular_vis.
  - rewrite traverse_zero_unfold, (walk_level A c B (S i)) by done. simpl.
    destruct (search_position A c B Heq) as (_ & Hc & _).
    assert (Hvc : vis c (S i) = true) by (by apply regular_vis).
    destruct (last_at_split (S i) c B) as (l1 & l2 & Hsplit & _ & Hvis).
    specialize (Hvis Hvc).
    assert (Heq' : hd :: Llt = (A ++ l1) ++ last_at (S i) c B :: l2).
    { rewrite Heq, Hsplit. by rewrite <- app_assoc. }
    destruct (search_position _ _ _ Heq') as (_ & Hc' & _).
    apply regular_vis_inv in Hvis; [|done].
    eapply IH; [done|lia].
Qed.
End search.
End chain.

(** ** Verification: the invariant of the engine *)


Section invariant.
Context {V G : Type}.
Variable draw : G → bool * G.
Variable wrap : nat → nat.

Implicit Types (h : gmap addr (Node V)) (s : skip_list V G)
    (e hd : entry V) (L : list (entry V)).

Lemma wrap_ok_mono n m : m ≤ n → wrap_ok wrap n → wrap_ok wrap m.
Proof. intros Hm H i Hi. apply H. lia. Qed.

Lemma Inv_size s hd L : Inv wrap s hd L → length (hd :: L) = size (store_ s).
Proof.
  intros [_ Hnd Hdom _ _ _ _ _ _ _ _].
  rewrite <- size_dom, Hdom, size_list_to_set by done.
  by rewrite length_fmap.
Qed.

(** *** Splitting a sorted chain at a key *)

Lemma sorted_split L key :
  StronglySorted Z.lt (e_key <$> L) →
  ∃ Llt Lge, L = Llt ++ Lge
    ∧ Forall (λ e, (e_key e < key)%Z) Llt
    ∧ Forall (λ e, ¬ (e_key e < key)%Z) Lge.
Proof.
  induction L as [|e L IH]; intros Hs.
  - exists [], []. split_and!; [done|constructor|constructor].
  - rewrite fmap_cons in Hs. apply StronglySorted_cons in Hs as [Hall Hs].
    destruct (decide (e_key e < key)%Z) as [Hlt|Hge].
    + destruct (IH Hs) as (Llt & Lge & -> & H1 & H2).
      exists (e :: Llt), Lge. split_and!; [done|by constructor|done].
    + exists [], (e :: L). split_and!; [done|constructor|].
      constructor; [done|].
      rewrite Forall_fmap in Hall. eapply Forall_impl; [exact Hall|].
      intros e' He'. simpl in He'. lia.
Qed.

Lemma assoc_app_lt key Llt Lge :
  Forall (λ e, (e_key e < key)%Z) Llt → assoc key (Llt ++ Lge) = assoc key Lge.
Proof.
  induction 1 as [|e Llt He _ IH]; simpl; [done|].
  by rewrite bool_decide_eq_false_2 by lia.
Qed.

Lemma assoc_gt key L :
  Forall (λ e, (key < e_key e)%Z) L → assoc key L = None.
Proof.
  induction 1 as [|e L He _ IH]; simpl; [done|].
  by rewrite bool_decide_eq_false_2 by lia.
Qed.

Lemma sorted_tail_gt e L key :
  StronglySorted Z.lt (e_key <$> (e :: L)) → ¬ (e_key e < key)%Z →
  Forall (λ e', (key < e_key e')%Z) L.
Proof.
  rewrite fmap_cons. intros [Hall _]%StronglySorted_cons Hge.
  rewrite Forall_fmap in Hall. eapply Forall_impl; [exact Hall|].
  intros e' He'. simpl in He'. lia.
Qed.

(** *** The search, from the invariant *)

Section searching.
Variables (s : skip_list V G) (hd : entry V) (Llt Lge : list (entry V))
      (key : Z).
Hypothesis HInv : Inv wrap s hd (Llt ++ Lge).
Hypothesis Hlt : Forall (λ e, (e_key e < key)%Z) Llt.
Hypothesis Hge : Forall (λ e, ¬ (e_key e < key)%Z) Lge.

Let h := store_ s.

Lemma hd_regular : regular hd.
Proof. destruct HInv. by apply Forall_cons in inv_regular0 as [? _]. Qed.

Lemma find_predecessors_spec :
  ∃ update,
    find_predecessors s key = Ok (e_addr (pred_at hd Llt 0), update)
    ∧ length update = max_level_ s + 1
    ∧ (∀ j, j ≤ skip_list_level_ s →
         update !! j = Some (Some (e_addr (pred_at hd Llt j))))
    ∧ (∀ j, skip_list_level_ s < j → j ≤ max_level_ s →
         update !! j = Some None).
Proof.
  pose proof (Inv_size _ _ _ HInv) as Hsz. destruct HInv.
  destruct (descent (store_ s) hd Llt Lge key inv_rep0 inv_regular0 Hlt Hge
              ltac:(lia) (skip_list_level_ s) [] hd Llt
              (replicate (max_level_ s + 1) None) eq_refl)
    as (update & Hrun & Hlen & Hlow & Hhigh).
  { lia. }
  { rewrite length_replicate. lia. }
  exists update. unfold find_predecessors. rewrite <- inv_hd_addr0.
  split_and!; [done|by rewrite Hlen, length_replicate|done|].
  intros j Hj Hj'. rewrite Hhigh by done.
  by rewrite lookup_replicate_2 by lia.
Qed.

Lemma pred_zero_last :
  ∃ A, hd :: Llt = A ++ [pred_at hd Llt 0].
Proof.
  destruct HInv.
  destruct (last_at_split 0 hd Llt) as (l1 & l2 & Heq & Hhid & _).
  destruct l2 as [|e l2]; [by exists l1|exfalso].
  apply Forall_cons in Hhid as [He _].
  assert (Hin : e ∈ hd :: Llt ++ Lge).
  { change (e ∈ (hd :: Llt) ++ Lge). rewrite Heq. set_solver. }
  rewrite Forall_forall in inv_regular0.
  rewrite regular_vis in He; [done|by apply inv_regular0|lia].
Qed.

Lemma get_node_spec :
  get_node_at_level_zero (store_ s) (e_addr (pred_at hd Llt 0)) key
  = Ok (e_addr <$> hit_entry Lge key).
Proof.
  destruct pred_zero_last as (A & HA). destruct HInv.
  assert (Hpos : hd :: Llt ++ Lge = A ++ pred_at hd Llt 0 :: Lge).
  { change ((hd :: Llt) ++ Lge = A ++ pred_at hd Llt 0 :: Lge).
    rewrite HA. by rewrite <- app_assoc. }
  unfold get_node_at_level_zero.
  erewrite rep_load_regular; [|done|exact Hpos| |lia].
  2:{ rewrite Forall_forall in inv_regular0. apply inv_regular0.
      rewrite Hpos. set_solver. }
  unfold hit_entry. destruct Lge as [|q Q]; simpl; [done|].
  rewrite regular_vis; [|rewrite Forall_forall in inv_regular0;
    apply inv_regular0; set_solver|lia]. simpl.
  destruct (rep_deref (store_ s) _ q inv_rep0) as (n & -> & Hk & _);
    [set_solver|].
  simpl. rewrite Hk. by case_bool_decide.
Qed.

Lemma assoc_hit :
  assoc key (Llt ++ Lge) = e_val <$> hit_entry Lge key.
Proof.
  destruct HInv. rewrite assoc_app_lt by done. unfold hit_entry.
  destruct Lge as [|q Q]; simpl; [done|].
  case_bool_decide as Hq; [done|].
  apply assoc_gt.
  rewrite fmap_app in inv_sorted0.
  apply StronglySorted_app_1_r in inv_sorted0.
  apply Forall_cons in Hge as [Hq' _].
  eapply Forall_impl; [by eapply sorted_tail_gt|].
  intros e' He'. simpl in He'. lia.
Qed.

Lemma get_body_search :
  get_body key s = Ok (e_val <$> hit_entry Lge key).
Proof.
  pose proof (Inv_size _ _ _ HInv) as Hsz. pose proof get_node_spec as Hget.
  destruct HInv. unfold get_body. rewrite <- inv_hd_addr0.
  erewrite (descent_to_zero (store_ s) hd Llt Lge key inv_rep0 inv_regular0
              Hlt Hge ltac:(lia) _ [] hd Llt eq_refl) by lia.
  simpl. fold (pred_at hd Llt 0). rewrite Hget. simpl.
  unfold hit_entry in *. destruct Lge as [|q Q]; simpl; [done|].
  case_bool_decide; simpl; [|done].
  destruct (rep_deref (store_ s) _ q inv_rep0) as (n & -> & _ & Hv);
    [set_solver|].
  simpl. by rewrite Hv.
Qed.
End searching.

Lemma get_body_spec s hd L key :
  Inv wrap s hd L → get_body key s = Ok (assoc key L).
Proof.
  intros HInv. destruct (sorted_split L key) as (Llt & Lge & -> & Hlt & Hge).
  { by destruct HInv. }
  rewrite (assoc_hit s hd Llt Lge key) by done.
  by apply (get_body_search s hd Llt Lge key).
Qed.

(** *** The loops of [put] *)

Lemma random_level_loop_bound n k g :
  (random_level_loop draw n k g).1 ≤ n + k.
Proof.
  revert k g. induction n as [|n IH]; intros k g; simpl.
  - destruct (draw g) as [b g']. simpl. lia.
  - destruct (draw g) as [[] g']; simpl; [|lia].
    specialize (IH (S k) g'). lia.
Qed.

Lemma get_random_level_bound s : (get_random_level draw s).1 ≤ max_level_ s.
Proof.
  unfold get_random_level.
  pose proof (random_level_loop_bound (max_level_ s) 0 (gen_ s)). lia.
Qed.

Lemma store_forward_spec h a (n : Node V) i x :
  h !! a = Some n → i < length (forward_ n) →
  store_forward h a i x = Ok (<[a := set_forward n (<[i:=x]> (forward_ n))]> h).
Proof.
  intros Ha Hi. unfold store_forward, deref. rewrite Ha. simpl.
  unfold store_index. by rewrite decide_True by done.
Qed.

Lemma raise_loop_spec lvl hdr : wrap_ok wrap lvl →
  ∀ n i update fuel,
    n = lvl + 1 - i → i ≤ lvl + 1 → lvl < length update → n < fuel →
    ∃ update',
      raise_loop wrap fuel i lvl hdr update = Ok update'
      ∧ length update' = length update
      ∧ (∀ j, i ≤ j → j ≤ lvl → update' !! j = Some (Some hdr))
      ∧ (∀ j, j < i ∨ lvl < j → update' !! j = update !! j).
Proof.
  intros Hw. induction n as [|n IH]; intros i update fuel Hn Hi Hlen Hfuel;
    (destruct fuel as [|fuel]; [lia|]); simpl.
  - rewrite bool_decide_eq_false_2 by lia.
    exists update. split_and!; [done|done| |done]. intros j ??. lia.
  - rewrite bool_decide_eq_true_2 by lia.
    unfold store_index. rewrite decide_True by lia. simpl.
    rewrite Hw by lia.
    destruct (IH (i + 1) (<[i:=Some hdr]> update) fuel)
      as (update' & Hrun & Hlen' & Hin & Hout);
      [lia|lia|rewrite length_insert; lia|lia|].
    exists update'. split_and!; [done|by rewrite Hlen', length_insert| |].
    + intros j Hj1 Hj2. destruct (decide (j = i)) as [->|Hne].
      * rewrite Hout by lia. by rewrite list_lookup_insert_eq by lia.
      * apply Hin; lia.
    + intros j Hj. rewrite Hout by lia.
      by rewrite list_lookup_insert_ne by lia.
Qed.

Section splicing.
Variables (hd : entry V) (Llt Lge : list (entry V)).
Variables (a : addr) (key : Z) (value : V) (lvl : nat).
Variable update : list (option addr).

Hypothesis Hupd :
      ∀ j, j ≤ lvl → update !! j = Some (Some (e_addr (last_at j hd Llt))).
Hypothesis Hreg : Forall regular (hd :: Llt ++ Lge).
Hypothesis Hhd : lvl ≤ e_lvl hd.
Hypothesis Hnd :
  NoDup (e_addr <$> (hd :: Llt ++ spliced a key value lvl 0 :: Lge)).
Hypothesis Hw : wrap_ok wrap lvl.

Lemma NoDup_spliced i :
  NoDup (e_addr <$> (hd :: Llt ++ spliced a key value lvl i :: Lge)).
Proof.
  rewrite fmap_cons, fmap_app, fmap_cons.
  by rewrite fmap_cons, fmap_app, fmap_cons in Hnd.
Qed.

Lemma splice_step i h :
  i ≤ lvl → rep h (hd :: Llt ++ spliced a key value lvl i :: Lge) →
  ∃ p h1 h2,
    update !! i = Some (Some p)
    ∧ load_forward h p i = Ok (first_at i Lge)
    ∧ store_forward h a i (first_at i Lge) = Ok h1
    ∧ store_forward h1 p i (Some a) = Ok h2
    ∧ rep h2 (hd :: Llt ++ spliced a key value lvl (i + 1) :: Lge)
    ∧ dom h2 = dom h.
Proof.
  intros Hi Hrep.
  destruct (last_at_split i hd Llt) as (P1 & P2 & Hsplit & Hhid & Hvis).
  set (p := last_at i hd Llt) in *.
  assert (Hhdreg : regular hd) by (by apply Forall_cons in Hreg as [? _]).
  specialize (Hvis (regular_vis hd i Hhdreg ltac:(lia))).
  assert (Hin : ∀ e, e ∈ P1 ++ p :: P2 → regular e).
  { intros e He. rewrite Forall_forall in Hreg. apply Hreg.
    change (e ∈ (hd :: Llt) ++ Lge). rewrite Hsplit. set_solver. }
  assert (Hpreg : regular p) by (apply Hin; set_solver).
  assert (Hpl : i ≤ e_lvl p) by (by apply regular_vis_inv).
  assert (HP2 : Forall (λ e, e_hi e ≤ i) P2).
  { rewrite Forall_forall in Hhid |- *. intros e He.
    specialize (Hhid e He). simpl in Hhid.
    destruct (Hin e) as [Hlo _]; [set_solver|].
    apply vis_false in Hhid. lia. }
  assert (Hchain : ∀ x, hd :: Llt ++ x :: Lge = P1 ++ p :: P2 ++ x :: Lge).
  { intros x. change ((hd :: Llt) ++ x :: Lge = P1 ++ p :: P2 ++ x :: Lge).
    rewrite Hsplit. by rewrite <- app_assoc. }
  rewrite Hchain in Hrep.
  pose proof (NoDup_spliced i) as Hndi. rewrite Hchain in Hndi.
  assert (Hpa : e_addr p ≠ a).
  { pose proof Hndi as Hnd'. rewrite fmap_app, fmap_cons, fmap_app, fmap_cons in Hnd'.
    apply NoDup_app in Hnd' as (_ & _ & Hnd').
    apply NoDup_cons in Hnd' as [Hnd' _]. intros Hpa. apply Hnd'.
    rewrite Hpa. set_solver. }
  assert (Hla : h !! a = Some (node_of (spliced a key value lvl i) Lge)).
  { apply (Hrep (P1 ++ p :: P2) (spliced a key value lvl i) Lge).
    by rewrite <- app_assoc. }
  assert (Hlp : h !! e_addr p
                = Some (node_of p (P2 ++ spliced a key value lvl i :: Lge))).
  { by apply (Hrep P1 p). }
  assert (Hfirst : first_at i (P2 ++ spliced a key value lvl i :: Lge)
                   = first_at i Lge).
  { rewrite first_at_skip by done. simpl.
    replace (vis (spliced a key value lvl i) i) with false; [done|].
    symmetry. apply vis_false. simpl. lia. }
  exists (e_addr p). eexists. eexists. split_and!.
  - by apply Hupd.
  - erewrite rep_load_regular; [|exact Hrep|done|done|done].
    by rewrite Hfirst.
  - apply store_forward_spec; [exact Hla|].
    simpl. rewrite fwd_of_length. simpl. lia.
  - apply store_forward_spec.
    + rewrite lookup_insert_ne by done. exact Hlp.
    + simpl. rewrite fwd_of_length. lia.
  - rewrite Hchain.
    eapply (rep_relink h _ P1 p P2 (spliced a key value lvl i)
              (spliced a key value lvl (i + 1)) Lge i);
      [exact Hrep|exact Hndi|exact Hvis|exact Hpl|exact HP2|reflexivity| | | |].
    + intros j Hj. unfold vis. simpl. f_equal. apply bool_decide_ext. lia.
    + simpl. rewrite lookup_insert_ne by done. rewrite lookup_insert_eq.
      f_equal. unfold node_of, set_forward. simpl. f_equal.
      apply fwd_of_update; [done|simpl; lia| |].
      * unfold slot. simpl. by rewrite bool_decide_eq_true_2 by lia.
      * intros j _ Hne. unfold slot. simpl.
        replace (bool_decide (j < i + 1)) with (bool_decide (j < i));
          [done|]. apply bool_decide_ext. lia.
    + rewrite lookup_insert_eq. simpl.
      replace (vis (spliced a key value lvl (i + 1)) i) with true; [done|].
      symmetry. apply vis_true. simpl. lia.
    + intros b Hb1 Hb2. simpl in Hb1.
      by rewrite !lookup_insert_ne by done.
  - rewrite !dom_insert_lookup_L; [done| |].
    + eauto.
    + rewrite lookup_insert_ne by done. eauto.
Qed.

Lemma splice_loop_spec : ∀ n i h fuel,
  n = lvl + 1 - i → i ≤ lvl + 1 → n < fuel →
  rep h (hd :: Llt ++ spliced a key value lvl i :: Lge) →
  ∃ h', splice_loop wrap fuel i lvl a update h = Ok h'
        ∧ rep h' (hd :: Llt ++ spliced a key value lvl (lvl + 1) :: Lge)
        ∧ dom h' = dom h.
Proof.
  induction n as [|n IH]; intros i h fuel Hn Hi Hfuel Hrep;
    (destruct fuel as [|fuel]; [lia|]); simpl.
  - rewrite bool_decide_eq_false_2 by lia.
    assert (i = lvl + 1) as -> by lia. by exists h.
  - rewrite bool_decide_eq_true_2 by lia.
    destruct (splice_step i h)
      as (p & h1 & h2 & Hu & Hload & Hs1 & Hst & Hrep' & Hdom); [lia|done|].
    unfold at_index. rewrite Hu. simpl. rewrite Hload. simpl.
    rewrite Hs1. simpl. rewrite Hst. simpl. rewrite Hw by lia.
    destruct (IH (i + 1) h2 fuel) as (h' & Hrun & Hrep'' & Hdom');
      [lia|lia|lia|done|].
    exists h'. split_and!; [done|done|congruence].
Qed.
End splicing.

(** *** The value map under insertion, update and removal *)

Lemma assoc_insert k key P x Q :
  Forall (λ e, e_key e ≠ key) P → e_key x = key →
  assoc k (P ++ x :: Q)
  = if bool_decide (k = key) then Some (e_val x) else assoc k (P ++ Q).
Proof.
  intros HP Hx. induction HP as [|e P He _ IH]; simpl.
  - rewrite Hx. case_bool_decide; case_bool_decide; congruence.
  - rewrite IH. repeat case_bool_decide; congruence.
Qed.

Lemma assoc_update k key P x x' Q :
  Forall (λ e, e_key e ≠ key) P → e_key x = key → e_key x' = key →
  assoc k (P ++ x' :: Q)
  = if bool_decide (k = key) then Some (e_val x') else assoc k (P ++ x :: Q).
Proof.
  intros HP Hx Hx'. induction HP as [|e P He _ IH]; simpl.
  - rewrite Hx, Hx'. case_bool_decide; case_bool_decide; congruence.
  - rewrite IH. repeat case_bool_decide; congruence.
Qed.

Lemma assoc_absent key L :
  Forall (λ e, e_key e ≠ key) L → assoc key L = None.
Proof.
  induction 1 as [|e L He _ IH]; simpl; [done|].
  by rewrite bool_decide_eq_false_2.
Qed.

Lemma assoc_delete k key P x Q :
  Forall (λ e, e_key e ≠ key) (P ++ Q) → e_key x = key →
  assoc k (P ++ Q)
  = if bool_decide (k = key) then None else assoc k (P ++ x :: Q).
Proof.
  intros HPQ Hx. case_bool_decide as Hk.
  - subst k. by apply assoc_absent.
  - apply Forall_app in HPQ as [HP _].
    rewrite (assoc_insert k key P x Q) by done.
    by rewrite bool_decide_eq_false_2.
Qed.

Lemma NoDup_insert_mid (l1 l2 : list addr) (a : addr) :
  NoDup (l1 ++ l2) → a ∉ l1 ++ l2 → NoDup (l1 ++ a :: l2).
Proof.
  rewrite !NoDup_app, NoDup_cons. intros (H1 & H12 & H2) Ha.
  split_and!; [done| |set_solver|done].
  intros x Hx. specialize (H12 x Hx). set_solver.
Qed.

Lemma node_of_spliced_0 a key (value : V) lvl Q :
  node_of (spliced a key value lvl 0) Q = new_Node key value lvl.
Proof.
  unfold node_of, new_Node. simpl. f_equal.
  apply list_eq. intros j. unfold fwd_of. simpl.
  rewrite list_lookup_fmap.
  destruct (decide (j < lvl + 1)) as [Hj|Hj].
  - rewrite lookup_seq_lt, lookup_replicate_2 by done. done.
  - rewrite lookup_seq_ge by lia. simpl. symmetry.
    apply lookup_replicate_None. lia.
Qed.

(** Keys at or above an absent [key] are above it. *)
Lemma absent_above key Lge :
  StronglySorted Z.lt (e_key <$> Lge) →
  Forall (λ e, ¬ (e_key e < key)%Z) Lge →
  match Lge with q :: _ => e_key q ≠ key | [] => True end →
  Forall (λ e, (key < e_key e)%Z) Lge.
Proof.
  destruct Lge as [|q Q]; [constructor|]. intros Hs Hge Hq.
  pose proof (sorted_tail_gt q Q key Hs) as Htail.
  apply Forall_cons in Hge as [Hq' _]. constructor; [lia|by apply Htail].
Qed.

(** *** [put] *)

Section putting.
Variables (s : skip_list V G) (hd : entry V) (Llt Lge : list (entry V))
      (key : Z) (value : V).
Hypothesis HInv : Inv wrap s hd (Llt ++ Lge).
Hypothesis Hlt : Forall (λ e, (e_key e < key)%Z) Llt.
Hypothesis Hge : Forall (λ e, ¬ (e_key e < key)%Z) Lge.

Lemma Llt_not_key : Forall (λ e, e_key e ≠ key) Llt.
Proof. eapply Forall_impl; [exact Hlt|]. intros e He. simpl in He. lia. Qed.

Lemma pred_above_top j :
  skip_list_level_ s < j → pred_at hd Llt j = hd.
Proof.
  intros Hj. apply last_at_hidden. destruct HInv.
  apply Forall_app in inv_levels0 as [Hl _].
  apply Forall_cons in inv_regular0 as [_ Hr].
  apply Forall_app in Hr as [Hr _].
  rewrite Forall_forall in Hl, Hr |- *. intros e He.
  rewrite vis_regular by auto. apply bool_decide_eq_false_2.
  specialize (Hl e He). simpl in Hl. lia.
Qed.

Lemma adjust_insertion_spec update lvl :
  length update = max_level_ s + 1 →
  (∀ j, j ≤ skip_list_level_ s →
     update !! j = Some (Some (e_addr (pred_at hd Llt j)))) →
  lvl ≤ max_level_ s → wrap_ok wrap lvl →
  ∃ update',
    adjust_max_level_for_insertion wrap s lvl update
    = Ok (update', skip_list_level_ s `max` lvl)
    ∧ ∀ j, j ≤ skip_list_level_ s `max` lvl →
        update' !! j = Some (Some (e_addr (pred_at hd Llt j))).
Proof.
  intros Hlen Hlow Hlvl Hw. unfold adjust_max_level_for_insertion.
  case_bool_decide as Htop.
  - destruct HInv.
    destruct (raise_loop_spec lvl (header_ s) Hw
                (lvl + 1 - (skip_list_level_ s + 1))
                (skip_list_level_ s + 1) update (S (S (max_level_ s))))
      as (update' & Hrun & _ & Hin & Hout); [lia..|].
    rewrite inv_wrap0 by lia. rewrite Hrun. simpl.
    rewrite Nat.max_r by lia. exists update'. split; [done|].
    intros j Hj. destruct (decide (j ≤ skip_list_level_ s)) as [Hle|Hgt].
    + rewrite Hout by lia. by apply Hlow.
    + rewrite Hin by lia. rewrite pred_above_top by lia.
      by rewrite inv_hd_addr0.
  - rewrite Nat.max_l by lia. exists update. split; [done|].
    intros j Hj. apply Hlow. lia.
Qed.

(** The key is present: its node is [q]. *)
Lemma put_body_present mem q Q :
  Lge = q :: Q → e_key q = key →
  put_body draw wrap mem key value s
  = Ok (Returned 1
          (mkSkipList (max_level_ s) (skip_list_level_ s) (header_ s)
             (element_count_ s) (mutex_ s) (gen_ s)
             (<[e_addr q := set_value (node_of q Q) value]> (store_ s))))
  ∧ Inv wrap (mkSkipList (max_level_ s) (skip_list_level_ s) (header_ s)
           (element_count_ s) (mutex_ s) (gen_ s)
           (<[e_addr q := set_value (node_of q Q) value]> (store_ s)))
      hd (Llt ++ with_val q value :: Q).
Proof.
  intros HL Hq.
  destruct (find_predecessors_spec s hd Llt Lge key HInv Hlt Hge)
    as (update & Hfind & _).
  pose proof (get_node_spec s hd Llt Lge key HInv Hlt Hge) as Hget.
  unfold hit_entry in Hget. subst Lge.
  rewrite bool_decide_eq_true_2 in Hget by done.
  assert (Hq' : store_ s !! e_addr q = Some (node_of q Q)).
  { destruct HInv. apply (inv_rep0 (hd :: Llt)). done. }
  split.
  - unfold put_body. rewrite Hfind. simpl. rewrite Hget. simpl.
    unfold deref. rewrite Hq'. done.
  - destruct HInv. constructor; simpl_fields; try done.
    + by apply (rep_set_value (store_ s) (hd :: Llt) q Q value).
    + rewrite fmap_cons, fmap_app, fmap_cons in inv_nodup0 |- *. done.
    + rewrite dom_insert_lookup_L by eauto. rewrite inv_dom0.
      by rewrite !fmap_cons, !fmap_app, !fmap_cons.
    + apply Forall_cons in inv_regular0 as [Hh Hr].
      apply Forall_app in Hr as [Hr1 Hr2].
      apply Forall_cons in Hr2 as [Hr2 Hr3].
      constructor; [done|]. apply Forall_app. split; [done|].
      by constructor.
    + by rewrite fmap_app, fmap_cons in inv_sorted0 |- *.
    + apply Forall_app in inv_levels0 as [Hl1 Hl2].
      apply Forall_cons in Hl2 as [Hl2 Hl3].
      apply Forall_app. split; [done|]. by constructor.
    + rewrite inv_count0, !length_app. done.
Qed.

(** The key is absent: a node of the level drawn is spliced in. *)
Lemma put_body_absent lvl g :
  match Lge with q :: _ => e_key q ≠ key | [] => True end →
  get_random_level draw s = (lvl, g) → wrap_ok wrap lvl →
  let a := fresh (dom (store_ s)) in
  let top := skip_list_level_ s `max` lvl in
  (∃ h,
     put_body draw wrap true key value s
     = Ok (Returned 0
             (mkSkipList (max_level_ s) top (header_ s)
                (element_count_ s + 1) (mutex_ s) g h))
     ∧ Inv wrap (mkSkipList (max_level_ s) top (header_ s)
              (element_count_ s + 1) (mutex_ s) g h)
         hd (Llt ++ spliced a key value lvl (lvl + 1) :: Lge))
  ∧ put_body draw wrap false key value s
    = Ok (Threw bad_alloc
            (mkSkipList (max_level_ s) top (header_ s)
               (element_count_ s) (mutex_ s) g (store_ s))).
Proof.
  intros Habs Hlvl Hw a top.
  destruct (find_predecessors_spec s hd Llt Lge key HInv Hlt Hge)
    as (update & Hfind & Hlen & Hlow & _).
  pose proof (get_node_spec s hd Llt Lge key HInv Hlt Hge) as Hget.
  assert (Hhit : hit_entry Lge key = None).
  { unfold hit_entry. destruct Lge; [done|].
    by rewrite bool_decide_eq_false_2. }
  rewrite Hhit in Hget. simpl in Hget.
  pose proof (get_random_level_bound s) as Hbound. rewrite Hlvl in Hbound.
  simpl in Hbound.
  destruct (adjust_insertion_spec update lvl Hlen Hlow Hbound Hw)
    as (update' & Hadj & Hupd).
  fold top in Hadj, Hupd.
  assert (Hfresh : store_ s !! a = None).
  { apply not_elem_of_dom. apply is_fresh. }
  split.
  2:{ unfold put_body. rewrite Hfind. simpl. rewrite Hget. simpl.
      rewrite Hlvl. rewrite Hadj. done. }
  pose proof HInv as [Hrep Hnd Hdom Hreg Hha Hhl Hsort Hlev Htop Hcnt Hwt].
  assert (Ha : a ∉ e_addr <$> (hd :: Llt ++ Lge)).
  { intros Hin. apply (is_fresh (dom (store_ s))). fold a.
    rewrite Hdom. by apply elem_of_list_to_set. }
  assert (Hnd' : NoDup (e_addr <$> (hd :: Llt ++ spliced a key value lvl 0 :: Lge))).
  { rewrite fmap_cons, fmap_app, fmap_cons.
    rewrite fmap_cons, fmap_app in Hnd, Ha.
    apply (NoDup_insert_mid (e_addr hd :: (e_addr <$> Llt))); done. }
  assert (Hrep0 : rep (<[a := new_Node key value lvl]> (store_ s))
                    (hd :: Llt ++ spliced a key value lvl 0 :: Lge)).
  { rewrite <- (node_of_spliced_0 a key value lvl Lge).
    apply (rep_insert_hidden (store_ s) (hd :: Llt)
             (spliced a key value lvl 0) Lge); [done|done|].
    intros j. apply vis_false. simpl. lia. }
  destruct (splice_loop_spec hd Llt Lge a key value lvl update')
    with (n := lvl + 1) (i := 0) (fuel := S (S (max_level_ s)))
         (h := <[a := new_Node key value lvl]> (store_ s))
    as (h' & Hrun & Hrep' & Hdom');
    [intros j Hj; apply Hupd; lia|done|lia|done|done|lia|lia|lia|done|].
  exists h'. split.
  - unfold put_body, alloc. rewrite Hfind. cbn [mbind res_bind].
    rewrite Hget. cbn [mbind res_bind].
    rewrite Hlvl. rewrite Hadj. cbn [mbind res_bind]. fold a.
    rewrite Hrun. done.
  - constructor; simpl_fields; try done.
    + rewrite fmap_cons, fmap_app, fmap_cons in Hnd' |- *. done.
    + rewrite Hdom', dom_insert_L, Hdom.
      rewrite !fmap_cons, !fmap_app, !fmap_cons. simpl. set_solver.
    + apply Forall_cons in Hreg as [Hh Hr].
      apply Forall_app in Hr as [Hr1 Hr2].
      constructor; [done|]. apply Forall_app. split; [done|].
      constructor; [|done]. by split.
    + rewrite fmap_app, fmap_cons. simpl.
      rewrite fmap_app in Hsort.
      apply StronglySorted_app in Hsort as (Hcross & Hs1 & Hs2).
      pose proof (absent_above key Lge Hs2 Hge Habs) as Habove.
      apply StronglySorted_app. split_and!; [|done|].
      * intros x1 x2 Hx1 Hx2.
        apply list_elem_of_fmap in Hx1 as (e1 & -> & He1).
        rewrite Forall_forall in Hlt. specialize (Hlt e1 He1).
        simpl in Hlt.
        apply elem_of_cons in Hx2 as [->|Hx2]; [done|].
        apply list_elem_of_fmap in Hx2 as (e2 & -> & He2).
        rewrite Forall_forall in Habove. specialize (Habove e2 He2).
        simpl in Habove. lia.
      * apply StronglySorted_cons. split; [|done].
        rewrite Forall_fmap. done.
    + apply Forall_app in Hlev as [Hl1 Hl2].
      apply Forall_app. split; [|constructor].
      * eapply Forall_impl; [exact Hl1|]. intros e He. simpl in He.
        unfold top. lia.
      * simpl. unfold top. lia.
      * eapply Forall_impl; [exact Hl2|]. intros e He. simpl in He.
        unfold top. lia.
    + unfold top. lia.
    + rewrite Hcnt, !length_app. simpl. lia.
    + intros i Hi. unfold top in Hi.
      destruct (decide (i ≤ lvl)); [by apply Hw|apply Hwt; lia].
Qed.

(** The key is absent and raising the top level fails: so does [put]. *)
Lemma put_body_absent_stuck mem lvl g f :
  match Lge with q :: _ => e_key q ≠ key | [] => True end →
  get_random_level draw s = (lvl, g) →
  (∀ update, length update = max_level_ s + 1 →
     adjust_max_level_for_insertion wrap s lvl update = Err f) →
  put_body draw wrap mem key value s = Err f.
Proof.
  intros Habs Hlvl Hfail.
  destruct (find_predecessors_spec s hd Llt Lge key HInv Hlt Hge)
    as (update & Hfind & Hlen & _).
  pose proof (get_node_spec s hd Llt Lge key HInv Hlt Hge) as Hget.
  assert (Hhit : hit_entry Lge key = None).
  { unfold hit_entry. destruct Lge; [done|].
    by rewrite bool_decide_eq_false_2. }
  rewrite Hhit in Hget.
  unfold put_body. rewrite Hfind. cbn [mbind res_bind].
  rewrite Hget. cbn [mbind res_bind fmap option_fmap option_map].
  rewrite Hlvl. by rewrite (Hfail update Hlen).
Qed.
End putting.

(** *** [remove] *)

Lemma shrink_top_spec L top :
  shrink_top L top ≤ top
  ∧ ∀ j, shrink_top L top < j → j ≤ top → first_at j L = None.
Proof.
  induction top as [|top [IH1 IH2]]; cbn [shrink_top].
  - split; [done|]. intros j ??. lia.
  - destruct (first_at (S top) L) eqn:Hf.
    + split; [done|]. intros j ??. lia.
    + split; [lia|]. intros j Hj1 Hj2.
      destruct (decide (j = S top)) as [->|]; [done|]. apply IH2; lia.
Qed.

Lemma adjust_max_level_spec h hd L top :
  rep h (hd :: L) → regular hd → top ≤ e_lvl hd →
  adjust_max_level h (e_addr hd) top = Ok (shrink_top L top).
Proof.
  intros Hrep Hreg. induction top as [|top IH]; intros Htop; [done|].
  cbn [adjust_max_level shrink_top mbind res_bind].
  rewrite (rep_load_regular h (hd :: L) [] hd L) by done.
  cbn [mbind res_bind].
  destruct (first_at (S top) L) eqn:Hf; [done|]. apply IH. lia.
Qed.

Section removing.
Variables (s : skip_list V G) (hd : entry V) (Llt : list (entry V))
      (c : entry V) (Q : list (entry V)) (key : Z).
Hypothesis HInv : Inv wrap s hd (Llt ++ c :: Q).
Hypothesis Hlt : Forall (λ e, (e_key e < key)%Z) Llt.
Hypothesis Hc : e_key c = key.
Variable update : list (option addr).
Hypothesis Hupd :
      ∀ j, j ≤ skip_list_level_ s →
        update !! j = Some (Some (e_addr (last_at j hd Llt))).

Lemma c_regular : regular c.
Proof.
  destruct HInv. rewrite Forall_forall in inv_regular0.
  apply inv_regular0. set_solver.
Qed.

Lemma unlinking_0 : unlinking c 0 = c.
Proof.
  destruct c_regular as [Hlo Hhi]. unfold unlinking, with_span. simpl.
  destruct c. simpl in *. by subst.
Qed.

Lemma NoDup_unlinking i :
  NoDup (e_addr <$> (hd :: Llt ++ unlinking c i :: Q)).
Proof.
  destruct HInv. rewrite fmap_cons, fmap_app, fmap_cons.
  by rewrite fmap_cons, fmap_app, fmap_cons in inv_nodup0.
Qed.

Lemma unlink_step i h :
  i ≤ skip_list_level_ s → rep h (hd :: Llt ++ unlinking c i :: Q) →
  ∃ p nxt,
    update !! i = Some (Some p)
    ∧ load_forward h p i = Ok nxt
    ∧ ((nxt = Some (e_addr c)
        ∧ ∃ x h2, load_forward h (e_addr c) i = Ok x
                  ∧ store_forward h p i x = Ok h2
                  ∧ rep h2 (hd :: Llt ++ unlinking c (i + 1) :: Q)
                  ∧ dom h2 = dom h)
       ∨ (nxt ≠ Some (e_addr c) ∧ unlinking c (i + 1) = unlinking c i)).
Proof.
  intros Hi Hrep. pose proof HInv as [_ _ _ Hreg _ Hhl _ _ Htop _ _].
  destruct (last_at_split i hd Llt) as (P1 & P2 & Hsplit & Hhid & Hvis).
  set (p := last_at i hd Llt) in *.
  assert (Hhdreg : regular hd) by (by apply Forall_cons in Hreg as [? _]).
  specialize (Hvis (regular_vis hd i Hhdreg ltac:(lia))).
  assert (Hin : ∀ e, e ∈ P1 ++ p :: P2 → regular e).
  { intros e He. rewrite Forall_forall in Hreg. apply Hreg.
    change (e ∈ (hd :: Llt) ++ c :: Q). rewrite Hsplit. set_solver. }
  assert (Hpreg : regular p) by (apply Hin; set_solver).
  assert (Hpl : i ≤ e_lvl p) by (by apply regular_vis_inv).
  assert (HP2 : Forall (λ e, e_hi e ≤ i) P2).
  { rewrite Forall_forall in Hhid |- *. intros e He.
    specialize (Hhid e He). simpl in Hhid.
    destruct (Hin e) as [Hlo _]; [set_solver|].
    apply vis_false in Hhid. lia. }
  assert (Hchain : ∀ x, hd :: Llt ++ x :: Q = P1 ++ p :: P2 ++ x :: Q).
  { intros x. change ((hd :: Llt) ++ x :: Q = P1 ++ p :: P2 ++ x :: Q).
    rewrite Hsplit. by rewrite <- app_assoc. }
  rewrite Hchain in Hrep.
  pose proof (NoDup_unlinking i) as Hndi. rewrite Hchain in Hndi.
  assert (Hpc : e_addr p ≠ e_addr c).
  { pose proof Hndi as Hnd'.
    rewrite fmap_app, fmap_cons, fmap_app, fmap_cons in Hnd'.
    apply NoDup_app in Hnd' as (_ & _ & Hnd').
    apply NoDup_cons in Hnd' as [Hnd' _]. intros Hpc. apply Hnd'.
    rewrite Hpc. set_solver. }
  assert (HcQ : ∀ j, first_at j Q ≠ Some (e_addr c)).
  { intros j Hf%first_at_elem. pose proof Hndi as Hnd'.
    rewrite fmap_app, fmap_cons, fmap_app, fmap_cons in Hnd'.
    apply NoDup_app in Hnd' as (_ & _ & Hnd').
    apply NoDup_cons in Hnd' as [_ Hnd'].
    apply NoDup_app in Hnd' as (_ & _ & Hnd').
    apply NoDup_cons in Hnd' as [Hnd' _]. by apply Hnd'. }
  assert (Hlc : h !! e_addr c = Some (node_of (unlinking c i) Q)).
  { apply (Hrep (P1 ++ p :: P2) (unlinking c i) Q). by rewrite <- app_assoc. }
  assert (Hlp : h !! e_addr p
                = Some (node_of p (P2 ++ unlinking c i :: Q))).
  { by apply (Hrep P1 p). }
  exists (e_addr p). eexists. split; [by apply Hupd|]. split.
  { erewrite rep_load_regular; [|exact Hrep|done|done|done]. done. }
  rewrite first_at_skip by done. cbn [first_at].
  destruct (decide (i ≤ e_lvl c)) as [Hic|Hic].
  - left. replace (vis (unlinking c i) i) with true.
    2:{ symmetry. apply vis_true. simpl. lia. }
    split; [done|]. exists (first_at i Q). eexists. split_and!.
    + unfold load_forward, deref. rewrite Hlc. cbn [mbind res_bind].
      unfold at_index. cbn [node_of forward_].
      rewrite fwd_of_lookup by (simpl; lia). simpl.
      by rewrite bool_decide_eq_true_2 by lia.
    + apply store_forward_spec; [exact Hlp|].
      simpl. rewrite fwd_of_length. lia.
    + rewrite Hchain.
      eapply (rep_relink h _ P1 p P2 (unlinking c i) (unlinking c (i + 1)) Q i);
        [exact Hrep|exact Hndi|exact Hvis|exact Hpl|exact HP2|reflexivity
        | | | |].
      * intros j Hj. unfold vis. simpl. f_equal. apply bool_decide_ext. lia.
      * cbn [unlinking with_span e_addr].
        rewrite lookup_insert_ne by done. exact Hlc.
      * cbn [unlinking with_span e_addr]. rewrite lookup_insert_eq.
        replace (first_at i (unlinking c (i + 1) :: Q)) with (first_at i Q);
          [done|].
        cbn [first_at]. replace (vis (unlinking c (i + 1)) i) with false;
          [done|]. symmetry. apply vis_false. simpl. lia.
      * intros b _ Hb. by rewrite lookup_insert_ne by done.
    + rewrite dom_insert_lookup_L; [done|eauto].
  - right. replace (vis (unlinking c i) i) with false.
    2:{ symmetry. apply vis_false. simpl. lia. }
    split; [apply HcQ|]. unfold unlinking. f_equal. lia.
Qed.

Hypothesis Hw : wrap_ok wrap (skip_list_level_ s).

Lemma unlink_loop_spec : ∀ n i h fuel,
  n = skip_list_level_ s + 1 - i → i ≤ skip_list_level_ s + 1 → n < fuel →
  rep h (hd :: Llt ++ unlinking c i :: Q) →
  ∃ h', unlink_loop wrap fuel i (skip_list_level_ s) (e_addr c) update h
        = Ok h'
        ∧ rep h' (hd :: Llt ++ unlinking c (skip_list_level_ s + 1) :: Q)
        ∧ dom h' = dom h.
Proof.
  induction n as [|n IH]; intros i h fuel Hn Hi Hfuel Hrep;
    (destruct fuel as [|fuel]; [lia|]); cbn [unlink_loop].
  - rewrite bool_decide_eq_false_2 by lia.
    assert (i = skip_list_level_ s + 1) as -> by lia. by exists h.
  - rewrite bool_decide_eq_true_2 by lia.
    destruct (unlink_step i h) as (p & nxt & Hu & Hload & Hcase);
      [lia|done|].
    unfold at_index. rewrite Hu. cbn [mbind res_bind nonnull].
    rewrite Hload. cbn [mbind res_bind]. rewrite Hw by lia.
    destruct Hcase as [(-> & x & h2 & Hlc & Hst & Hrep' & Hdom)
                      |[Hne Hsame]].
    + rewrite bool_decide_eq_true_2 by done.
      rewrite Hlc. cbn [mbind res_bind]. rewrite Hst. cbn [mbind res_bind].
      destruct (IH (i + 1) h2 fuel) as (h' & Hrun & Hrep'' & Hdom');
        [lia|lia|lia|done|].
      exists h'. split_and!; [done|done|congruence].
    + rewrite bool_decide_eq_false_2 by done.
      apply IH; [lia|lia|lia|]. by rewrite Hsame.
Qed.
End removing.

Lemma remove_body_present s hd Llt c Q key :
  Inv wrap s hd (Llt ++ c :: Q) →
  Forall (λ e, (e_key e < key)%Z) Llt → e_key c = key →
  let new_top := shrink_top (Llt ++ unlinking c (skip_list_level_ s + 1) :: Q)
             (skip_list_level_ s) in
  ∃ h,
    remove_body wrap key s
    = Ok (true, mkSkipList (max_level_ s) new_top (header_ s)
                  (element_count_ s - 1) (mutex_ s) (gen_ s) h)
    ∧ Inv wrap (mkSkipList (max_level_ s) new_top (header_ s)
             (element_count_ s - 1) (mutex_ s) (gen_ s) h) hd (Llt ++ Q).
Proof.
  intros HInv Hlt Hc new_top.
  assert (Hge : Forall (λ e, ¬ (e_key e < key)%Z) (c :: Q)).
  { destruct HInv. rewrite fmap_app in inv_sorted0.
    apply StronglySorted_app_1_r in inv_sorted0.
    constructor; [lia|].
    eapply Forall_impl; [apply (sorted_tail_gt c Q key); [done|lia]|].
    intros e He. simpl in He. lia. }
  destruct (find_predecessors_spec s hd Llt (c :: Q) key HInv Hlt Hge)
    as (update & Hfind & Hlen & Hlow & _).
  pose proof (get_node_spec s hd Llt (c :: Q) key HInv Hlt Hge) as Hget.
  unfold hit_entry in Hget. rewrite bool_decide_eq_true_2 in Hget by done.
  pose proof HInv as [Hrep Hnd Hdom Hreg Hha Hhl Hsort Hlev Htop Hcnt Hwt].
  pose proof (c_regular s hd Llt c Q key HInv Hlt Hc update Hlow) as Hcreg.
  destruct (unlink_loop_spec s hd Llt c Q key HInv Hlt Hc update Hlow Hwt
              (skip_list_level_ s + 1) 0 (store_ s) (S (S (max_level_ s))))
    as (h' & Hrun & Hrep' & Hdom'); [lia|lia|lia| |].
  { by rewrite (unlinking_0 s hd Llt c Q key HInv Hlt Hc update Hlow). }
  set (c' := unlinking c (skip_list_level_ s + 1)) in *.
  assert (Hhdreg : regular hd) by (by apply Forall_cons in Hreg as [? _]).
  pose proof (adjust_max_level_spec h' hd (Llt ++ c' :: Q)
                (skip_list_level_ s) Hrep' Hhdreg ltac:(lia)) as Hadj.
  destruct (shrink_top_spec (Llt ++ c' :: Q) (skip_list_level_ s))
    as [Htop' Hnone].
  fold new_top in Hadj, Htop', Hnone.
  assert (Hc'h : hidden c').
  { intros j. apply vis_false. simpl.
    apply Forall_app in Hlev as [_ Hl]. apply Forall_cons in Hl as [Hl _].
    simpl in Hl. lia. }
  assert (Hlc : h' !! e_addr c = Some (node_of c' Q)).
  { apply (Hrep' (hd :: Llt) c' Q). done. }
  exists (delete (e_addr c) h'). split.
  - unfold remove_body. rewrite Hfind. cbn [mbind res_bind].
    rewrite Hget. cbn [mbind res_bind fmap option_fmap option_map].
    rewrite Hrun. cbn [mbind res_bind]. rewrite <- Hha, Hadj.
    cbn [mbind res_bind]. unfold deref. rewrite Hlc. done.
  - assert (Hnd' : NoDup (e_addr <$> (hd :: Llt ++ c' :: Q)))
      by apply (NoDup_unlinking s hd Llt c Q HInv).
    constructor; simpl_fields; try done.
    + apply (rep_delete_hidden h' (hd :: Llt) c' Q); done.
    + rewrite fmap_cons, fmap_app in Hnd |- *. rewrite fmap_cons in Hnd.
      rewrite app_comm_cons in Hnd |- *.
      apply NoDup_app in Hnd as (H1 & H12 & H2).
      apply NoDup_cons in H2 as [_ H2].
      apply NoDup_app. split_and!; [done| |done].
      intros x Hx. specialize (H12 x Hx). set_solver.
    + rewrite dom_delete_L, Hdom', Hdom.
      rewrite fmap_cons, fmap_app, fmap_cons in Hnd.
      rewrite !fmap_cons, !fmap_app, !fmap_cons.
      rewrite app_comm_cons in Hnd.
      apply NoDup_app in Hnd as (H1 & H12 & H2).
      apply NoDup_cons in H2 as [Hc2 H2].
      assert (e_addr c ∉ e_addr hd :: (e_addr <$> Llt)).
      { intros Hin. apply (H12 _ Hin). set_solver. }
      set_solver.
    + apply Forall_cons in Hreg as [Hh Hr].
      apply Forall_app in Hr as [Hr1 Hr2].
      apply Forall_cons in Hr2 as [_ Hr2].
      constructor; [done|]. by apply Forall_app.
    + rewrite fmap_app in Hsort |- *. rewrite fmap_cons in Hsort.
      apply StronglySorted_app in Hsort as (Hcross & Hs1 & Hs2).
      apply StronglySorted_cons in Hs2 as [_ Hs2].
      apply StronglySorted_app. split_and!; [|done|done].
      intros x1 x2 Hx1 Hx2. apply Hcross; [done|set_solver].
    + assert (Hall : Forall (λ e, e_lvl e ≤ skip_list_level_ s ∧ regular e
                                  ∧ e ∈ Llt ++ c' :: Q) (Llt ++ Q)).
      { rewrite Forall_forall in Hlev, Hreg |- *. intros e He.
        split_and!; [apply Hlev|apply Hreg|]; set_solver. }
      eapply Forall_impl; [exact Hall|]. intros e (Hle & Hre & Hin).
      simpl. destruct (decide (e_lvl e ≤ new_top)) as [|Hgt]; [done|exfalso].
      specialize (Hnone (e_lvl e) ltac:(lia) Hle).
      apply first_at_None in Hnone. rewrite Forall_forall in Hnone.
      specialize (Hnone e Hin). simpl in Hnone.
      rewrite regular_vis in Hnone by done. done.
    + lia.
    + rewrite Hcnt, !length_app. simpl. lia.
    + by apply (wrap_ok_mono (skip_list_level_ s)).
Qed.

Lemma remove_body_absent s hd Llt Lge key :
  Inv wrap s hd (Llt ++ Lge) →
  Forall (λ e, (e_key e < key)%Z) Llt →
  Forall (λ e, ¬ (e_key e < key)%Z) Lge →
  match Lge with q :: _ => e_key q ≠ key | [] => True end →
  remove_body wrap key s = Ok (false, s).
Proof.
  intros HInv Hlt Hge Habs.
  destruct (find_predecessors_spec s hd Llt Lge key HInv Hlt Hge)
    as (update & Hfind & _).
  pose proof (get_node_spec s hd Llt Lge key HInv Hlt Hge) as Hget.
  assert (Hhit : hit_entry Lge key = None).
  { unfold hit_entry. destruct Lge; [done|].
    by rewrite bool_decide_eq_false_2. }
  rewrite Hhit in Hget.
  unfold remove_body. rewrite Hfind. cbn [mbind res_bind].
  rewrite Hget. done.
Qed.

(** *** The operations on a state that satisfies the invariant *)

Lemma hit_cases L key :
  StronglySorted Z.lt (e_key <$> L) →
  ∃ Llt Lge, L = Llt ++ Lge
    ∧ Forall (λ e, (e_key e < key)%Z) Llt
    ∧ Forall (λ e, ¬ (e_key e < key)%Z) Lge
    ∧ ((∃ q Q, Lge = q :: Q ∧ e_key q = key ∧ assoc key L = Some (e_val q))
       ∨ (match Lge with q :: _ => e_key q ≠ key | [] => True end
          ∧ assoc key L = None)).
Proof.
  intros Hs. destruct (sorted_split L key Hs) as (Llt & Lge & -> & Hlt & Hge).
  exists Llt, Lge. split_and!; [done..|].
  rewrite assoc_app_lt by done.
  destruct Lge as [|q Q].
  - right. done.
  - destruct (decide (e_key q = key)) as [Hq|Hq].
    + left. exists q, Q. split_and!; [done|done|].
      simpl. by rewrite bool_decide_eq_true_2.
    + right. split; [done|]. apply assoc_absent.
      rewrite fmap_app in Hs. apply StronglySorted_app_1_r in Hs.
      eapply Forall_impl; [by apply (absent_above key (q :: Q))|].
      intros e He. simpl in He. lia.
Qed.

Lemma put_body_spec s hd L key value :
  Inv wrap s hd L →
  (assoc key L = None → wrap_ok wrap (get_random_level draw s).1) →
  ∃ r s' L',
    put_body draw wrap true key value s = Ok (Returned r s')
    ∧ Inv wrap s' hd L'
    ∧ (∀ k, assoc k L'
            = if bool_decide (k = key) then Some value else assoc k L)
    ∧ max_level_ s' = max_level_ s ∧ header_ s' = header_ s
    ∧ mutex_ s' = mutex_ s
    ∧ r = match assoc key L with Some _ => 1 | None => 0 end.
Proof.
  intros HInv Hw.
  destruct (hit_cases L key) as (Llt & Lge & -> & Hlt & Hge & Hcase);
    [by destruct HInv|].
  destruct Hcase as [(q & Q & -> & Hq & Hassoc)|[Habs Hassoc]].
  - destruct (put_body_present s hd Llt (q :: Q) key value HInv Hlt Hge
                true q Q eq_refl Hq) as [Hrun HInv'].
    eexists _, _, _. split; [exact Hrun|]. split; [exact HInv'|].
    split_and!; simpl_fields; [|done|done|done|by rewrite Hassoc].
    intros k.
    rewrite (assoc_update k key Llt q (with_val q value) Q);
      [done| |done|done].
    by apply (Llt_not_key Llt key).
  - destruct (get_random_level draw s) as [lvl g] eqn:Hlvl.
    destruct (put_body_absent s hd Llt Lge key value HInv Hlt Hge lvl g
                Habs Hlvl (Hw Hassoc)) as [(h & Hrun & HInv') _].
    eexists _, _, _. split; [exact Hrun|]. split; [exact HInv'|].
    split_and!; simpl_fields; [|done|done|done|by rewrite Hassoc].
    intros k. rewrite (assoc_insert k key); [done| |done].
    by apply (Llt_not_key Llt key).
Qed.

(** Without the assumption on the counters: [put] returns as above, or
    raising the top level fails and so does [put]. *)
Lemma put_body_cases s hd L key value f :
  Inv wrap s hd L →
  wrap_ok wrap (get_random_level draw s).1
  ∨ ¬ wrap_ok wrap (get_random_level draw s).1 →
  (¬ wrap_ok wrap (get_random_level draw s).1 →
   ∀ update, length update = max_level_ s + 1 →
     adjust_max_level_for_insertion wrap s (get_random_level draw s).1 update
     = Err f) →
  (∃ r s' L',
      put_body draw wrap true key value s = Ok (Returned r s')
      ∧ Inv wrap s' hd L'
      ∧ (∀ k, assoc k L'
              = if bool_decide (k = key) then Some value else assoc k L)
      ∧ max_level_ s' = max_level_ s ∧ header_ s' = header_ s
      ∧ mutex_ s' = mutex_ s)
  ∨ (put_body draw wrap true key value s = Err f
     ∧ ¬ wrap_ok wrap (get_random_level draw s).1).
Proof.
  intros HInv Hdec Hfail.
  assert (Hcases : (assoc key L = None → wrap_ok wrap (get_random_level draw s).1)
                   ∨ (assoc key L = None
                      ∧ ¬ wrap_ok wrap (get_random_level draw s).1)).
  { destruct Hdec as [?|?]; [by left|].
    destruct (assoc key L); [left; congruence|by right]. }
  destruct Hcases as [Hw|[Hassoc Hnw]].
  - left. destruct (put_body_spec s hd L key value HInv Hw)
      as (r & s' & L' & ? & ? & ? & ? & ? & ? & _).
    by exists r, s', L'.
  - right. split; [|done].
    destruct (hit_cases L key) as (Llt & Lge & -> & Hlt & Hge & Hcase);
      [by destruct HInv|].
    destruct Hcase as [(q & Q & _ & _ & Hsome)|[Habs _]]; [congruence|].
    destruct (get_random_level draw s) as [lvl g] eqn:Hlvl.
    apply (put_body_absent_stuck s hd Llt Lge key value HInv Hlt Hge
             true lvl g f Habs Hlvl).
    by apply Hfail.
Qed.

(** [put] when [new] finds no memory: an update needs none; an insertion
    leaves by [bad_alloc] after the top level was raised and the generator
    advanced, with the store and the count as they were. *)
Lemma put_body_no_memory s hd L key value f :
  Inv wrap s hd L →
  wrap_ok wrap (get_random_level draw s).1
  ∨ ¬ wrap_ok wrap (get_random_level draw s).1 →
  (¬ wrap_ok wrap (get_random_level draw s).1 →
   ∀ update, length update = max_level_ s + 1 →
     adjust_max_level_for_insertion wrap s (get_random_level draw s).1 update
     = Err f) →
  (∃ v s', assoc key L = Some v
           ∧ put_body draw wrap false key value s = Ok (Returned 1 s'))
  ∨ (assoc key L = None
     ∧ put_body draw wrap false key value s
       = Ok (Threw bad_alloc
               (mkSkipList (max_level_ s)
                  (skip_list_level_ s `max` (get_random_level draw s).1)
                  (header_ s) (element_count_ s) (mutex_ s)
                  (get_random_level draw s).2 (store_ s)))
     ∧ wrap_ok wrap (get_random_level draw s).1)
  ∨ (assoc key L = None
     ∧ put_body draw wrap false key value s = Err f
     ∧ ¬ wrap_ok wrap (get_random_level draw s).1).
Proof.
  intros HInv Hdec Hfail.
  destruct (hit_cases L key) as (Llt & Lge & -> & Hlt & Hge & Hcase);
    [by destruct HInv|].
  destruct Hcase as [(q & Q & -> & Hq & Hassoc)|[Habs Hassoc]].
  - left. destruct (put_body_present s hd Llt (q :: Q) key value HInv Hlt Hge
                      false q Q eq_refl Hq) as [Hrun _].
    by eexists _, _.
  - right. destruct (get_random_level draw s) as [lvl g] eqn:Hlvl.
    cbn [fst snd] in *. destruct Hdec as [Hw|Hnw].
    + left. split; [done|]. split; [|done].
      by destruct (put_body_absent s hd Llt Lge key value HInv Hlt Hge lvl g
                     Habs Hlvl Hw) as [_ Hrun].
    + right. split; [done|]. split; [|done].
      apply (put_body_absent_stuck s hd Llt Lge key value HInv Hlt Hge
               false lvl g f Habs Hlvl).
      by apply Hfail.
Qed.

(** Raising the top level keeps the invariant. *)
Lemma Inv_raise_top s hd L lvl (g : G) :
  Inv wrap s hd L → lvl ≤ max_level_ s → wrap_ok wrap lvl →
  Inv wrap (mkSkipList (max_level_ s) (skip_list_level_ s `max` lvl) (header_ s)
         (element_count_ s) (mutex_ s) g (store_ s)) hd L.
Proof.
  intros [] Hlvl Hw. constructor; simpl_fields; try done.
  - eapply Forall_impl; [exact inv_levels0|]. intros e He. simpl in He. lia.
  - lia.
  - intros i Hi. destruct (decide (i ≤ lvl)); [by apply Hw|].
    apply inv_wrap0. lia.
Qed.

Lemma remove_body_spec s hd L key :
  Inv wrap s hd L →
  ∃ b s' L',
    remove_body wrap key s = Ok (b, s')
    ∧ Inv wrap s' hd L'
    ∧ (∀ k, assoc k L' = if bool_decide (k = key) then None else assoc k L)
    ∧ max_level_ s' = max_level_ s ∧ header_ s' = header_ s
    ∧ mutex_ s' = mutex_ s ∧ gen_ s' = gen_ s
    ∧ b = match assoc key L with Some _ => true | None => false end.
Proof.
  intros HInv.
  destruct (hit_cases L key) as (Llt & Lge & -> & Hlt & Hge & Hcase);
    [by destruct HInv|].
  destruct Hcase as [(q & Q & -> & Hq & Hassoc)|[Habs Hassoc]].
  - destruct (remove_body_present s hd Llt q Q key HInv Hlt Hq)
      as (h & Hrun & HInv').
    eexists _, _, _. split; [exact Hrun|]. split; [exact HInv'|].
    split_and!; simpl_fields; [|done|done|done|done|by rewrite Hassoc].
    intros k. apply assoc_delete; [|done].
    apply Forall_app. split; [by apply (Llt_not_key Llt key)|].
    destruct HInv. rewrite fmap_app in inv_sorted0.
    apply StronglySorted_app_1_r in inv_sorted0.
    eapply Forall_impl; [apply (sorted_tail_gt q Q key); [done|lia]|].
    intros e He. simpl in He. lia.
  - exists false, s, (Llt ++ Lge).
    split; [by apply (remove_body_absent s hd Llt Lge key)|]. split; [done|].
    split_and!; [|done|done|done|done|by rewrite Hassoc].
    intros k. case_bool_decide as Hk; [by subst k|done].
Qed.

(** *** The level-0 chain, read from the store *)

Lemma chain_from_spec h : ∀ L A fuel,
  rep h (A ++ L) → Forall regular L → length L ≤ fuel →
  chain_from fuel h (first_at 0 L)
  = Ok ((λ e, (e_key e, e_val e)) <$> L).
Proof.
  induction L as [|e L IH]; intros A fuel Hrep Hreg Hfuel.
  - by destruct fuel.
  - apply Forall_cons in Hreg as [He Hreg].
    cbn [first_at]. rewrite regular_vis by (done || lia).
    destruct fuel as [|fuel]; [simpl in Hfuel; lia|].
    cbn [chain_from]. unfold deref.
    rewrite (Hrep A e L eq_refl). cbn [mbind res_bind].
    unfold at_index. cbn [node_of forward_].
    rewrite fwd_of_lookup by lia. cbn [mbind res_bind].
    rewrite bool_decide_eq_true_2 by (destruct He; lia).
    rewrite (IH (A ++ [e])); [done| |done|simpl in Hfuel; lia].
    by rewrite <- app_assoc.
Qed.

Lemma level0_chain_spec s hd L :
  Inv wrap s hd L →
  level0_chain s = Ok ((λ e, (e_key e, e_val e)) <$> L).
Proof.
  intros HInv. pose proof (Inv_size s hd L HInv) as Hsz. destruct HInv.
  unfold level0_chain. rewrite <- inv_hd_addr0.
  apply Forall_cons in inv_regular0 as [Hh Hr].
  rewrite (rep_load_regular (store_ s) (hd :: L) [] hd L) by (done || lia).
  cbn [mbind res_bind].
  apply (chain_from_spec (store_ s) L [hd]); [done|done|].
  simpl in Hsz. lia.
Qed.
End invariant.

(** ** Verification: the mutex *)

Section locking.
Context {V G : Type}.
Variable draw : G → bool * G.
Variable wrap : nat → nat.

(** The bodies of [put] and [remove] leave the mutex as it is. *)
Lemma put_body_mutex (mem : bool) (key : Z) (value : V) (s : skip_list V G)
    (c : completion (skip_list V G) nat) :
  put_body draw wrap mem key value s = Ok c →
  mutex_ (state_of c) = mutex_ s.
Proof.
  unfold put_body. intros H.
  destruct (find_predecessors s key) as [[cur update]|];
    cbn [mbind res_bind] in H; [|done].
  destruct (get_node_at_level_zero (store_ s) cur key) as [[c0|]|];
    cbn [mbind res_bind] in H; [| |done].
  - destruct (deref (store_ s) c0); cbn [mbind res_bind] in H; [|done].
    by injection H as <-.
  - destruct (get_random_level draw s) as [lvl g].
    destruct (adjust_max_level_for_insertion wrap s lvl update)
      as [[upd new_top]|]; cbn [mbind res_bind] in H; [|done].
    destruct mem.
    + destruct (alloc (store_ s) (new_Node key value lvl)) as [nn h].
      destruct (splice_loop wrap (S (S (max_level_ s))) 0 lvl nn upd h);
        cbn [mbind res_bind] in H; [|done].
      by injection H as <-.
    + by injection H as <-.
Qed.

Lemma remove_body_mutex (key : Z) (s s' : skip_list V G) (b : bool) :
  remove_body wrap key s = Ok (b, s') → mutex_ s' = mutex_ s.
Proof.
  unfold remove_body. intros H.
  destruct (find_predecessors s key) as [[cur update]|];
    cbn [mbind res_bind] in H; [|done].
  destruct (get_node_at_level_zero (store_ s) cur key) as [[c0|]|];
    cbn [mbind res_bind] in H; [| |done].
  - destruct (unlink_loop wrap (S (S (max_level_ s))) 0 (skip_list_level_ s)
                c0 update (store_ s)) as [h|];
      cbn [mbind res_bind] in H; [|done].
    destruct (adjust_max_level h (header_ s) (skip_list_level_ s));
      cbn [mbind res_bind] in H; [|done].
    destruct (deref h c0); cbn [mbind res_bind] in H; [|done].
    by injection H as _ <-.
  - by injection H as _ <-.
Qed.
End locking.

(** ** Verification: a new list *)

Section new_list.
Context {V G : Type}.
Variable wrap : nat → nat.

(** What the three constructors build: the header alone. *)
Lemma Inv_new (k0 : Z) (v0 : V) (max_level : nat) (g : G) :
  wrap_ok wrap 0 →
  Inv wrap
    (mkSkipList max_level 0 (fresh (∅ : gset addr)) 0 false g
       (<[fresh (∅ : gset addr) := new_Node k0 v0 max_level]> ∅))
    (mkEntry (fresh (∅ : gset addr)) k0 v0 max_level 0 (max_level + 1)) [].
Proof.
  intros Hw. constructor; simpl_fields; cbn [e_addr e_lvl length].
  - intros l1 e l2 Heq. destruct l1 as [|? [|]]; simplify_eq/=.
    rewrite lookup_insert_eq. f_equal. unfold node_of, new_Node. simpl.
    f_equal. apply list_eq. intros j. unfold fwd_of. simpl.
    rewrite list_lookup_fmap.
    destruct (decide (j < max_level + 1)) as [Hj|Hj].
    + rewrite lookup_seq_lt, lookup_replicate_2 by done. simpl.
      by case_bool_decide.
    + rewrite lookup_seq_ge by lia. simpl.
      apply lookup_replicate_None. lia.
  - rewrite fmap_cons. apply NoDup_singleton.
  - rewrite dom_insert_L, dom_empty_L. rewrite fmap_cons. simpl. set_solver.
  - repeat constructor.
  - done.
  - done.
  - constructor.
  - constructor.
  - lia.
  - done.
  - done.
Qed.
End new_list.

(** ** Verification: teardown *)

Section teardown.
Context {V G : Type}.
Implicit Types (h : gmap addr (Node V)) (s : skip_list V G)
  (e hd : entry V) (L : list (entry V)).

Lemma lookup_delete_all l h a :
  a ∉ l → delete_all l h !! a = h !! a.
Proof.
  induction l as [|b l IH]; intros Ha; simpl; [done|].
  apply not_elem_of_cons in Ha as [Hne Ha].
  rewrite lookup_delete_ne by done. by apply IH.
Qed.

Lemma dom_delete_all l h :
  dom (delete_all l h) = dom h ∖ list_to_set l.
Proof.
  induction l as [|b l IH]; simpl; [set_solver|].
  rewrite dom_delete_L, IH. set_solver.
Qed.

Lemma nodes_from_spec h : ∀ L A fuel,
  rep h (A ++ L) → Forall regular L → length L ≤ fuel →
  nodes_from fuel h (first_at 0 L) = Ok (e_addr <$> L).
Proof.
  induction L as [|e L IH]; intros A fuel Hrep Hreg Hfuel.
  - by destruct fuel.
  - apply Forall_cons in Hreg as [He Hreg].
    cbn [first_at]. rewrite regular_vis by (done || lia).
    destruct fuel as [|fuel]; [simpl in Hfuel; lia|].
    cbn [nodes_from].
    rewrite (rep_load_regular h (A ++ e :: L) A e L) by (done || lia).
    cbn [mbind res_bind].
    rewrite (IH (A ++ [e])); [done| |done|simpl in Hfuel; lia].
    by rewrite <- app_assoc.
Qed.

Lemma level0_nodes_spec wrap s hd L :
  Inv wrap s hd L → level0_nodes s = Ok (e_addr <$> L).
Proof.
  intros HInv. pose proof (Inv_size wrap s hd L HInv) as Hsz. destruct HInv.
  unfold level0_nodes. rewrite <- inv_hd_addr0.
  apply Forall_cons in inv_regular0 as [Hh Hr].
  rewrite (rep_load_regular (store_ s) (hd :: L) [] hd L) by (done || lia).
  cbn [mbind res_bind].
  apply (nodes_from_spec (store_ s) L [hd]); [done|done|].
  simpl in Hsz. lia.
Qed.

(** [clear(node)] releases the rest of the chain before [node] itself, and
    holds one stack frame for every node from [node] to the end. *)
Lemma clear_spec h : ∀ L A e fuel,
  rep h (A ++ e :: L) → Forall regular (e :: L) →
  NoDup (e_addr <$> (e :: L)) → length L < fuel →
  clear fuel h (e_addr e)
  = Ok (delete_all (e_addr <$> (e :: L)) h,
        reverse (e_addr <$> (e :: L)), S (length L)).
Proof.
  induction L as [|e' L IH]; intros A e fuel Hrep Hreg Hnd Hfuel;
    (destruct fuel as [|fuel]; [simpl in Hfuel; lia|]); cbn [clear].
  - apply Forall_cons in Hreg as [He _].
    rewrite (rep_load_regular h (A ++ [e]) A e []) by (done || lia). done.
  - apply Forall_cons in Hreg as [He Hreg].
    rewrite (rep_load_regular h (A ++ e :: e' :: L) A e (e' :: L))
      by (done || lia).
    cbn [first_at mbind res_bind].
    pose proof Hreg as [He' _]%Forall_cons.
    rewrite regular_vis by (done || lia).
    rewrite fmap_cons in Hnd. apply NoDup_cons in Hnd as [Hne Hnd].
    rewrite (IH (A ++ [e]) e' fuel); [| |done|done|simpl in Hfuel; lia].
    2:{ by rewrite <- app_assoc. }
    cbn [mbind res_bind]. unfold deref.
    rewrite lookup_delete_all by done.
    rewrite (Hrep A e (e' :: L) eq_refl). cbn [mbind res_bind].
    rewrite (fmap_cons e_addr e), reverse_cons. done.
Qed.

Lemma destroy_spec wrap s hd L :
  Inv wrap s hd L →
  destroy s = Ok (∅, reverse (e_addr <$> L) ++ [header_ s], length L).
Proof.
  intros HInv. pose proof (Inv_size wrap s hd L HInv) as Hsz.
  pose proof HInv as [Hrep Hnd Hdom Hreg Hha Hhl _ _ _ _ _].
  unfold destroy. rewrite <- Hha.
  pose proof Hreg as [Hh Hr]%Forall_cons.
  rewrite (rep_load_regular (store_ s) (hd :: L) [] hd L) by (done || lia).
  cbn [mbind res_bind].
  rewrite fmap_cons in Hnd, Hdom. apply NoDup_cons in Hnd as [Hne Hnd].
  destruct L as [|e L]; cbn [first_at].
  - f_equal. f_equal. f_equal. apply map_eq. intros a.
    rewrite lookup_empty. apply not_elem_of_dom.
    rewrite dom_delete_L, Hdom. set_solver.
  - pose proof Hr as [He _]%Forall_cons.
    rewrite regular_vis by (done || lia).
    rewrite (clear_spec (store_ s) L [hd] e); [|done|done|done|].
    2:{ simpl in Hsz. lia. }
    cbn [mbind res_bind]. unfold deref.
    rewrite lookup_delete_all by done.
    rewrite (Hrep [] hd (e :: L) eq_refl). cbn [mbind res_bind].
    f_equal. f_equal. f_equal. apply map_eq. intros a.
    rewrite lookup_empty. apply not_elem_of_dom.
    rewrite dom_delete_L, dom_delete_all, Hdom. set_solver.
Qed.
End teardown.

(** ** Verification: [XSFSkipList] under sequences of operations *)

Section xsf_runs.
Context {V G : Type}.
Variable mt19937 : Z → G.
Variable bernoulli : G → bool * G.

Implicit Types (s : skip_list V G) (L : list (entry V)).

Lemma wrap_ok_uint8 n : n < 255 → wrap_ok XSF.to_uint8 n.
Proof.
  intros Hn i Hi. unfold XSF.to_uint8. apply Nat.mod_small. lia.
Qed.

Lemma Inv_set_mutex wrap b s hd L :
  Inv wrap s hd L →
  Inv wrap (mkSkipList (max_level_ s) (skip_list_level_ s) (header_ s)
              (element_count_ s) b (gen_ s) (store_ s)) hd L.
Proof. intros []. by constructor. Qed.

Lemma Inv_init (k0 : Z) (v0 : V) (max_level : nat) (seed : Z) :
  Inv XSF.to_uint8 (XSF.XSFSkipList mt19937 k0 v0 max_level seed)
    (mkEntry (fresh (∅ : gset addr)) k0 v0 (XSF.to_uint8 max_level) 0
       (XSF.to_uint8 max_level + 1)) [].
Proof.
  unfold XSF.XSFSkipList, alloc. rewrite dom_empty_L.
  apply Inv_new. apply wrap_ok_uint8. lia.
Qed.

Lemma xsf_wf_init (k0 : Z) (v0 : V) (max_level : nat) (seed : Z) :
  xsf_wf (XSF.XSFSkipList mt19937 k0 v0 max_level seed) [].
Proof.
  eexists. split_and!; [apply Inv_init|done|].
  unfold XSF.XSFSkipList, alloc. simpl_fields. unfold XSF.to_uint8.
  pose proof (Nat.mod_upper_bound max_level 256). lia.
Qed.

Lemma wrap_ok_uint8_inv n : wrap_ok XSF.to_uint8 n → n < 255.
Proof.
  intros H. specialize (H n (le_n n)). unfold XSF.to_uint8 in H.
  pose proof (Nat.mod_upper_bound (n + 1) 256). lia.
Qed.

(** With [new_node_level = 255] the test [i < new_node_level + 1] holds
    for every [uint8_t i]: the loop that raises the top level never ends. *)
Lemma raise_loop_255 fuel : ∀ i hdr update,
  i < 256 → length update = 256 →
  raise_loop XSF.to_uint8 fuel i 255 hdr update = Err Diverged.
Proof.
  induction fuel as [|fuel IH]; intros i hdr update Hi Hlen; [done|].
  cbn [raise_loop]. rewrite bool_decide_eq_true_2 by lia.
  unfold store_index. rewrite decide_True by lia. cbn [mbind res_bind].
  apply IH.
  - unfold XSF.to_uint8. apply Nat.mod_upper_bound. lia.
  - by rewrite length_insert.
Qed.

Lemma xsf_put_spec s L key value :
  xsf_wf s L → max_level_ s < 255 →
  ∃ s' L',
    XSF.put bernoulli true key value s = Ok (Returned () s')
    ∧ xsf_wf s' L'
    ∧ (∀ k, assoc k L' = if bool_decide (k = key) then Some value else assoc k L)
    ∧ max_level_ s' = max_level_ s ∧ header_ s' = header_ s.
Proof.
  intros (hd & HInv & Hm & Hle) Hmax.
  unfold XSF.put, mutex_lock. rewrite Hm. cbn [mbind res_bind].
  destruct (put_body_spec bernoulli XSF.to_uint8 _ hd L key value
              (Inv_set_mutex _ true s hd L HInv))
    as (r & s' & L' & Hrun & HInv' & Hassoc & Hml & Hhdr & _).
  { intros _. apply wrap_ok_uint8.
    pose proof (get_random_level_bound bernoulli
                  (mkSkipList (max_level_ s) (skip_list_level_ s) (header_ s)
                     (element_count_ s) true (gen_ s) (store_ s))) as Hb.
    cbn [max_level_] in Hb. lia. }
  rewrite Hrun. cbn [mbind res_bind].
  eexists _, L'. split; [done|]. split_and!; [|done|done|done].
  exists hd. split_and!; [by apply Inv_set_mutex|done|].
  cbn [mutex_unlock max_level_] in *. lia.
Qed.

(** Whatever [max_level_] is, [put] returns as above or never returns; the
    latter only with [max_level_ = 255] and a new node of level 255. *)
Lemma xsf_put_cases s L key value :
  xsf_wf s L →
  (∃ s' L',
    XSF.put bernoulli true key value s = Ok (Returned () s')
    ∧ xsf_wf s' L'
    ∧ (∀ k, assoc k L' = if bool_decide (k = key) then Some value else assoc k L)
    ∧ max_level_ s' = max_level_ s ∧ header_ s' = header_ s)
  ∨ (XSF.put bernoulli true key value s = Err Diverged ∧ max_level_ s = 255).
Proof.
  intros (hd & HInv & Hm & Hle).
  unfold XSF.put, mutex_lock. rewrite Hm. cbn [mbind res_bind].
  set (s1 := mkSkipList (max_level_ s) (skip_list_level_ s) (header_ s)
               (element_count_ s) true (gen_ s) (store_ s)).
  pose proof (get_random_level_bound bernoulli s1) as Hb.
  change (max_level_ s1) with (max_level_ s) in Hb.
  destruct (put_body_cases bernoulli XSF.to_uint8 s1 hd L key value Diverged
              (Inv_set_mutex _ true s hd L HInv))
    as [(r & s' & L' & Hrun & HInv' & Hassoc & Hml & Hhdr & Hmx)|[Hrun Hnw]].
  - destruct (decide ((get_random_level bernoulli s1).1 < 255)) as [Hl|Hl].
    + left. by apply wrap_ok_uint8.
    + right. intros Hw%wrap_ok_uint8_inv. lia.
  - intros Hnw update Hlen.
    assert (Hlvl : (get_random_level bernoulli s1).1 = 255).
    { destruct (decide ((get_random_level bernoulli s1).1 < 255)) as [Hl|Hl];
        [|lia]. destruct Hnw. by apply wrap_ok_uint8. }
    rewrite Hlvl. unfold adjust_max_level_for_insertion.
    change (skip_list_level_ s1) with (skip_list_level_ s).
    change (max_level_ s1) with (max_level_ s) in Hlen |- *.
    destruct HInv as [_ _ _ _ _ _ _ _ _ _ Hwt%wrap_ok_uint8_inv].
    rewrite bool_decide_eq_true_2 by lia.
    rewrite raise_loop_255; [done| |lia].
    unfold XSF.to_uint8. apply Nat.mod_upper_bound. lia.
  - left. rewrite Hrun. cbn [mbind res_bind].
    eexists _, L'. split; [done|]. split_and!; [|done|done|done].
    exists hd. split_and!; [by apply Inv_set_mutex|done|].
    change (max_level_ s1) with (max_level_ s) in Hml.
    cbn [mutex_unlock max_level_] in *. lia.
  - right. rewrite Hrun. split; [done|].
    destruct (decide ((get_random_level bernoulli s1).1 < 255)) as [Hl|Hl];
      [|lia]. destruct Hnw. by apply wrap_ok_uint8.
Qed.

Lemma xsf_remove_spec s L key :
  xsf_wf s L →
  ∃ s' L',
    XSF.remove key s = Ok s'
    ∧ xsf_wf s' L'
    ∧ (∀ k, assoc k L' = if bool_decide (k = key) then None else assoc k L)
    ∧ max_level_ s' = max_level_ s ∧ header_ s' = header_ s.
Proof.
  intros (hd & HInv & Hm & Hle).
  unfold XSF.remove, mutex_lock. rewrite Hm. cbn [mbind res_bind].
  destruct (remove_body_spec XSF.to_uint8 _ hd L key
              (Inv_set_mutex _ true s hd L HInv))
    as (b & s' & L' & Hrun & HInv' & Hassoc & Hml & Hhdr & _).
  rewrite Hrun. cbn [mbind res_bind].
  eexists _, L'. split; [done|]. split_and!; [|done|done|done].
  exists hd. split_and!; [by apply Inv_set_mutex|done|].
  cbn [mutex_unlock max_level_] in *. lia.
Qed.

Lemma xsf_get_spec s L key :
  xsf_wf s L → XSF.get key s = Ok (assoc key L).
Proof. intros (hd & HInv & _). by apply (get_body_spec XSF.to_uint8 s hd). Qed.

Lemma uint8_wrap_dec n :
  wrap_ok XSF.to_uint8 n ∨ ¬ wrap_ok XSF.to_uint8 n.
Proof.
  destruct (decide (n < 255)) as [Hn|Hn].
  - left. by apply wrap_ok_uint8.
  - right. intros Hw%wrap_ok_uint8_inv. lia.
Qed.

Lemma uint8_raise_fails s hd L :
  Inv XSF.to_uint8 s hd L → max_level_ s ≤ 255 →
  ¬ wrap_ok XSF.to_uint8 (get_random_level bernoulli s).1 →
  max_level_ s = 255
  ∧ ∀ update, length update = max_level_ s + 1 →
      adjust_max_level_for_insertion XSF.to_uint8 s
        (get_random_level bernoulli s).1 update = Err Diverged.
Proof.
  intros HInv Hle Hnw.
  pose proof (get_random_level_bound bernoulli s) as Hb.
  assert (Hlvl : (get_random_level bernoulli s).1 = 255).
  { destruct (decide ((get_random_level bernoulli s).1 < 255)) as [Hl|Hl];
      [|lia]. destruct Hnw. by apply wrap_ok_uint8. }
  split; [lia|]. intros update Hlen.
  rewrite Hlvl. unfold adjust_max_level_for_insertion.
  destruct HInv as [_ _ _ _ _ _ _ _ _ _ Hwt%wrap_ok_uint8_inv].
  rewrite bool_decide_eq_true_2 by lia.
  rewrite raise_loop_255; [done| |lia].
  unfold XSF.to_uint8. apply Nat.mod_upper_bound. lia.
Qed.

(** [put] when [new] fails, on a state between two calls. *)
Lemma xsf_put_no_memory s L key value :
  xsf_wf s L →
  (∃ v c, assoc key L = Some v
          ∧ XSF.put bernoulli false key value s = Ok c)
  ∨ (assoc key L = None
     ∧ XSF.put bernoulli false key value s
       = Ok (Threw bad_alloc
               (mkSkipList (max_level_ s)
                  (skip_list_level_ s `max` (get_random_level bernoulli s).1)
                  (header_ s) (element_count_ s) false
                  (get_random_level bernoulli s).2 (store_ s)))
     ∧ xsf_wf (mkSkipList (max_level_ s)
                 (skip_list_level_ s `max` (get_random_level bernoulli s).1)
                 (header_ s) (element_count_ s) false
                 (get_random_level bernoulli s).2 (store_ s)) L)
  ∨ (XSF.put bernoulli false key value s = Err Diverged
     ∧ max_level_ s = 255).
Proof.
  intros (hd & HInv & Hm & Hle).
  unfold XSF.put, mutex_lock. rewrite Hm. cbn [mbind res_bind].
  set (s1 := mkSkipList (max_level_ s) (skip_list_level_ s) (header_ s)
               (element_count_ s) true (gen_ s) (store_ s)).
  assert (HInv1 : Inv XSF.to_uint8 s1 hd L) by (by apply Inv_set_mutex).
  destruct (put_body_no_memory bernoulli XSF.to_uint8 s1 hd L key value
              Diverged HInv1 (uint8_wrap_dec _))
    as [(v & s' & Hv & Hrun)|[(Hnone & Hrun & Hw)|(Hnone & Hrun & Hnw)]].
  - intros Hnw. by apply (uint8_raise_fails s1 hd L).
  - left. rewrite Hrun. cbn [mbind res_bind]. by eexists _, _.
  - right; left. rewrite Hrun. cbn [mbind res_bind mutex_unlock].
    simpl_fields. split; [done|]. split; [done|].
    exists hd. split_and!; [|done|done].
    pose proof (Inv_raise_top XSF.to_uint8 s hd L _
                  (get_random_level bernoulli s).2 HInv
                  (get_random_level_bound bernoulli s1) Hw) as HInv'.
    by apply (Inv_set_mutex _ false) in HInv'.
  - right; right. rewrite Hrun. split; [done|].
    by apply (uint8_raise_fails s1 hd L).
Qed.

(** [put] on a state between two calls leaves a state between two calls,
    whether it returns or leaves by an exception. *)
Lemma xsf_put_keeps_wf s L mem key value c :
  xsf_wf s L → XSF.put bernoulli mem key value s = Ok c →
  ∃ L', xsf_wf (state_of c) L' ∧ max_level_ (state_of c) = max_level_ s.
Proof.
  intros Hwf Hrun. destruct mem.
  - destruct (xsf_put_cases s L key value Hwf)
      as [(s1 & L1 & Hrun1 & Hwf1 & _ & Hml1 & _)|[Hrun1 _]]; [|congruence].
    rewrite Hrun in Hrun1. injection Hrun1 as ->. by exists L1.
  - destruct (xsf_put_no_memory s L key value Hwf)
      as [(v & c1 & Hv & _)|[(_ & Hrun1 & Hwf1)|[Hrun1 _]]]; [| |congruence].
    + destruct Hwf as (hd & HInv & Hm & Hle).
      assert (Hsort : StronglySorted Z.lt (e_key <$> L)) by by destruct HInv.
      destruct (hit_cases L key Hsort)
        as (Llt & Lge & -> & Hlt & Hge & [(q & Q & -> & Hq & _)|[_ Hnone]]);
        [|congruence].
      revert Hrun. unfold XSF.put, mutex_lock. rewrite Hm.
      cbn [mbind res_bind].
      destruct (put_body_present bernoulli XSF.to_uint8 _ hd Llt (q :: Q) key
                  value (Inv_set_mutex _ true s hd _ HInv) Hlt Hge false q Q
                  eq_refl Hq) as [Hrun' HInv'].
      rewrite Hrun'. cbn [mbind res_bind]. intros [= <-]. cbn [state_of].
      exists (Llt ++ with_val q value :: Q). split; [|done].
      exists hd. split_and!; [|done|done].
      by apply (Inv_set_mutex _ false) in HInv'.
    + rewrite Hrun in Hrun1. injection Hrun1 as ->. by exists L.
Qed.

Lemma reachable_wf k0 v0 max_level seed s :
  reachable mt19937 bernoulli k0 v0 max_level seed s →
  ∃ L, xsf_wf s L ∧ max_level_ s = XSF.to_uint8 max_level.
Proof.
  induction 1 as [|s mem key value s' _ (L & Hwf & Hml) Hput
                  |s mem key value e s' _ (L & Hwf & Hml) Hput
                  |s key s' _ (L & Hwf & Hml) Hrem].
  - exists []. split; [apply xsf_wf_init|done].
  - destruct (xsf_put_keeps_wf s L mem key value _ Hwf Hput)
      as (L' & Hwf' & Hml'). exists L'. split; [done|].
    cbn [state_of] in Hml'. congruence.
  - destruct (xsf_put_keeps_wf s L mem key value _ Hwf Hput)
      as (L' & Hwf' & Hml'). exists L'. split; [done|].
    cbn [state_of] in Hml'. congruence.
  - destruct (xsf_remove_spec s L key Hwf)
      as (s1 & L1 & Hrun & Hwf1 & _ & Hml1 & _).
    exists L1. split; congruence.
Qed.

Lemma run_sound ops : ∀ s L (m : gmap Z V) s',
  xsf_wf s L → (∀ k, assoc k L = m !! k) →
  run bernoulli ops s = Ok (Returned () s') →
  ∃ L', xsf_wf s' L' ∧ ∀ k, assoc k L' = fold_left apply_op ops m !! k.
Proof.
  induction ops as [|[key value|key|key] ops IH]; intros s L m s' Hwf Hm;
    cbn [run fold_left apply_op].
  - intros [= <-]. by exists L.
  - destruct (xsf_put_cases s L key value Hwf)
      as [(s1 & L1 & -> & Hwf1 & Hassoc & _)|[-> _]]; [|done].
    cbn [mbind res_bind]. apply (IH s1 L1); [done|].
    intros k. rewrite Hassoc, Hm. case_bool_decide as Hk.
    + subst. by rewrite lookup_insert_eq.
    + by rewrite lookup_insert_ne.
  - rewrite (xsf_get_spec s L key Hwf). cbn [mbind res_bind]. by apply (IH s L).
  - destruct (xsf_remove_spec s L key Hwf)
      as (s1 & L1 & -> & Hwf1 & Hassoc & _).
    cbn [mbind res_bind]. apply (IH s1 L1); [done|].
    intros k. rewrite Hassoc, Hm. case_bool_decide as Hk.
    + subst. by rewrite lookup_delete_eq.
    + by rewrite lookup_delete_ne.
Qed.

Lemma run_spec ops : ∀ s L (m : gmap Z V),
  xsf_wf s L → max_level_ s < 255 → (∀ k, assoc k L = m !! k) →
  ∃ s' L',
    run bernoulli ops s = Ok (Returned () s')
    ∧ xsf_wf s' L' ∧ max_level_ s' = max_level_ s
    ∧ ∀ k, assoc k L' = fold_left apply_op ops m !! k.
Proof.
  induction ops as [|[key value|key|key] ops IH]; intros s L m Hwf Hmax Hm;
    cbn [run fold_left apply_op].
  - by exists s, L.
  - destruct (xsf_put_spec s L key value Hwf Hmax)
      as (s1 & L1 & -> & Hwf1 & Hassoc & Hml & _).
    cbn [mbind res_bind].
    destruct (IH s1 L1 (<[key:=value]> m)) as (s' & L' & Hrun & ? & ? & ?);
      [done|lia| |].
    { intros k. rewrite Hassoc, Hm. case_bool_decide as Hk.
      - subst. by rewrite lookup_insert_eq.
      - by rewrite lookup_insert_ne. }
    exists s', L'. split_and!; [done|done|lia|done].
  - rewrite (xsf_get_spec s L key Hwf). cbn [mbind res_bind]. by apply (IH s L).
  - destruct (xsf_remove_spec s L key Hwf)
      as (s1 & L1 & -> & Hwf1 & Hassoc & Hml & _).
    cbn [mbind res_bind].
    destruct (IH s1 L1 (delete key m)) as (s' & L' & Hrun & ? & ? & ?);
      [done|lia| |].
    { intros k. rewrite Hassoc, Hm. case_bool_decide as Hk.
      - subst. by rewrite lookup_delete_eq.
      - by rewrite lookup_delete_ne. }
    exists s', L'. split_and!; [done|done|lia|done].
Qed.

Lemma live_put_snoc (ops : list (op V)) (o : op V) key v :
  live_put (ops ++ [o]) key v
  ↔ o = Put key v
    ∨ (o ≠ Remove key ∧ (∀ v', o ≠ Put key v') ∧ live_put ops key v).
Proof.
  split.
  - intros (before & after & Heq & Hafter).
    destruct (decide (after = [])) as [->|Hne].
    + apply app_inj_tail in Heq as [_ ->]. by left.
    + destruct (exists_last Hne) as (after' & x & ->).
      rewrite app_comm_cons, app_assoc in Heq.
      apply app_inj_tail in Heq as [-> ->].
      apply Forall_app in Hafter as [Hafter' Hx].
      apply Forall_cons in Hx as [[Hx1 Hx2] _].
      right. split_and!; [done|done|]. by exists before, after'.
  - intros [->|(Hr & Hp & before & after & -> & Hafter)].
    + exists ops, []. split; [done|constructor].
    + exists before, (after ++ [o]). split.
      * by rewrite <- app_assoc.
      * apply Forall_app. split; [done|]. by repeat constructor.
Qed.

Lemma model_live_put (ops : list (op V)) key v :
  model ops !! key = Some v ↔ live_put ops key v.
Proof.
  revert v. induction ops as [|o ops IH] using rev_ind; intros v.
  - unfold model. simpl. rewrite lookup_empty. split; [done|].
    intros (before & after & Heq & _). by destruct before.
  - rewrite live_put_snoc. unfold model in *. rewrite fold_left_app. simpl.
    destruct o as [k v'|k|k]; simpl.
    + destruct (decide (k = key)) as [->|Hk].
      * rewrite lookup_insert_eq. split.
        -- intros [= ->]. by left.
        -- intros [[= ->]|(_ & Hp & _)]; [done|]. by destruct (Hp v').
      * rewrite lookup_insert_ne by done. rewrite IH. split.
        -- intros Hl. right. split_and!; [done| |done]. congruence.
        -- intros [[= -> ->]|(_ & _ & Hl)]; done.
    + rewrite IH. split.
      * intros Hl. by right.
      * intros [?|(_ & _ & Hl)]; done.
    + destruct (decide (k = key)) as [->|Hk].
      * rewrite lookup_delete_eq. split; [done|].
        intros [?|(Hr & _)]; done.
      * rewrite lookup_delete_ne by done. rewrite IH. split.
        -- intros Hl. right. split_and!; [congruence|done|done].
        -- intros [?|(_ & _ & Hl)]; done.
Qed.

Lemma run_reachable k0 v0 max_level seed ops : ∀ s s',
  reachable mt19937 bernoulli k0 v0 max_level seed s →
  run bernoulli ops s = Ok (Returned () s') →
  reachable mt19937 bernoulli k0 v0 max_level seed s'.
Proof.
  induction ops as [|[key value|key|key] ops IH]; intros s s' Hs; cbn [run].
  - by intros [= <-].
  - destruct (XSF.put bernoulli true key value s) as [[[] s1|e s1]|f] eqn:Hput;
      cbn [mbind res_bind]; [|done|done].
    apply IH. by eapply reach_put.
  - destruct (XSF.get key s); cbn [mbind res_bind]; [|done]. by apply IH.
  - destruct (XSF.remove key s) as [s1|f] eqn:Hrem; cbn [mbind res_bind];
      [|done].
    apply IH. by eapply reach_remove.
Qed.

Lemma sorted_NoDup (l : list Z) : StronglySorted Z.lt l → NoDup l.
Proof.
  induction 1 as [|x l _ IH Hall]; constructor; [|done].
  intros Hx. rewrite Forall_forall in Hall. specialize (Hall x Hx). lia.
Qed.

Lemma max_level_init (k0 : Z) (v0 : V) (max_level : nat) (seed : Z) :
  max_level_ (XSF.XSFSkipList mt19937 k0 v0 max_level seed)
  = XSF.to_uint8 max_level.
Proof. done. Qed.

(** C1. Take any finite sequence of [put], [get] and [remove] on a list
    built by the constructor.  Once the sequence has run, [get key]
    returns the value of the most recent [put key v] that no [remove key]
    follows, and [std::nullopt] when there is no such [put].  The sequence
    does run to its end whenever [max_level] is below 255 (at 255 a node of
    level 255 makes the [uint8_t] loop counters wrap). *)
Theorem xsf_get_after_ops (k0 : Z) (v0 : V) (max_level : nat) (seed : Z)
    (ops : list (op V)) (key : Z) :
  (max_level < 255 →
   ∃ s, run bernoulli ops (XSF.XSFSkipList mt19937 k0 v0 max_level seed)
        = Ok (Returned () s))
  ∧ ∀ s, run bernoulli ops (XSF.XSFSkipList mt19937 k0 v0 max_level seed)
         = Ok (Returned () s) →
      (∀ v, live_put ops key v → XSF.get key s = Ok (Some v))
      ∧ ((∀ v, ¬ live_put ops key v) → XSF.get key s = Ok None).
Proof.
  split.
  - intros Hmax.
    destruct (run_spec ops (XSF.XSFSkipList mt19937 k0 v0 max_level seed) [] ∅)
      as (s & L & Hrun & _).
    + apply xsf_wf_init.
    + rewrite max_level_init. unfold XSF.to_uint8. rewrite Nat.mod_small; lia.
    + intros k. by rewrite lookup_empty.
    + by exists s.
  - intros s Hrun.
    destruct (run_sound ops _ [] ∅ s (xsf_wf_init k0 v0 max_level seed))
      as (L & Hwf & Hassoc); [|done|].
    { intros k. by rewrite lookup_empty. }
    rewrite (xsf_get_spec s L key Hwf), Hassoc.
    fold (model ops). split.
    + intros v Hv. apply model_live_put in Hv. by rewrite Hv.
    + intros Hnone. destruct (model ops !! key) as [v|] eqn:Hv; [|done].
      apply model_live_put in Hv. by destruct (Hnone v).
Qed.

(** C2. In every state reachable from the constructor by [put] and
    [remove], the level-0 chain read from [header_->forward_[0]] is
    strictly increasing in key, so without duplicate keys, and its length
    is [element_count_], the value of [size()]. *)
Theorem xsf_level0_sorted (k0 : Z) (v0 : V) (max_level : nat) (seed : Z) s :
  reachable mt19937 bernoulli k0 v0 max_level seed s →
  ∃ l, level0_chain s = Ok l
       ∧ StronglySorted Z.lt l.*1 ∧ NoDup l.*1
       ∧ length l = XSF.size s.
Proof.
  intros (L & (hd & HInv & _) & _)%reachable_wf.
  exists ((λ e, (e_key e, e_val e)) <$> L).
  assert (Hkeys : ((λ e, (e_key e, e_val e)) <$> L).*1 = e_key <$> L).
  { rewrite <- list_fmap_compose. done. }
  rewrite Hkeys. pose proof (level0_chain_spec _ s hd L HInv) as Hchain.
  destruct HInv.
  split_and!; [done|done|by apply sorted_NoDup|].
  rewrite length_fmap. unfold XSF.size. done.
Qed.
Lemma Inv_nodes wrap s hd L a (n : Node V) :
  Inv wrap s hd L → store_ s !! a = Some n →
  node_level_ n ≤ max_level_ s ∧ length (forward_ n) = node_level_ n + 1.
Proof.
  intros HInv Ha. pose proof HInv as [Hrep _ Hdom _ _ Hhl _ Hlev Htop _ _].
  assert (Hin : a ∈ dom (store_ s)) by (apply elem_of_dom; eauto).
  rewrite Hdom in Hin. apply elem_of_list_to_set in Hin.
  apply list_elem_of_fmap in Hin as (e & -> & He).
  destruct (rep_elem _ _ e Hrep He) as (rest & Hl).
  rewrite Hl in Ha. injection Ha as <-. cbn [node_of node_level_ forward_].
  rewrite fwd_of_length. split; [|done].
  apply elem_of_cons in He as [->|He]; [lia|].
  rewrite Forall_forall in Hlev. specialize (Hlev e He). simpl in Hlev. lia.
Qed.

(** C9. In every state reachable from the constructor the top level is at
    most [max_level_], the level generator returns at most [max_level_],
    every node has a level of at most [max_level_] and a link array of
    [level + 1] slots, and no call of [put], [get] or [remove] reads or
    writes an array outside its bounds. *)
Theorem xsf_accesses_in_bounds (k0 : Z) (v0 : V) (max_level : nat) (seed : Z) s :
  reachable mt19937 bernoulli k0 v0 max_level seed s →
  skip_list_level_ s ≤ max_level_ s
  ∧ (get_random_level bernoulli s).1 ≤ max_level_ s
  ∧ (∀ a n, store_ s !! a = Some n →
       node_level_ n ≤ max_level_ s
       ∧ length (forward_ n) = node_level_ n + 1)
  ∧ (∀ mem key value,
       XSF.put bernoulli mem key value s ≠ Err OutOfBounds)
  ∧ (∀ key, XSF.get key s ≠ Err OutOfBounds)
  ∧ (∀ key, XSF.remove key s ≠ Err OutOfBounds).
Proof.
  intros (L & Hwf & _)%reachable_wf.
  pose proof Hwf as (hd & HInv & _).
  split_and!.
  - by destruct HInv.
  - apply get_random_level_bound.
  - intros a n. by apply (Inv_nodes XSF.to_uint8 s hd L).
  - intros [] key value.
    + destruct (xsf_put_cases s L key value Hwf)
        as [(s' & L' & -> & _)|[-> _]]; done.
    + destruct (xsf_put_no_memory s L key value Hwf)
        as [(v & c & _ & ->)|[(_ & -> & _)|[-> _]]]; done.
  - intros key. by rewrite (xsf_get_spec s L key Hwf).
  - intros key.
    by destruct (xsf_remove_spec s L key Hwf) as (s' & L' & -> & _).
Qed.

(** C3, as the code has it.  When [new] fails during [put] of an absent
    key (with [max_level] below 255), [put] leaves by [std::bad_alloc] with
    the mutex released and with every node, every forward pointer and the
    element count as before; the level-0 chain and the result of every
    [get] are unchanged.  The top level has already been raised to the
    level drawn for the node when that is higher. *)
Theorem xsf_put_bad_alloc (k0 : Z) (v0 : V) (max_level : nat) (seed : Z) s
    (key : Z) (value : V) :
  reachable mt19937 bernoulli k0 v0 max_level seed s → max_level < 255 →
  XSF.get key s = Ok None →
  ∃ s', XSF.put bernoulli false key value s = Ok (Threw bad_alloc s')
        ∧ store_ s' = store_ s
        ∧ header_ s' = header_ s
        ∧ element_count_ s' = element_count_ s
        ∧ mutex_ s' = false
        ∧ skip_list_level_ s'
          = skip_list_level_ s `max` (get_random_level bernoulli s).1
        ∧ level0_chain s' = level0_chain s
        ∧ ∀ k, XSF.get k s' = XSF.get k s.
Proof.
  intros (L & Hwf & Hml)%reachable_wf Hmax Hget.
  rewrite (xsf_get_spec s L key Hwf) in Hget. injection Hget as Hnone.
  destruct (xsf_put_no_memory s L key value Hwf)
    as [(v & c & Hv & _)|[(_ & Hrun & Hwf')|[_ H255]]].
  - congruence.
  - eexists. split; [exact Hrun|]. simpl_fields.
    split_and!; [done..|].
    intros k. by rewrite (xsf_get_spec _ L k Hwf'), (xsf_get_spec s L k Hwf).
  - rewrite Hml in H255. unfold XSF.to_uint8 in H255.
    rewrite Nat.mod_small in H255; lia.
Qed.
(** C7, as the code has it.  The destructor releases every node, each
    once, and leaves no node behind; it does so by the recursive [clear],
    which releases the nodes in the reverse of the level-0 order (then the
    header) and holds as many stack frames as the list has elements. *)
Theorem xsf_teardown_recursive (k0 : Z) (v0 : V) (max_level : nat) (seed : Z) s :
  reachable mt19937 bernoulli k0 v0 max_level seed s →
  ∃ nodes, level0_nodes s = Ok nodes
           ∧ destroy s = Ok (∅, reverse nodes ++ [header_ s], XSF.size s)
           ∧ NoDup (reverse nodes ++ [header_ s]).
Proof.
  intros (L & (hd & HInv & _) & _)%reachable_wf.
  exists (e_addr <$> L).
  rewrite (level0_nodes_spec XSF.to_uint8 s hd L HInv).
  rewrite (destroy_spec XSF.to_uint8 s hd L HInv).
  destruct HInv. unfold XSF.size. rewrite inv_count0.
  split_and!; [done|done|].
  rewrite fmap_cons, inv_hd_addr0 in inv_nodup0.
  apply NoDup_cons in inv_nodup0 as [Hne Hnd].
  apply NoDup_app. split_and!.
  - by rewrite reverse_Permutation.
  - intros a Ha%elem_of_reverse. set_solver.
  - apply NoDup_singleton.
Qed.
(** *** Two lists that differ in the header's placeholders only *)

Lemma twin_init (k0 k0' : Z) (v0 v0' : V) (max_level : nat) (seed : Z) :
  twin (XSF.XSFSkipList mt19937 k0 v0 max_level seed)
       (XSF.XSFSkipList mt19937 k0' v0' max_level seed).
Proof.
  eexists _, _, []. split; [apply Inv_init|]. split; [apply Inv_init|].
  split_and!; try done.
  rewrite max_level_init. unfold XSF.to_uint8.
  pose proof (Nat.mod_upper_bound max_level 256). lia.
Qed.

Lemma twin_dom s s' hd hd' L :
  Inv XSF.to_uint8 s hd L → Inv XSF.to_uint8 s' hd' L →
  header_ s = header_ s' → dom (store_ s) = dom (store_ s').
Proof.
  intros [] [] Hh. rewrite inv_dom0, inv_dom1, !fmap_cons. congruence.
Qed.

Lemma twin_put s s' key value :
  twin s s' →
  match XSF.put bernoulli true key value s,
        XSF.put bernoulli true key value s' with
  | Ok (Returned _ t), Ok (Returned _ t') => twin t t'
  | Err f, Err f' => f = f'
  | _, _ => False
  end.
Proof.
  intros (hd & hd' & L & HInv & HInv' & Hml & Htop & Hh & Hg & Hm & Hm' & Hle).
  unfold XSF.put, mutex_lock. rewrite Hm, Hm'. cbn [mbind res_bind].
  set (s1 := mkSkipList (max_level_ s) (skip_list_level_ s) (header_ s)
               (element_count_ s) true (gen_ s) (store_ s)).
  set (s1' := mkSkipList (max_level_ s') (skip_list_level_ s') (header_ s')
                (element_count_ s') true (gen_ s') (store_ s')).
  assert (H1 : Inv XSF.to_uint8 s1 hd L) by (by apply Inv_set_mutex).
  assert (H1' : Inv XSF.to_uint8 s1' hd' L) by (by apply Inv_set_mutex).
  destruct (hit_cases L key) as (Llt & Lge & -> & Hlt & Hge & Hcase);
    [by destruct HInv|].
  destruct Hcase as [(q & Q & -> & Hq & _)|[Habs _]].
  - destruct (put_body_present bernoulli XSF.to_uint8 s1 hd Llt (q :: Q) key
                value H1 Hlt Hge true q Q eq_refl Hq) as [-> HI].
    destruct (put_body_present bernoulli XSF.to_uint8 s1' hd' Llt (q :: Q) key
                value H1' Hlt Hge true q Q eq_refl Hq) as [-> HI'].
    cbn [mbind res_bind mutex_unlock]. try unfold s1, s1'. simpl_fields.
    exists hd, hd', (Llt ++ with_val q value :: Q).
    split; [by apply (Inv_set_mutex _ false) in HI|].
    split; [by apply (Inv_set_mutex _ false) in HI'|]. done.
  - destruct (get_random_level bernoulli s1) as [lvl g] eqn:Hlvl.
    assert (Hlvl' : get_random_level bernoulli s1' = (lvl, g)).
    { rewrite <- Hlvl. unfold get_random_level, s1, s1'. simpl_fields.
      by rewrite Hml, Hg. }
    destruct (uint8_wrap_dec lvl) as [Hw|Hnw].
    + destruct (put_body_absent bernoulli XSF.to_uint8 s1 hd Llt Lge key value
                  H1 Hlt Hge lvl g Habs Hlvl Hw) as [(h & -> & HI) _].
      destruct (put_body_absent bernoulli XSF.to_uint8 s1' hd' Llt Lge key value
                  H1' Hlt Hge lvl g Habs Hlvl' Hw) as [(h' & -> & HI') _].
      cbn [mbind res_bind mutex_unlock]. try unfold s1, s1'. simpl_fields.
      unfold s1, s1' in HI, HI'. simpl_fields in HI. simpl_fields in HI'.
      rewrite <- (twin_dom s s' hd hd' _ HInv HInv' Hh) in HI'.
      eexists hd, hd', _.
      split; [by apply (Inv_set_mutex _ false) in HI|].
      split; [by apply (Inv_set_mutex _ false) in HI'|].
      simpl_fields. split_and!; try done. by rewrite Htop.
    + assert (Hn1 : ¬ wrap_ok XSF.to_uint8 (get_random_level bernoulli s1).1)
        by (by rewrite Hlvl).
      assert (Hn1' : ¬ wrap_ok XSF.to_uint8 (get_random_level bernoulli s1').1)
        by (by rewrite Hlvl').
      destruct (uint8_raise_fails s1 hd _ H1 Hle Hn1) as [_ Hf].
      destruct (uint8_raise_fails s1' hd' _ H1') as [_ Hf']; [|done|].
      { unfold s1'. simpl_fields. by rewrite <- Hml. }
      rewrite Hlvl in Hf. rewrite Hlvl' in Hf'.
      rewrite (put_body_absent_stuck bernoulli XSF.to_uint8 s1 hd Llt Lge key
                 value H1 Hlt Hge true lvl g Diverged Habs Hlvl Hf).
      rewrite (put_body_absent_stuck bernoulli XSF.to_uint8 s1' hd' Llt Lge key
                 value H1' Hlt Hge true lvl g Diverged Habs Hlvl' Hf').
      done.
Qed.

Lemma twin_remove s s' key :
  twin s s' →
  match XSF.remove key s, XSF.remove key s' with
  | Ok t, Ok t' => twin t t'
  | _, _ => False
  end.
Proof.
  intros (hd & hd' & L & HInv & HInv' & Hml & Htop & Hh & Hg & Hm & Hm' & Hle).
  unfold XSF.remove, mutex_lock. rewrite Hm, Hm'. cbn [mbind res_bind].
  set (s1 := mkSkipList (max_level_ s) (skip_list_level_ s) (header_ s)
               (element_count_ s) true (gen_ s) (store_ s)).
  set (s1' := mkSkipList (max_level_ s') (skip_list_level_ s') (header_ s')
                (element_count_ s') true (gen_ s') (store_ s')).
  assert (H1 : Inv XSF.to_uint8 s1 hd L) by (by apply Inv_set_mutex).
  assert (H1' : Inv XSF.to_uint8 s1' hd' L) by (by apply Inv_set_mutex).
  destruct (hit_cases L key) as (Llt & Lge & -> & Hlt & Hge & Hcase);
    [by destruct HInv|].
  destruct Hcase as [(q & Q & -> & Hq & _)|[Habs _]].
  - destruct (remove_body_present XSF.to_uint8 s1 hd Llt q Q key H1 Hlt Hq)
      as (h & -> & HI).
    destruct (remove_body_present XSF.to_uint8 s1' hd' Llt q Q key H1' Hlt Hq)
      as (h' & -> & HI').
    cbn [mbind res_bind mutex_unlock]. try unfold s1, s1'. simpl_fields.
    unfold s1, s1' in HI, HI'. simpl_fields in HI. simpl_fields in HI'.
    exists hd, hd', (Llt ++ Q).
    split; [by apply (Inv_set_mutex _ false) in HI|].
    split; [by apply (Inv_set_mutex _ false) in HI'|].
    simpl_fields. split_and!; try done. by rewrite Htop.
  - rewrite (remove_body_absent XSF.to_uint8 s1 hd Llt Lge key H1 Hlt Hge Habs).
    rewrite (remove_body_absent XSF.to_uint8 s1' hd' Llt Lge key H1' Hlt Hge
               Habs).
    cbn [mbind res_bind mutex_unlock]. try unfold s1, s1'. simpl_fields.
    exists hd, hd', (Llt ++ Lge).
    split; [by apply (Inv_set_mutex _ false) in H1|].
    split; [by apply (Inv_set_mutex _ false) in H1'|]. done.
Qed.

Lemma twin_get s s' key : twin s s' → XSF.get key s = XSF.get key s'.
Proof.
  intros (hd & hd' & L & HInv & HInv' & _).
  unfold XSF.get.
  by rewrite (get_body_spec XSF.to_uint8 s hd L key HInv),
             (get_body_spec XSF.to_uint8 s' hd' L key HInv').
Qed.

Lemma twin_run ops : ∀ s s',
  twin s s' →
  match run bernoulli ops s, run bernoulli ops s' with
  | Ok (Returned _ t), Ok (Returned _ t') => twin t t'
  | Err f, Err f' => f = f'
  | _, _ => False
  end.
Proof.
  induction ops as [|[key value|key|key] ops IH]; intros s s' Htw; cbn [run].
  - done.
  - pose proof (twin_put s s' key value Htw) as Hput.
    destruct (XSF.put bernoulli true key value s) as [[[] t|e t]|f],
             (XSF.put bernoulli true key value s') as [[[] t'|e' t']|f'];
      try done; cbn [mbind res_bind].
    by apply IH.
  - rewrite <- (twin_get s s' key Htw).
    destruct Htw as (hd & hd' & L & HInv & ?).
    unfold XSF.get. rewrite (get_body_spec XSF.to_uint8 s hd L key HInv).
    cbn [mbind res_bind]. apply IH. by exists hd, hd', L.
  - pose proof (twin_remove s s' key Htw) as Hrem.
    destruct (XSF.remove key s) as [t|f], (XSF.remove key s') as [t'|f'];
      try done; cbn [mbind res_bind].
    by apply IH.
Qed.

Lemma twin_stores s s' :
  twin s s' →
  (∀ a, a ≠ header_ s → store_ s !! a = store_ s' !! a)
  ∧ forward_ <$> store_ s !! header_ s = forward_ <$> store_ s' !! header_ s'.
Proof.
  intros (hd & hd' & L & HInv & HInv' & Hml & Htop & Hh & _).
  pose proof (twin_dom s s' hd hd' L HInv HInv' Hh) as Hdom.
  destruct HInv as [Hrep _ Hd Hreg Hha Hhl _ _ _ _ _].
  destruct HInv' as [Hrep' _ Hd' Hreg' Hha' Hhl' _ _ _ _ _].
  split.
  - intros a Ha.
    destruct (decide (a ∈ e_addr <$> L)) as [Hin|Hnin].
    + apply list_elem_of_fmap in Hin as (e & -> & (l1 & l2 & ->)%list_elem_of_split).
      by rewrite (Hrep (hd :: l1) e l2 eq_refl), (Hrep' (hd' :: l1) e l2 eq_refl).
    + assert (Hn : a ∉ dom (store_ s)).
      { rewrite Hd, fmap_cons. set_solver. }
      pose proof Hn as Hn'. rewrite Hdom in Hn'.
      apply not_elem_of_dom in Hn, Hn'. by rewrite Hn, Hn'.
  - rewrite <- Hha, <- Hha'.
    rewrite (Hrep [] hd L eq_refl), (Hrep' [] hd' L eq_refl).
    cbn [fmap option_fmap option_map node_of forward_]. f_equal.
    apply Forall_cons in Hreg as [[_ Hhi] _].
    apply Forall_cons in Hreg' as [[_ Hhi'] _].
    apply fwd_of_ext; [lia|]. intros j _. unfold slot.
    replace (e_hi hd') with (e_hi hd) by lia. done.
Qed.

(** C10. The key and the value the constructor leaves in the header are
    never read: run the same operations on two lists built with different
    placeholders and both runs end alike (or neither ends), with the same
    top level, size and generator, the same nodes at the same addresses,
    the same links in the header and the same result for every [get].
    In particular [get] of the placeholder key itself returns what the
    operations put there, as for any other key. *)
Theorem xsf_header_unread (k0 k0' : Z) (v0 v0' : V) (max_level : nat)
    (seed : Z) (ops : list (op V)) :
  match run bernoulli ops (XSF.XSFSkipList mt19937 k0 v0 max_level seed),
        run bernoulli ops (XSF.XSFSkipList mt19937 k0' v0' max_level seed) with
  | Ok (Returned _ s), Ok (Returned _ s') =>
    skip_list_level_ s = skip_list_level_ s'
    ∧ XSF.size s = XSF.size s' ∧ gen_ s = gen_ s' ∧ header_ s = header_ s'
    ∧ (∀ a, a ≠ header_ s → store_ s !! a = store_ s' !! a)
    ∧ forward_ <$> store_ s !! header_ s = forward_ <$> store_ s' !! header_ s'
    ∧ (∀ key, XSF.get key s = XSF.get key s')
    ∧ XSF.get k0 s = Ok (model ops !! k0)
  | Err f, Err f' => f = f'
  | _, _ => False
  end.
Proof.
  pose proof (twin_run ops _ _ (twin_init k0 k0' v0 v0' max_level seed)) as Htw.
  destruct (run bernoulli ops (XSF.XSFSkipList mt19937 k0 v0 max_level seed))
    as [[[] s|e s]|f] eqn:Hrun,
     (run bernoulli ops (XSF.XSFSkipList mt19937 k0' v0' max_level seed))
    as [[[] s'|e' s']|f']; try done.
  destruct (twin_stores s s' Htw) as [Hst Hfw].
  assert (Hget : ∀ key, XSF.get key s = XSF.get key s')
    by (intros key; by apply twin_get).
  destruct (run_sound ops _ [] ∅ s (xsf_wf_init k0 v0 max_level seed))
    as (L & Hwf & Hassoc); [|done|].
  { intros k. by rewrite lookup_empty. }
  pose proof (xsf_get_spec s L k0 Hwf) as Hk0. rewrite Hassoc in Hk0.
  destruct Htw as (hd & hd' & L' & HInv & HInv' & Hml & Htop & Hh & Hg & _).
  split_and!; try done.
  - unfold XSF.size. destruct HInv, HInv'. congruence.
Qed.


(** C8, as the code has it.  [put] and [remove] of [XSFSkipList], every
    member function of [momu::SkipList] but [size] and [empty], and
    [insert_element] and [delete_element] of the older class take the
    mutex before they touch the list: while it is held they wait.  When
    they return it is free again; the two [put]s also release it when they
    leave by an exception, [insert_element] leaves it held. *)
Theorem mutex_taken_by_writers (s : skip_list V G) (t : skip_list Z G)
    (mem : bool) (key : Z) (value : V) (tvalue : Z) :
  (mutex_ s = true →
   XSF.put bernoulli mem key value s = Err Blocked
   ∧ XSF.remove key s = Err Blocked
   ∧ Momu.put bernoulli mem key value s = Err Blocked
   ∧ Momu.get key s = Err Blocked
   ∧ Momu.contains key s = Err Blocked
   ∧ Momu.remove key s = Err Blocked)
  ∧ (mutex_ t = true →
     Legacy.insert_element bernoulli mem key tvalue t = Err Blocked
     ∧ Legacy.delete_element key t = Err Blocked)
  ∧ (∀ c, XSF.put bernoulli mem key value s = Ok c →
          mutex_ (state_of c) = false)
  ∧ (∀ s', XSF.remove key s = Ok s' → mutex_ s' = false)
  ∧ (∀ c, Momu.put bernoulli mem key value s = Ok c →
          mutex_ (state_of c) = false)
  ∧ (∀ b s', Momu.remove key s = Ok (b, s') → mutex_ s' = false)
  ∧ (∀ r t', Legacy.insert_element bernoulli mem key tvalue t
             = Ok (Returned r t') → mutex_ t' = false)
  ∧ (∀ e t', Legacy.insert_element bernoulli mem key tvalue t
             = Ok (Threw e t') → mutex_ t' = true)
  ∧ (∀ t', Legacy.delete_element key t = Ok t' → mutex_ t' = false).
Proof.
  unfold XSF.put, XSF.remove, Momu.put, Momu.get, Momu.contains, Momu.remove,
    Legacy.insert_element, Legacy.delete_element.
  split_and!.
  - intros Hm. unfold mutex_lock. by rewrite Hm.
  - intros Hm. unfold mutex_lock. by rewrite Hm.
  - intros c H.
    destruct (mutex_lock s) as [s1|]; cbn [mbind res_bind] in H; [|done].
    destruct (put_body bernoulli XSF.to_uint8 mem key value s1) as [[]|];
      cbn [mbind res_bind] in H; [| |done]; by injection H as <-.
  - intros s' H.
    destruct (mutex_lock s) as [s1|]; cbn [mbind res_bind] in H; [|done].
    destruct (remove_body XSF.to_uint8 key s1) as [[]|];
      cbn [mbind res_bind] in H; [|done]. by injection H as <-.
  - intros c H.
    destruct (mutex_lock s) as [s1|]; cbn [mbind res_bind] in H; [|done].
    destruct (put_body bernoulli XSF.to_uint8 mem key value s1) as [[]|];
      cbn [mbind res_bind] in H; [| |done]; by injection H as <-.
  - intros b s' H.
    destruct (mutex_lock s) as [s1|]; cbn [mbind res_bind] in H; [|done].
    destruct (remove_body XSF.to_uint8 key s1) as [[]|];
      cbn [mbind res_bind] in H; [|done]. by injection H as _ <-.
  - intros r t' H.
    destruct (mutex_lock t) as [s1|]; cbn [mbind res_bind] in H; [|done].
    destruct (put_body bernoulli Legacy.to_int mem key tvalue s1) as [[]|];
      cbn [mbind res_bind] in H; [| |done]; [|done]. by injection H as _ <-.
  - intros e t' H. unfold mutex_lock in H.
    destruct (mutex_ t); cbn [mbind res_bind] in H; [done|].
    destruct (put_body bernoulli Legacy.to_int mem key tvalue _)
      as [c|] eqn:Hbody; cbn [mbind res_bind] in H; [|done].
    apply put_body_mutex in Hbody. destruct c; [done|].
    injection H as _ <-. exact Hbody.
  - intros t' H.
    destruct (mutex_lock t) as [s1|]; cbn [mbind res_bind] in H; [|done].
    destruct (remove_body Legacy.to_int key s1) as [[]|];
      cbn [mbind res_bind] in H; [|done]. by injection H as <-.
Qed.
End xsf_runs.

Lemma xsf_get_after_ops_witness :
  (3 < 255 → ∃ s, run tape_draw example_ops example_list = Ok (Returned () s))
  ∧ run tape_draw example_ops example_list = Ok (Returned () example_state)
  ∧ (∀ v, live_put example_ops 9%Z v → XSF.get 9%Z example_state = Ok (Some v))
  ∧ ((∀ v, ¬ live_put example_ops 9%Z v) → XSF.get 9%Z example_state = Ok None).
Proof.
  pose proof (xsf_get_after_ops (tape_seed [true; false; true; true; false])
                tape_draw 0%Z 0%Z 3 7%Z example_ops 9%Z) as [Hruns Hget].
  assert (Hrun : run tape_draw example_ops example_list
                 = Ok (Returned () example_state)) by (vm_compute; reflexivity).
  split; [exact Hruns|]. split; [exact Hrun|]. exact (Hget _ Hrun).
Defined.

Lemma example_reachable :
  reachable (tape_seed [true; false; true; true; false]) tape_draw
    0%Z 0%Z 3 7%Z example_state.
Proof.
  apply (run_reachable _ _ _ _ _ _ example_ops example_list);
    [apply reach_init|vm_compute; reflexivity].
Defined.

Lemma xsf_level0_sorted_witness :
  reachable (tape_seed [true; false; true; true; false]) tape_draw
    0%Z 0%Z 3 7%Z example_state
  ∧ ∃ l, level0_chain example_state = Ok l
         ∧ StronglySorted Z.lt l.*1 ∧ NoDup l.*1
         ∧ length l = XSF.size example_state.
Proof.
  split; [exact example_reachable|].
  exact (xsf_level0_sorted _ _ _ _ _ _ _ example_reachable).
Defined.

(** C3 fails as stated: [put] of an absent key on an empty list, with two
    heads on the tape and no memory for the node, leaves by [bad_alloc]
    with the top level raised from 0 to 2.  [insert_element] of the older
    class raises the top level in the same way, and leaves with the mutex
    still held. *)
Lemma xsf_put_bad_alloc_raises_top :
  (∃ s', XSF.put tape_draw false 5%Z 50%Z bad_alloc_list
         = Ok (Threw bad_alloc s')
         ∧ skip_list_level_ bad_alloc_list = 0 ∧ skip_list_level_ s' = 2)
  ∧ (∃ s', Legacy.insert_element tape_draw false 5%Z 50%Z legacy_example
           = Ok (Threw bad_alloc s')
           ∧ skip_list_level_ legacy_example = 0 ∧ skip_list_level_ s' = 1
           ∧ mutex_ legacy_example = false ∧ mutex_ s' = true).
Proof. split; eexists; vm_compute; done. Defined.

Lemma xsf_accesses_in_bounds_witness :
  reachable (tape_seed [true; false; true; true; false]) tape_draw
    0%Z 0%Z 3 7%Z example_state
  ∧ skip_list_level_ example_state ≤ max_level_ example_state
  ∧ (get_random_level tape_draw example_state).1 ≤ max_level_ example_state
  ∧ (∀ a n, store_ example_state !! a = Some n →
       node_level_ n ≤ max_level_ example_state
       ∧ length (forward_ n) = node_level_ n + 1)
  ∧ (∀ mem key value,
       XSF.put tape_draw mem key value example_state ≠ Err OutOfBounds)
  ∧ (∀ key, XSF.get key example_state ≠ Err OutOfBounds)
  ∧ (∀ key, XSF.remove key example_state ≠ Err OutOfBounds).
Proof.
  split; [exact example_reachable|].
  exact (xsf_accesses_in_bounds _ _ _ _ _ _ _ example_reachable).
Defined.

Lemma xsf_put_bad_alloc_witness :
  reachable (tape_seed [true; false; true; true; false]) tape_draw
    0%Z 0%Z 3 7%Z example_state
  ∧ 3 < 255
  ∧ XSF.get 5%Z example_state = Ok None
  ∧ ∃ s', XSF.put tape_draw false 5%Z 50%Z example_state
          = Ok (Threw bad_alloc s')
        ∧ store_ s' = store_ example_state
        ∧ header_ s' = header_ example_state
        ∧ element_count_ s' = element_count_ example_state
        ∧ mutex_ s' = false
        ∧ skip_list_level_ s'
          = skip_list_level_ example_state
            `max` (get_random_level tape_draw example_state).1
        ∧ level0_chain s' = level0_chain example_state
        ∧ ∀ k, XSF.get k s' = XSF.get k example_state.
Proof.
  assert (Hget : XSF.get 5%Z example_state = Ok None)
    by (vm_compute; reflexivity).
  split; [exact example_reachable|]. split; [lia|]. split; [exact Hget|].
  exact (xsf_put_bad_alloc _ _ _ _ _ _ _ 5%Z 50%Z example_reachable
           ltac:(lia) Hget).
Defined.

Lemma three_reachable :
  reachable (tape_seed [true; false; true; true; false]) tape_draw
    0%Z 0%Z 3 7%Z three_list.
Proof.
  apply (run_reachable _ _ _ _ _ _ [Put 3 30; Put 6 60; Put 9 90]%Z
           example_list); [apply reach_init|vm_compute; reflexivity].
Defined.

(** C7 fails as stated: the destructor of a list of three elements
    releases the last node first and reaches a depth of three calls of
    [clear]; with one element the depth is one. *)
Lemma xsf_teardown_depth_grows :
  level0_nodes three_list = Ok [1; 2; 3]
  ∧ destroy three_list = Ok (∅, [3; 2; 1; 0], 3)
  ∧ level0_nodes example_state = Ok [2]
  ∧ destroy example_state = Ok (∅, [2; 0], 1).
Proof. vm_compute. done. Defined.

Lemma xsf_teardown_recursive_witness :
  reachable (tape_seed [true; false; true; true; false]) tape_draw
    0%Z 0%Z 3 7%Z three_list
  ∧ ∃ nodes, level0_nodes three_list = Ok nodes
             ∧ destroy three_list
               = Ok (∅, reverse nodes ++ [header_ three_list],
                     XSF.size three_list)
             ∧ NoDup (reverse nodes ++ [header_ three_list]).
Proof.
  split; [exact three_reachable|].
  exact (xsf_teardown_recursive _ _ _ _ _ _ _ three_reachable).
Defined.

(** C8 fails as stated: while the mutex is held, [remove] waits but [get]
    and [size] of [XSFSkipList] read the list and return, and so do
    [search_element], [size] and [dump_file] of the older class. *)
Lemma xsf_get_ignores_mutex :
  mutex_ example_locked = true
  ∧ XSF.remove 9%Z example_locked = Err Blocked
  ∧ XSF.get 9%Z example_locked = Ok (Some 91%Z)
  ∧ XSF.size example_locked = 1
  ∧ mutex_ legacy_locked = true
  ∧ Legacy.delete_element 7%Z legacy_locked = Err Blocked
  ∧ Legacy.search_element 7%Z 0%Z legacy_locked = Ok (true, 70%Z)
  ∧ Legacy.size legacy_locked = 2
  ∧ ∃ text, Legacy.dump_file legacy_locked = Ok text.
Proof.
  split_and!; try (vm_compute; reflexivity).
  eexists. vm_compute. reflexivity.
Defined.

Lemma mutex_taken_by_writers_witness :
  mutex_ example_locked = true
  ∧ XSF.put tape_draw true 4%Z 40%Z example_locked = Err Blocked
  ∧ XSF.remove 4%Z example_locked = Err Blocked
  ∧ Momu.put tape_draw true 4%Z 40%Z example_locked = Err Blocked
  ∧ Momu.get 4%Z example_locked = Err Blocked
  ∧ Momu.contains 4%Z example_locked = Err Blocked
  ∧ Momu.remove 4%Z example_locked = Err Blocked
  ∧ Legacy.insert_element tape_draw true 4%Z 40%Z example_locked = Err Blocked
  ∧ Legacy.delete_element 4%Z example_locked = Err Blocked
  ∧ ∃ s', XSF.remove 9%Z example_state = Ok s' ∧ mutex_ s' = false.
Proof.
  destruct (mutex_taken_by_writers tape_draw example_locked example_locked
              true 4%Z 40%Z 40%Z) as (Hxsf & Hold & _).
  destruct (Hxsf eq_refl) as (H1 & H2 & H3 & H4 & H5 & H6).
  destruct (Hold eq_refl) as (H7 & H8).
  split; [reflexivity|].
  split; [exact H1|]. split; [exact H2|]. split; [exact H3|].
  split; [exact H4|]. split; [exact H5|]. split; [exact H6|].
  split; [exact H7|]. split; [exact H8|].
  clear Hxsf Hold H1 H2 H3 H4 H5 H6 H7 H8.
  destruct (mutex_taken_by_writers tape_draw example_state example_state
              true 9%Z 0%Z 0%Z) as (_ & _ & _ & Hrem & _).
  eexists. split; [vm_compute; reflexivity|].
  apply Hrem. vm_compute. reflexivity.
Defined.

(** ** Verification: decimal text *)

Section decimal.
Local Open Scope Z_scope.
Import Legacy.

Lemma digit_cases (d : Z) :
  0 ≤ d ≤ 9 →
  d = 0 ∨ d = 1 ∨ d = 2 ∨ d = 3 ∨ d = 4 ∨ d = 5 ∨ d = 6 ∨ d = 7 ∨ d = 8 ∨ d = 9.
Proof. lia. Qed.

Lemma digit_of_char (d : Z) : 0 ≤ d ≤ 9 → digit_of (digit_char d) = Some d.
Proof.
  intros Hd. destruct (digit_cases d Hd)
    as [->|[->|[->|[->|[->|[->|[->|[->|[->| ->]]]]]]]]]; reflexivity.
Qed.

Lemma plain_digit_char (d : Z) (s : string) :
  0 ≤ d ≤ 9 → plain (String (digit_char d) s) = plain s.
Proof.
  intros Hd. destruct (digit_cases d Hd)
    as [->|[->|[->|[->|[->|[->|[->|[->|[->| ->]]]]]]]]]; reflexivity.
Qed.

Lemma read_digits_fuel (f : nat) : ∀ (n : Z) (acc : string),
  0 ≤ n < 2 ^ Z.of_nat f →
  ∃ k, 0 ≤ k ∧ ∀ a, read_digits a (digits_fuel f n acc)
                    = read_digits (a * 10 ^ k + n) acc.
Proof.
  induction f as [|f IH]; intros n acc Hn.
  - exists 0. split; [done|]. intros a.
    assert (n = 0) as -> by (simpl in Hn; lia).
    cbn [digits_fuel]. f_equal. rewrite Z.pow_0_r. lia.
  - cbn [digits_fuel].
    assert (Hmod : 0 ≤ n mod 10 ≤ 9) by (pose proof (Z.mod_pos_bound n 10); lia).
    destruct (n <? 10) eqn:Hlt.
    + apply Z.ltb_lt in Hlt. exists 1. split; [done|]. intros a.
      cbn [read_digits]. rewrite digit_of_char by done.
      rewrite Z.mod_small by lia. f_equal.
    + apply Z.ltb_ge in Hlt.
      destruct (IH (n / 10) (String (digit_char (n mod 10)) acc))
        as (k & Hk & Hread).
      { split; [apply Z.div_pos; lia|].
        apply Z.div_lt_upper_bound; [lia|].
        rewrite Nat2Z.inj_succ, Z.pow_succ_r in Hn by lia. lia. }
      exists (k + 1). split; [lia|]. intros a. rewrite Hread.
      cbn [read_digits]. rewrite digit_of_char by done. f_equal.
      rewrite Z.pow_add_r by lia. pose proof (Z.div_mod n 10). lia.
Qed.

Lemma show_nat_fuel (n : Z) :
  0 ≤ n → 0 ≤ n < 2 ^ Z.of_nat (S (Z.to_nat (Z.log2 n))).
Proof.
  intros Hn. split; [done|].
  rewrite Nat2Z.inj_succ, Z2Nat.id by apply Z.log2_nonneg.
  destruct (decide (n = 0)) as [->|Hne]; [done|].
  apply Z.log2_spec. lia.
Qed.

Lemma read_show_nat (n : Z) : 0 ≤ n → read_digits 0 (show_nat n) = n.
Proof.
  intros Hn. unfold show_nat.
  destruct (read_digits_fuel _ n "" (show_nat_fuel n Hn)) as (k & _ & Hread).
  rewrite Hread. cbn [read_digits]. lia.
Qed.

Lemma digits_fuel_head (f : nat) : ∀ (n : Z) (acc : string),
  0 ≤ n →
  ∃ d r, 0 ≤ d ≤ 9 ∧ digits_fuel (S f) n acc = String (digit_char d) r.
Proof.
  induction f as [|f IH]; intros n acc Hn.
  - cbn [digits_fuel].
    assert (Hmod : 0 ≤ n mod 10 ≤ 9) by (pose proof (Z.mod_pos_bound n 10); lia).
    exists (n mod 10). destruct (n <? 10); eauto.
  - assert (Hmod : 0 ≤ n mod 10 ≤ 9) by (pose proof (Z.mod_pos_bound n 10); lia).
    change (digits_fuel (S (S f)) n acc)
      with (let acc' := String (digit_char (n mod 10)) acc in
            if n <? 10 then acc' else digits_fuel (S f) (n / 10) acc').
    cbn zeta. destruct (n <? 10); [eauto|].
    apply IH. apply Z.div_pos; lia.
Qed.

Lemma plain_digits_fuel (f : nat) : ∀ (n : Z) (acc : string),
  0 ≤ n → plain acc = true → plain (digits_fuel f n acc) = true.
Proof.
  induction f as [|f IH]; intros n acc Hn Hacc; [done|].
  cbn [digits_fuel].
  assert (Hmod : 0 ≤ n mod 10 ≤ 9) by (pose proof (Z.mod_pos_bound n 10); lia).
  destruct (n <? 10).
  - by rewrite plain_digit_char.
  - apply IH; [apply Z.div_pos; lia|]. by rewrite plain_digit_char.
Qed.

Lemma plain_show_int (z : Z) : plain (show_int z) = true.
Proof.
  unfold show_int, show_nat. destruct (z <? 0) eqn:Hz.
  - apply Z.ltb_lt in Hz. cbn [plain]. apply plain_digits_fuel; [lia|done].
  - apply Z.ltb_ge in Hz. by apply plain_digits_fuel.
Qed.

Lemma show_int_nonempty (z : Z) : show_int z ≠ ""%string.
Proof.
  unfold show_int, show_nat. destruct (z <? 0) eqn:Hz; [done|].
  apply Z.ltb_ge in Hz.
  destruct (digits_fuel_head (Z.to_nat (Z.log2 z)) z "" Hz) as (d & r & _ & ->).
  done.
Qed.

Lemma stoi_digits (d : Z) (r : string) :
  0 ≤ d ≤ 9 →
  stoi (String (digit_char d) r)
  = (let v := read_digits 0 (String (digit_char d) r) in
     if (INT_MIN <=? v) && (v <=? INT_MAX) then inr v else inl out_of_range).
Proof.
  intros Hd. destruct (digit_cases d Hd)
    as [->|[->|[->|[->|[->|[->|[->|[->|[->| ->]]]]]]]]]; reflexivity.
Qed.

Lemma stoi_minus_digits (d : Z) (r : string) :
  0 ≤ d ≤ 9 →
  stoi (String "-" (String (digit_char d) r))
  = (let v := - read_digits 0 (String (digit_char d) r) in
     if (INT_MIN <=? v) && (v <=? INT_MAX) then inr v else inl out_of_range).
Proof.
  intros Hd. destruct (digit_cases d Hd)
    as [->|[->|[->|[->|[->|[->|[->|[->|[->| ->]]]]]]]]]; reflexivity.
Qed.

(** [std::stoi] reads back what [operator<<] wrote. *)
Lemma stoi_show_int (z : Z) :
  INT_MIN ≤ z ≤ INT_MAX → stoi (show_int z) = inr z.
Proof.
  intros Hz.
  assert (Hr : (INT_MIN <=? z) && (z <=? INT_MAX) = true).
  { apply andb_true_iff. split; apply Z.leb_le; lia. }
  unfold show_int. destruct (z <? 0) eqn:Hneg.
  - apply Z.ltb_lt in Hneg.
    assert (Hn : 0 ≤ - z) by lia.
    pose proof (read_show_nat (- z) Hn) as Hread.
    unfold show_nat in *.
    destruct (digits_fuel_head (Z.to_nat (Z.log2 (- z))) (- z) "" Hn)
      as (d & r & Hd & Heq).
    rewrite Heq in Hread |- *. rewrite stoi_minus_digits by done.
    cbn zeta. rewrite Hread. replace (- - z) with z by lia. by rewrite Hr.
  - apply Z.ltb_ge in Hneg.
    pose proof (read_show_nat z Hneg) as Hread.
    unfold show_nat in *.
    destruct (digits_fuel_head (Z.to_nat (Z.log2 z)) z "" Hneg)
      as (d & r & Hd & Heq).
    rewrite Heq in Hread |- *. rewrite stoi_digits by done.
    cbn zeta. rewrite Hread. by rewrite Hr.
Qed.
End decimal.

(** ** Verification: lines of the snapshot *)

Section lines.
Local Open Scope string_scope.
Import Legacy.

Lemma append_cons (c : ascii) (a b : string) :
  String c a ++ b = String c (a ++ b).
Proof. reflexivity. Qed.

Lemma append_nil_l (b : string) : "" ++ b = b.
Proof. reflexivity. Qed.

Lemma append_nil_r (a : string) : a ++ "" = a.
Proof.
  induction a as [|c a IH]; [done|]. by rewrite append_cons, IH.
Qed.

Lemma append_assoc (a b c : string) : (a ++ b) ++ c = a ++ b ++ c.
Proof.
  induction a as [|x a IH]; [done|]. by rewrite !append_cons, IH.
Qed.

Lemma plain_one_line (a : string) : plain a = true → one_line a = true.
Proof.
  induction a as [|c a IH]; cbn [plain one_line]; [done|].
  intros [[_ Hn]%andb_true_iff Ha]%andb_true_iff.
  rewrite Hn. by apply IH.
Qed.

Lemma one_line_app (a b : string) :
  one_line (a ++ b) = one_line a && one_line b.
Proof.
  induction a as [|c a IH]; [done|].
  rewrite append_cons. cbn [one_line]. rewrite IH.
  by rewrite andb_assoc.
Qed.

Lemma find_colon_app (a b : string) :
  plain a = true → find_colon (a ++ String ":" b) = Some (String.length a).
Proof.
  induction a as [|c a IH]; [done|].
  rewrite append_cons. cbn [plain find_colon String.length].
  intros [[Hc _]%andb_true_iff Ha]%andb_true_iff.
  apply negb_true_iff in Hc. rewrite Hc. by rewrite IH.
Qed.

Lemma substr_to_app (a b : string) : substr_to (String.length a) (a ++ b) = a.
Proof.
  induction a as [|c a IH]; [by destruct b|].
  rewrite append_cons. cbn [String.length substr_to]. by rewrite IH.
Qed.

Lemma substr_from_app (a : string) (c : ascii) (b : string) :
  substr_from (String.length a + 1) (a ++ String c b) = b.
Proof.
  induction a as [|x a IH]; [done|].
  rewrite append_cons. cbn [String.length Nat.add substr_from]. by rewrite IH.
Qed.

Lemma getlines_line (a : string) : ∀ (cur rest : string),
  one_line a = true →
  getlines cur (a ++ String newline rest) = (cur ++ a) :: getlines "" rest.
Proof.
  induction a as [|c a IH]; intros cur rest Ha.
  - rewrite append_nil_l, append_nil_r. cbn [getlines].
    by rewrite Ascii.eqb_refl.
  - rewrite append_cons. cbn [getlines one_line] in *.
    apply andb_true_iff in Ha as [Hc Ha].
    apply negb_true_iff in Hc. rewrite Hc.
    rewrite IH by done. by rewrite append_assoc.
Qed.

Lemma dump_line_text (kv : Z * Z) (rest : string) :
  dump_line kv ++ rest = pair_text kv ++ String newline rest.
Proof.
  unfold dump_line, pair_text. by rewrite !append_assoc.
Qed.

Lemma one_line_pair_text (kv : Z * Z) : one_line (pair_text kv) = true.
Proof.
  unfold pair_text. rewrite !one_line_app.
  rewrite (plain_one_line _ (plain_show_int kv.1)).
  by rewrite (plain_one_line _ (plain_show_int kv.2)).
Qed.

Lemma getlines_dump (pairs : list (Z * Z)) :
  getlines "" (foldr (λ kv text, dump_line kv ++ text) "" pairs)
  = pair_text <$> pairs.
Proof.
  induction pairs as [|kv pairs IH]; [done|].
  cbn [foldr fmap list_fmap]. rewrite dump_line_text.
  rewrite getlines_line by apply one_line_pair_text.
  by rewrite IH.
Qed.

Lemma segments_pair_text (kv : Z * Z) :
  find_colon (pair_text kv) = Some (String.length (show_int kv.1))
  ∧ key_segment (pair_text kv) = show_int kv.1
  ∧ value_segment (pair_text kv) = show_int kv.2.
Proof.
  unfold key_segment, value_segment, pair_text.
  change (show_int kv.1 ++ ":" ++ show_int kv.2)
    with (show_int kv.1 ++ String ":" (show_int kv.2)).
  rewrite find_colon_app by apply plain_show_int.
  by rewrite substr_to_app, substr_from_app.
Qed.

Lemma record_of_pair_text (kv : Z * Z) :
  (INT_MIN ≤ kv.1 ≤ INT_MAX)%Z → (INT_MIN ≤ kv.2 ≤ INT_MAX)%Z →
  record_of (pair_text kv) = Some kv.
Proof.
  intros Hk Hv. destruct (segments_pair_text kv) as (Hf & Hks & Hvs).
  unfold record_of, skipped. rewrite Hf, Hks, Hvs.
  rewrite !bool_decide_eq_false_2; [|apply show_int_nonempty..|done].
  cbn [orb]. rewrite !stoi_show_int by done. by destruct kv.
Qed.
End lines.

(** ** Verification: the older class and its text snapshot *)

Section legacy_runs.
Context {G : Type}.
Variable rand_bit : G → bool * G.
Variable value_first : bool.
Local Open Scope string_scope.
Implicit Types (s : skip_list Z G) (L : list (entry Z)).

Lemma wrap_ok_int n : wrap_ok Legacy.to_int n.
Proof. by intros i _. Qed.

Lemma legacy_wf_init (k0 v0 : Z) (max_level : nat) (g : G) :
  legacy_wf (Legacy.SkipList k0 v0 max_level g) [].
Proof.
  eexists. split; [|done].
  unfold Legacy.SkipList, alloc. rewrite dom_empty_L.
  apply Inv_new. apply wrap_ok_int.
Qed.

Lemma insert_element_spec s L key value :
  legacy_wf s L →
  ∃ r s' L',
    Legacy.insert_element rand_bit true key value s = Ok (Returned r s')
    ∧ legacy_wf s' L'
    ∧ (∀ k, assoc k L'
            = if bool_decide (k = key) then Some value else assoc k L)
    ∧ max_level_ s' = max_level_ s
    ∧ r = match assoc key L with Some _ => 1 | None => 0 end.
Proof.
  intros (hd & HInv & Hm).
  unfold Legacy.insert_element, mutex_lock. rewrite Hm. cbn [mbind res_bind].
  destruct (put_body_spec rand_bit Legacy.to_int _ hd L key value
              (Inv_set_mutex _ true s hd L HInv))
    as (r & s' & L' & Hrun & HInv' & Hassoc & Hml & _ & _ & Hr).
  { intros _. apply wrap_ok_int. }
  rewrite Hrun. cbn [mbind res_bind].
  eexists r, _, L'. split; [done|]. split_and!; [|done|done|done].
  exists hd. split; [by apply Inv_set_mutex|done].
Qed.

Lemma delete_element_spec s L key :
  legacy_wf s L →
  ∃ s' L',
    Legacy.delete_element key s = Ok s'
    ∧ legacy_wf s' L'
    ∧ (∀ k, assoc k L' = if bool_decide (k = key) then None else assoc k L)
    ∧ max_level_ s' = max_level_ s.
Proof.
  intros (hd & HInv & Hm).
  unfold Legacy.delete_element, mutex_lock. rewrite Hm. cbn [mbind res_bind].
  destruct (remove_body_spec Legacy.to_int _ hd L key
              (Inv_set_mutex _ true s hd L HInv))
    as (b & s' & L' & Hrun & HInv' & Hassoc & Hml & _).
  rewrite Hrun. cbn [mbind res_bind].
  eexists _, L'. split; [done|]. split_and!; [|done|done].
  exists hd. split; [by apply Inv_set_mutex|done].
Qed.

Lemma search_element_spec s L key value :
  legacy_wf s L →
  Legacy.search_element key value s
  = Ok (match assoc key L with Some v => (true, v) | None => (false, value) end).
Proof.
  intros (hd & HInv & _). unfold Legacy.search_element.
  by rewrite (get_body_spec Legacy.to_int s hd L key HInv).
Qed.

Lemma legacy_reachable_wf k0 v0 max_level g s :
  legacy_reachable rand_bit k0 v0 max_level g s →
  ∃ L, legacy_wf s L ∧ ranged L.
Proof.
  induction 1 as [|s key value r s' _ (L & Hwf & Hr) Hk Hv Hrun
                  |s key s' _ (L & Hwf & Hr) Hrun].
  - exists []. split; [apply legacy_wf_init|]. by intros k v.
  - destruct (insert_element_spec s L key value Hwf)
      as (r' & s1 & L' & Hrun' & Hwf' & Hassoc & _).
    rewrite Hrun in Hrun'. simplify_eq. exists L'. split; [done|].
    intros k v. rewrite Hassoc. case_bool_decide; [|by apply Hr].
    by intros; simplify_eq.
  - destruct (delete_element_spec s L key Hwf)
      as (s1 & L' & Hrun' & Hwf' & Hassoc & _).
    rewrite Hrun in Hrun'. simplify_eq. exists L'. split; [done|].
    intros k v. rewrite Hassoc. case_bool_decide; [done|by apply Hr].
Qed.

Lemma get_key_value_cases (line key value : string) :
  (Legacy.find_colon line = None
   ∧ Legacy.get_key_value_from_string line key value = (key, value))
  ∨ (is_Some (Legacy.find_colon line)
     ∧ Legacy.get_key_value_from_string line key value
       = (key_segment line, value_segment line)).
Proof.
  unfold Legacy.get_key_value_from_string, Legacy.is_valid_string,
    key_segment, value_segment.
  destruct (Legacy.find_colon line) as [n|] eqn:Hf.
  - right. split; [by eexists|]. destruct line as [|c line]; [done|].
    rewrite bool_decide_eq_false_2 by done.
    by rewrite bool_decide_eq_true_2 by by eexists.
  - left. split; [done|].
    rewrite (bool_decide_eq_false_2 (is_Some None)) by by intros [? ?].
    by rewrite andb_false_r.
Qed.

Lemma load_model_cons (line : string) (lines : list string) (m : gmap Z Z) :
  load_model (line :: lines) m
  = load_model lines (match record_of line with
                      | Some (k, v) => <[k:=v]> m
                      | None => m
                      end).
Proof. done. Qed.

Lemma load_model_snoc (lines : list string) (line : string) (m : gmap Z Z) :
  load_model (lines ++ [line]) m
  = match record_of line with
    | Some (k, v) => <[k:=v]> (load_model lines m)
    | None => load_model lines m
    end.
Proof. unfold load_model. by rewrite fold_left_app. Qed.

(** The pairs of the lines come on top of the map there was. *)
Lemma load_model_over (lines : list string) (m : gmap Z Z) (key : Z) :
  load_model lines m !! key
  = match load_model lines ∅ !! key with
    | Some v => Some v
    | None => m !! key
    end.
Proof.
  induction lines as [|line lines IH] using rev_ind; [done|].
  rewrite !load_model_snoc. destruct (record_of line) as [[k v]|]; [|done].
  destruct (decide (k = key)) as [->|Hne].
  - by rewrite !lookup_insert_eq.
  - by rewrite !lookup_insert_ne.
Qed.

Lemma stoi_args_inr (vf : bool) (key value : string) (k v : Z) :
  Legacy.stoi key = inr k → Legacy.stoi value = inr v →
  Legacy.stoi_args vf key value = inr (k, v).
Proof. intros Hk Hv. unfold Legacy.stoi_args. rewrite Hk, Hv. by destruct vf. Qed.

(** The loop of [load_file] over lines it gets past. *)
Lemma load_lines_app (lines : list string) :
  ∀ rest key value out s L (m : gmap Z Z),
    legacy_wf s L → (∀ k, assoc k L = m !! k) → stale_ok key value L →
    Forall loadable lines → Forall is_message out →
    ∃ key' value' out' s' L',
      Legacy.load_lines rand_bit value_first (lines ++ rest) key value out s
      = Legacy.load_lines rand_bit value_first rest key' value' out' s'
      ∧ legacy_wf s' L'
      ∧ (∀ k, assoc k L' = load_model lines m !! k)
      ∧ stale_ok key' value' L'
      ∧ Forall is_message out'
      ∧ max_level_ s' = max_level_ s.
Proof.
  induction lines as [|line lines IH];
    intros rest key value out s L m Hwf Hm Hst Hload Hout.
  { by exists key, value, out, s, L. }
  apply Forall_cons in Hload as [Hline Hload].
  rewrite load_model_cons. cbn [app Legacy.load_lines].
  destruct (get_key_value_cases line key value) as [[Hf Hg]|[Hf Hg]];
    rewrite Hg.
  - assert (Hrec : record_of line = None).
    { unfold record_of, skipped. by rewrite Hf. }
    rewrite Hrec.
    destruct (bool_decide (key = "") || bool_decide (value = "")) eqn:Hemp.
    { by apply (IH rest key value out s L m). }
    apply orb_false_elim in Hemp as [Hk%bool_decide_eq_false
                                     Hv%bool_decide_eq_false].
    destruct Hst as [?|[?|(k & v & Hsk & Hsv & Hkv)]]; [done|done|].
    rewrite (stoi_args_inr value_first key value k v Hsk Hsv).
    destruct (insert_element_spec s L k v Hwf)
      as (r & s1 & L1 & Hrun & Hwf1 & Hassoc & Hml & _).
    rewrite Hrun. cbn [mbind res_bind].
    destruct (IH rest key value
                (out ++ [Legacy.load_message key value])%list s1 L1 m)
      as (key' & value' & out' & s' & L' & Hrun' & H');
      [done| | |done| |].
    + intros j. rewrite Hassoc. case_bool_decide; [|done].
      subst j. by rewrite <- Hm.
    + right; right. exists k, v. split_and!; [done|done|].
      by rewrite Hassoc, bool_decide_eq_true_2.
    + apply Forall_app. split; [done|]. repeat constructor. by eexists _, _.
    + exists key', value', out', s', L'. split; [done|].
      destruct H' as (? & ? & ? & ? & ->). by split_and!.
  - destruct (bool_decide (key_segment line = "")
              || bool_decide (value_segment line = "")) eqn:Hemp.
    { assert (Hrec : record_of line = None).
      { unfold record_of, skipped. rewrite <- orb_assoc, Hemp.
        by rewrite orb_true_r. }
      rewrite Hrec.
      apply (IH rest _ _ out s L m); [done|done| |done|done].
      apply orb_true_iff in Hemp as [?%bool_decide_eq_true
                                    |?%bool_decide_eq_true];
        [by left|by right; left]. }
    assert (Hsk : skipped line = false).
    { unfold skipped. rewrite <- orb_assoc, Hemp, orb_false_r.
      apply bool_decide_eq_false. by destruct Hf as [n ->]. }
    destruct Hline as [Hs|[[k v] Hrec]]; [congruence|].
    rewrite Hrec. unfold record_of in Hrec. rewrite Hsk in Hrec.
    destruct (Legacy.stoi (key_segment line)) as [?|k'] eqn:Hstk; [done|].
    destruct (Legacy.stoi (value_segment line)) as [?|v'] eqn:Hstv; [done|].
    injection Hrec as -> ->.
    rewrite (stoi_args_inr value_first _ _ k v Hstk Hstv).
    destruct (insert_element_spec s L k v Hwf)
      as (r & s1 & L1 & Hrun & Hwf1 & Hassoc & Hml & _).
    rewrite Hrun. cbn [mbind res_bind].
    destruct (IH rest (key_segment line) (value_segment line)
                (out ++ [Legacy.load_message (key_segment line)
                           (value_segment line)])%list
                s1 L1 (<[k:=v]> m))
      as (key' & value' & out' & s' & L' & Hrun' & H');
      [done| | |done| |].
    + intros j. rewrite Hassoc. destruct (decide (j = k)) as [->|Hj].
      * by rewrite bool_decide_eq_true_2, lookup_insert_eq.
      * by rewrite bool_decide_eq_false_2, lookup_insert_ne.
    + right; right. exists k, v. split_and!; [done|done|].
      by rewrite Hassoc, bool_decide_eq_true_2.
    + apply Forall_app. split; [done|]. repeat constructor. by eexists _, _.
    + exists key', value', out', s', L'. split; [done|].
      destruct H' as (? & ? & ? & ? & ->). by split_and!.
Qed.

(** A line with two segments one of which [std::stoi] rejects ends
    [load_file] with the exception. *)
Lemma load_lines_throw (line : string) (post : list string)
    (key value : string) (out : list string) (s : skip_list Z G) :
  ¬ loadable line →
  ∃ e, Legacy.load_lines rand_bit value_first (line :: post) key value out s
       = Ok (Threw e s).
Proof.
  intros Hn. cbn [Legacy.load_lines].
  assert (Hsk : skipped line = false).
  { destruct (skipped line) eqn:Hs; [|done]. destruct Hn. by left. }
  assert (Hrec : record_of line = None).
  { destruct (record_of line) eqn:Hr; [|done]. destruct Hn. right. by eexists. }
  unfold record_of in Hrec. rewrite Hsk in Hrec.
  unfold skipped in Hsk.
  apply orb_false_elim in Hsk as [Hsk Hv%bool_decide_eq_false].
  apply orb_false_elim in Hsk as [Hf%bool_decide_eq_false
                                  Hk%bool_decide_eq_false].
  destruct (get_key_value_cases line key value) as [[Hf' Hg]|[Hf' Hg]];
    [done|]. rewrite Hg.
  rewrite !bool_decide_eq_false_2 by done. cbn [orb].
  unfold Legacy.stoi_args.
  destruct value_first;
    destruct (Legacy.stoi (key_segment line)) as [e1|k];
    destruct (Legacy.stoi (value_segment line)) as [e2|v];
    first [done|by eexists].
Qed.

(** Two strictly sorted chains with the same lookups hold the same pairs
    in the same order. *)
Lemma sorted_assoc_ext (L1 : list (entry Z)) : ∀ L2 : list (entry Z),
  StronglySorted Z.lt (e_key <$> L1) → StronglySorted Z.lt (e_key <$> L2) →
  (∀ k, assoc k L1 = assoc k L2) →
  (λ e, (e_key e, e_val e)) <$> L1 = (λ e, (e_key e, e_val e)) <$> L2.
Proof.
  induction L1 as [|e1 L1 IH]; intros [|e2 L2] Hs1 Hs2 Heq.
  - done.
  - specialize (Heq (e_key e2)). simpl in Heq.
    by rewrite bool_decide_eq_true_2 in Heq.
  - specialize (Heq (e_key e1)). simpl in Heq.
    by rewrite bool_decide_eq_true_2 in Heq.
  - pose proof (sorted_tail_gt e1 L1 (e_key e1) Hs1 ltac:(lia)) as Hgt1.
    pose proof (sorted_tail_gt e2 L2 (e_key e2) Hs2 ltac:(lia)) as Hgt2.
    assert (Hk : e_key e1 = e_key e2).
    { destruct (Z.lt_trichotomy (e_key e1) (e_key e2)) as [Hlt|[Hk|Hlt]];
        [|done|].
      - specialize (Heq (e_key e1)). simpl in Heq.
        rewrite bool_decide_eq_true_2 in Heq by done.
        rewrite bool_decide_eq_false_2 in Heq by lia.
        rewrite assoc_gt in Heq; [done|].
        eapply Forall_impl; [exact Hgt2|]. intros e He. simpl in He. lia.
      - specialize (Heq (e_key e2)). simpl in Heq.
        rewrite (bool_decide_eq_true_2 (e_key e2 = e_key e2)) in Heq by done.
        rewrite bool_decide_eq_false_2 in Heq by lia.
        rewrite assoc_gt in Heq; [done|].
        eapply Forall_impl; [exact Hgt1|]. intros e He. simpl in He. lia. }
    assert (Hv : e_val e1 = e_val e2).
    { specialize (Heq (e_key e1)). simpl in Heq.
      rewrite !bool_decide_eq_true_2 in Heq by done. by simplify_eq. }
    rewrite !fmap_cons, Hk, Hv. f_equal.
    rewrite !fmap_cons in Hs1, Hs2.
    apply StronglySorted_cons in Hs1 as [_ Hs1].
    apply StronglySorted_cons in Hs2 as [_ Hs2].
    apply IH; [done|done|]. intros k.
    destruct (decide (e_key e1 = k)) as [<-|Hne].
    + rewrite assoc_gt by done. symmetry. apply assoc_gt. by rewrite Hk.
    + specialize (Heq k). simpl in Heq.
      rewrite !bool_decide_eq_false_2 in Heq by congruence. done.
Qed.

Lemma ranged_Forall (L : list (entry Z)) :
  StronglySorted Z.lt (e_key <$> L) → ranged L →
  Forall (λ e, in_int (e_key e) ∧ in_int (e_val e)) L.
Proof.
  induction L as [|e L IH]; intros Hs Hr; [done|].
  pose proof (sorted_tail_gt e L (e_key e) Hs ltac:(lia)) as Hgt.
  rewrite fmap_cons in Hs. apply StronglySorted_cons in Hs as [_ Hs].
  constructor.
  - apply Hr. simpl. by rewrite bool_decide_eq_true_2.
  - apply IH; [done|]. intros k v Hkv. apply Hr. simpl.
    case_bool_decide as Hk; [|done]. subst k.
    by rewrite assoc_gt in Hkv.
Qed.

(** Reading back the lines of a dump puts the pairs of the chain. *)
Lemma load_model_pairs (L : list (entry Z)) : ∀ (m : gmap Z Z) (key : Z),
  StronglySorted Z.lt (e_key <$> L) →
  Forall (λ e, in_int (e_key e) ∧ in_int (e_val e)) L →
  load_model (pair_text <$> ((λ e, (e_key e, e_val e)) <$> L)) m !! key
  = match assoc key L with Some v => Some v | None => m !! key end.
Proof.
  induction L as [|e L IH]; intros m key Hs Hr; [done|].
  pose proof (sorted_tail_gt e L (e_key e) Hs ltac:(lia)) as Hgt.
  rewrite fmap_cons in Hs. apply StronglySorted_cons in Hs as [_ Hs].
  apply Forall_cons in Hr as [[Hk Hv] Hr].
  rewrite !fmap_cons, load_model_cons.
  rewrite record_of_pair_text by done.
  rewrite IH by done. cbn [assoc fst snd].
  destruct (decide (e_key e = key)) as [<-|Hne].
  - by rewrite bool_decide_eq_true_2, assoc_gt, lookup_insert_eq.
  - rewrite bool_decide_eq_false_2 by done.
    by rewrite lookup_insert_ne.
Qed.

Lemma loadable_pairs (L : list (entry Z)) :
  Forall (λ e, in_int (e_key e) ∧ in_int (e_val e)) L →
  Forall loadable (pair_text <$> ((λ e, (e_key e, e_val e)) <$> L)).
Proof.
  intros Hr. rewrite <- list_fmap_compose. apply Forall_fmap.
  eapply Forall_impl; [exact Hr|]. intros e [Hk Hv]. right.
  simpl. rewrite record_of_pair_text by done. by eexists.
Qed.

(** C4, as the code has it: [load_file] on a list a program holds, the
    store file being there.  When every line of the file is skipped (no
    [:], or an empty key or value segment) or has two segments [std::stoi]
    accepts, [load_file] returns with the stream closed, writes nothing but
    messages for pairs it put (no diagnostic for a skipped line), and
    afterwards a search finds for each key the pair of the last line that
    stands for that key, or what the list held when no line does: skipped
    lines change nothing, later lines win.  At the first line with two
    segments one of which [std::stoi] rejects, [load_file] ends with the
    exception. *)
Theorem legacy_load_file (k0 v0 : Z) (max_level : nat) (g : G)
    (s : skip_list Z G) (file : string) :
  legacy_reachable rand_bit k0 v0 max_level g s →
  (Forall loadable (Legacy.getlines "" file) →
   ∃ out s',
     Legacy.load_file rand_bit value_first (Some file) (s, false)
     = Ok (Returned out (s', false))
     ∧ Forall is_message out
     ∧ ∀ key value,
         Legacy.search_element key value s'
         = match load_model (Legacy.getlines "" file) ∅ !! key with
           | Some v => Ok (true, v)
           | None => Legacy.search_element key value s
           end)
  ∧ (∀ pre line post,
       Legacy.getlines "" file = (pre ++ line :: post)%list →
       Forall loadable pre → ¬ loadable line →
       ∃ e st',
         Legacy.load_file rand_bit value_first (Some file) (s, false)
         = Ok (Threw e st')).
Proof.
  intros (L & Hwf & _)%legacy_reachable_wf.
  set (m := list_to_map ((λ e, (e_key e, e_val e)) <$> L) : gmap Z Z).
  assert (Hm : ∀ k, assoc k L = m !! k).
  { intros k. unfold m. clear. induction L as [|e L IH]; [done|].
    rewrite fmap_cons. cbn [list_to_map foldr assoc fst snd].
    destruct (decide (e_key e = k)) as [<-|Hne].
    - by rewrite bool_decide_eq_true_2, lookup_insert_eq.
    - by rewrite bool_decide_eq_false_2, lookup_insert_ne. }
  split.
  - intros Hload.
    destruct (load_lines_app (Legacy.getlines "" file) [] "" "" [] s L m)
      as (key' & value' & out & s' & L' & Hrun & Hwf' & Hassoc & _ & Hout & _);
      [done|done|by left|done|done|].
    rewrite app_nil_r in Hrun. exists out, s'.
    split; [unfold Legacy.load_file; cbn [fst snd]; by rewrite Hrun|].
    split; [done|]. intros key value.
    rewrite (search_element_spec s' L' key value Hwf'), Hassoc.
    rewrite load_model_over.
    destruct (load_model (Legacy.getlines "" file) ∅ !! key); [done|].
    by rewrite (search_element_spec s L key value Hwf), Hm.
  - intros pre line post Hlines Hpre Hline.
    destruct (load_lines_app pre (line :: post) "" "" [] s L m)
      as (key' & value' & out & s' & L' & Hrun & _);
      [done|done|by left|done|done|].
    destruct (load_lines_throw line post key' value' out s' Hline)
      as (e & Hthrow).
    exists e, (s', true). unfold Legacy.load_file. cbn [fst snd].
    by rewrite Hlines, Hrun, Hthrow.
Qed.

(** C5, as the code has it: [dump_file] and then [load_file] into a new
    list, for keys and values of type [int].  A list a program holds is
    written as a text; [load_file] on that text, into a list just built,
    returns a list with the same level-0 chain (the same pairs, in the same
    order), the same size and the same answer to every search. *)
Theorem legacy_dump_load_round_trip (k0 v0 : Z) (max_level : nat) (g : G)
    (s : skip_list Z G) :
  legacy_reachable rand_bit k0 v0 max_level g s →
  ∃ file pairs,
    Legacy.dump_file s = Ok file
    ∧ level0_chain s = Ok pairs
    ∧ ∀ (k1 v1 : Z) (max_level1 : nat) (g1 : G),
        ∃ out s',
          Legacy.load_file rand_bit value_first (Some file)
            (Legacy.SkipList k1 v1 max_level1 g1, false)
          = Ok (Returned out (s', false))
          ∧ level0_chain s' = Ok pairs
          ∧ Legacy.size s' = Legacy.size s
          ∧ ∀ key value,
              Legacy.search_element key value s'
              = Legacy.search_element key value s.
Proof.
  intros (L & Hwf & Hr)%legacy_reachable_wf.
  pose proof Hwf as (hd & HInv & Hmx).
  pose proof (level0_chain_spec Legacy.to_int s hd L HInv) as Hchain.
  assert (Hs : StronglySorted Z.lt (e_key <$> L)) by by destruct HInv.
  pose proof (ranged_Forall L Hs Hr) as Hrange.
  eexists _, _. unfold Legacy.dump_file. rewrite Hchain. cbn [mbind res_bind].
  split; [done|]. split; [done|]. intros k1 v1 max_level1 g1.
  unfold Legacy.load_file. cbn [fst snd]. rewrite getlines_dump.
  destruct (load_lines_app
              (pair_text <$> ((λ e, (e_key e, e_val e)) <$> L)) [] "" "" []
              (Legacy.SkipList k1 v1 max_level1 g1) [] ∅)
    as (key' & value' & out & s' & L' & Hrun & Hwf' & Hassoc & _);
    [apply legacy_wf_init|done|by left|by apply loadable_pairs|done|].
  rewrite app_nil_r in Hrun. exists out, s'. split; [by rewrite Hrun|].
  pose proof Hwf' as (hd' & HInv' & _).
  assert (Heq : ∀ k, assoc k L' = assoc k L).
  { intros k. rewrite Hassoc, load_model_pairs by done.
    by destruct (assoc k L). }
  assert (Hpairs : (λ e, (e_key e, e_val e)) <$> L'
                   = (λ e, (e_key e, e_val e)) <$> L).
  { apply sorted_assoc_ext; [by destruct HInv'|done|done]. }
  split_and!.
  - by rewrite (level0_chain_spec Legacy.to_int s' hd' L' HInv'), Hpairs.
  - unfold Legacy.size. destruct HInv, HInv'.
    rewrite inv_count0, inv_count1.
    by rewrite <- (length_fmap (λ e, (e_key e, e_val e)) L'), Hpairs,
         length_fmap.
  - intros key value.
    by rewrite (search_element_spec s' L' key value Hwf'),
         (search_element_spec s L key value Hwf), Heq.
Qed.
End legacy_runs.

(** *** The older class on examples *)

Lemma legacy_two_reachable :
  legacy_reachable tape_draw 0%Z 0%Z 3 [true; false; true; true; false]
    legacy_two.
Proof.
  apply (lreach_insert tape_draw _ _ _ _ legacy_one 7%Z 70%Z 0 legacy_two);
    [|by vm_compute|by vm_compute|vm_compute; reflexivity].
  apply (lreach_insert tape_draw _ _ _ _ legacy_example 5%Z 50%Z 0 legacy_one);
    [|by vm_compute|by vm_compute|vm_compute; reflexivity].
  apply lreach_init.
Defined.

(** C4 fails as stated.  A file whose only line has no [:] is read without
    anything being reported.  The line [a:b] has a delimiter and two
    segments that are not empty, and [load_file] ends with the exception
    of [std::stoi] instead of putting a pair. *)
Lemma legacy_load_reports_nothing :
  (∀ vf, Legacy.load_file tape_draw vf (Some "bad"%string)
           (legacy_example, false)
         = Ok (Returned [] (legacy_example, false)))
  ∧ (∀ vf, Legacy.load_file tape_draw vf (Some "a:b"%string)
             (legacy_example, false)
           = Ok (Threw invalid_argument (legacy_example, true))).
Proof. split; intros []; vm_compute; reflexivity. Defined.

Lemma legacy_load_file_witness :
  legacy_reachable tape_draw 0%Z 0%Z 3 [true; false; true; true; false]
    legacy_example
  ∧ Forall loadable (Legacy.getlines "" legacy_file)
  ∧ (∃ out s',
       Legacy.load_file tape_draw true (Some legacy_file)
         (legacy_example, false)
       = Ok (Returned out (s', false))
       ∧ Forall is_message out
       ∧ Legacy.search_element 5%Z 0%Z s' = Ok (true, 50%Z)
       ∧ Legacy.search_element 7%Z 0%Z s' = Ok (true, 70%Z)
       ∧ Legacy.search_element 40%Z 0%Z s' = Ok (false, 0%Z))
  ∧ ¬ loadable "a:b"
  ∧ ∃ e st',
      Legacy.load_file tape_draw true (Some "a:b"%string)
        (legacy_example, false)
      = Ok (Threw e st').
Proof.
  assert (Hreach : legacy_reachable tape_draw 0%Z 0%Z 3
                     [true; false; true; true; false] legacy_example)
    by apply lreach_init.
  assert (Hlines : Legacy.getlines "" legacy_file
                   = ["5:50"; ""; ":40"; "bad"; "7:70"]%string)
    by (vm_compute; reflexivity).
  assert (Hload : Forall loadable (Legacy.getlines "" legacy_file)).
  { rewrite Hlines.
    repeat (constructor;
            [first [by left; vm_compute
                   |by right; vm_compute; eexists]|]).
    constructor. }
  assert (Hbad : ¬ loadable "a:b").
  { intros [H|[kv H]]; vm_compute in H; discriminate H. }
  destruct (legacy_load_file tape_draw true 0%Z 0%Z 3
              [true; false; true; true; false] legacy_example legacy_file
              Hreach) as [Hgood _].
  destruct (legacy_load_file tape_draw true 0%Z 0%Z 3
              [true; false; true; true; false] legacy_example "a:b"
              Hreach) as [_ Hthrow].
  destruct (Hgood Hload) as (out & s' & Hrun & Hout & Hsearch).
  split_and!; [done|done| |done|].
  - exists out, s'. split_and!; [done|done|..]; rewrite Hsearch, Hlines;
      vm_compute; reflexivity.
  - apply (Hthrow [] "a:b"%string []); [vm_compute; reflexivity|constructor|done].
Defined.

(** C5 fails as stated for values beyond [int]: with values of type
    [long] the list that holds [1 -> 2147483648] is written as one line,
    in which there is no [:] but the delimiter, and [load_file] ends on
    that line with [std::out_of_range]; nothing has been loaded. *)
Lemma legacy_round_trip_needs_int :
  Legacy.search_element 1%Z 0%Z legacy_long = Ok (true, 2147483648%Z)
  ∧ Legacy.dump_file legacy_long
    = Ok ("1:2147483648" ++ String Legacy.newline "")%string
  ∧ ∀ vf,
      Legacy.load_file tape_draw vf
        (Some ("1:2147483648" ++ String Legacy.newline "")%string)
        (legacy_example, false)
      = Ok (Threw out_of_range (legacy_example, true)).
Proof.
  split_and!; [vm_compute; reflexivity..|].
  intros []; vm_compute; reflexivity.
Defined.

Lemma legacy_dump_load_round_trip_witness :
  legacy_reachable tape_draw 0%Z 0%Z 3 [true; false; true; true; false]
    legacy_two
  ∧ ∃ file pairs,
      Legacy.dump_file legacy_two = Ok file
      ∧ level0_chain legacy_two = Ok pairs
      ∧ ∀ (k1 v1 : Z) (max_level1 : nat) (g1 : list bool),
          ∃ out s',
            Legacy.load_file tape_draw true (Some file)
              (Legacy.SkipList k1 v1 max_level1 g1, false)
            = Ok (Returned out (s', false))
            ∧ level0_chain s' = Ok pairs
            ∧ Legacy.size s' = Legacy.size legacy_two
            ∧ ∀ key value,
                Legacy.search_element key value s'
                = Legacy.search_element key value legacy_two.
Proof.
  split; [apply legacy_two_reachable|].
  apply (legacy_dump_load_round_trip tape_draw true 0%Z 0%Z 3
           [true; false; true; true; false] legacy_two).
  apply legacy_two_reachable.
Defined.

(** ** Verification: what [XSFSkipList] keeps in the store *)

Section xsf_store.
Context {V G : Type}.
Variable mt19937 : Z → G.
Variable bernoulli : G → bool * G.
Implicit Types (s : skip_list V G) (L : list (entry V)).

Lemma assoc_list_to_map L (k : Z) :
  assoc k L
  = (list_to_map ((λ e, (e_key e, e_val e)) <$> L) : gmap Z V) !! k.
Proof.
  induction L as [|e L IH]; [done|].
  rewrite fmap_cons. cbn [list_to_map foldr assoc fst snd].
  destruct (decide (e_key e = k)) as [<-|Hne].
  - by rewrite bool_decide_eq_true_2, lookup_insert_eq.
  - by rewrite bool_decide_eq_false_2, lookup_insert_ne.
Qed.

(** A sorted chain has as many entries as the map it stands for has
    keys. *)
Lemma sorted_length_size L (m : gmap Z V) :
  StronglySorted Z.lt (e_key <$> L) → (∀ k, assoc k L = m !! k) →
  length L = size m.
Proof.
  intros Hs Hm.
  assert (m = list_to_map ((λ e, (e_key e, e_val e)) <$> L)) as ->.
  { apply map_eq. intros k. by rewrite <- Hm, assoc_list_to_map. }
  rewrite map_size_list_to_map, length_fmap; [done|].
  rewrite <- list_fmap_compose. by apply sorted_NoDup.
Qed.

(** X1. After any sequence of operations [size] is the number of keys
    that are live: the keys of the map the sequence describes. *)
Theorem xsf_size_counts_keys (k0 : Z) (v0 : V) (max_level : nat) (seed : Z)
    (ops : list (op V)) s :
  run bernoulli ops (XSF.XSFSkipList mt19937 k0 v0 max_level seed)
  = Ok (Returned () s) →
  XSF.size s = size (model ops).
Proof.
  intros Hrun.
  destruct (run_sound bernoulli ops _ [] ∅ s
              (xsf_wf_init mt19937 k0 v0 max_level seed))
    as (L & (hd & HInv & _) & Hassoc); [|done|].
  { intros k. by rewrite lookup_empty. }
  unfold XSF.size.
  destruct HInv as [_ _ _ _ _ _ Hsort _ _ Hcount _].
  rewrite Hcount. by apply sorted_length_size.
Qed.

(** X2. In a reachable state the store holds the header and the nodes of
    the level-0 chain, each once, and nothing else: no node has leaked,
    none is linked twice, and there are [size + 1] nodes. *)
Theorem xsf_store_is_chain (k0 : Z) (v0 : V) (max_level : nat) (seed : Z) s :
  reachable mt19937 bernoulli k0 v0 max_level seed s →
  ∃ nodes,
    level0_nodes s = Ok nodes
    ∧ NoDup (header_ s :: nodes)
    ∧ dom (store_ s) = list_to_set (header_ s :: nodes)
    ∧ size (store_ s) = XSF.size s + 1.
Proof.
  intros (L & (hd & HInv & _) & _)%reachable_wf.
  exists (e_addr <$> L).
  rewrite (level0_nodes_spec XSF.to_uint8 s hd L HInv).
  pose proof (Inv_size XSF.to_uint8 s hd L HInv) as Hsize.
  destruct HInv as [_ Hnd Hdom _ Hha _ _ _ _ Hcount _].
  rewrite fmap_cons, Hha in Hnd, Hdom.
  split_and!; [done|done|done|].
  unfold XSF.size. rewrite <- Hsize, Hcount. simpl. lia.
Qed.

(** X3. In a reachable state every link leads somewhere sound: the node a
    forward pointer of level [j] points to is allocated, is not the
    header, is linked in at level [j] itself and, when the pointer belongs
    to a node other than the header, holds a greater key. *)
Theorem xsf_links_ascend (k0 : Z) (v0 : V) (max_level : nat) (seed : Z) s
    (a p : addr) (n : Node V) (j : nat) :
  reachable mt19937 bernoulli k0 v0 max_level seed s →
  store_ s !! a = Some n → forward_ n !! j = Some (Some p) →
  ∃ m, store_ s !! p = Some m
       ∧ j ≤ node_level_ m
       ∧ p ≠ header_ s
       ∧ (a ≠ header_ s → (key_ n < key_ m)%Z).
Proof.
  intros (L & (hd & HInv & _) & _)%reachable_wf Ha Hp.
  destruct HInv as [Hrep Hnd Hdom Hreg Hha _ Hsort _ _ _ _].
  assert (Hin : a ∈ dom (store_ s)) by (apply elem_of_dom; eauto).
  rewrite Hdom in Hin. apply elem_of_list_to_set in Hin.
  apply list_elem_of_fmap in Hin as (e & -> & He).
  apply list_elem_of_split in He as (l1 & l2 & Hsplit).
  rewrite (Hrep l1 e l2 Hsplit) in Ha. injection Ha as <-.
  cbn [node_of forward_ key_] in *.
  assert (Hfirst : first_at j l2 = Some p).
  { destruct (decide (j ≤ e_lvl e)) as [Hj|Hj].
    - rewrite fwd_of_lookup in Hp by done. injection Hp as Hp.
      by case_bool_decide.
    - by rewrite fwd_of_lookup_ge in Hp by lia. }
  apply first_at_Some in Hfirst as (m1 & e' & m2 & -> & <- & Hvis & _).
  assert (Hdeep : hd :: L = (l1 ++ e :: m1) ++ e' :: m2)
    by by rewrite <- app_assoc.
  exists (node_of e' m2). cbn [node_of node_level_ key_].
  assert (He'L : e' ∈ L).
  { destruct l1 as [|x l1]; simplify_eq/=; set_solver. }
  assert (He'reg : regular e').
  { rewrite Forall_forall in Hreg. apply Hreg. set_solver. }
  split_and!.
  - by apply (Hrep (l1 ++ e :: m1) e' m2).
  - by apply regular_vis_inv.
  - rewrite <- Hha. rewrite fmap_cons in Hnd.
    apply NoDup_cons in Hnd as [Hnotin _]. intros Heq. apply Hnotin.
    rewrite <- Heq. by apply list_elem_of_fmap_2.
  - intros Hne. destruct l1 as [|x l1].
    { simplify_eq/=. }
    injection Hsplit as -> ->.
    rewrite !fmap_app, fmap_cons, fmap_app, fmap_cons in Hsort.
    apply StronglySorted_app_1_r in Hsort.
    apply StronglySorted_cons in Hsort as [Hall _].
    rewrite Forall_app, Forall_cons in Hall. tauto.
Qed.
End xsf_store.

(** ** Verification: single operations of [XSFSkipList] *)

Section xsf_single.
Context {V G : Type}.
Variable mt19937 : Z → G.
Variable bernoulli : G → bool * G.
Implicit Types (s : skip_list V G) (L : list (entry V)).

Lemma below_not_key (key : Z) L :
  Forall (λ e, (e_key e < key)%Z) L → Forall (λ e, e_key e ≠ key) L.
Proof.
  intros H. eapply Forall_impl; [exact H|]. intros e He. simpl in He. lia.
Qed.

Lemma unlock_lock s :
  mutex_ s = false →
  mutex_unlock (mkSkipList (max_level_ s) (skip_list_level_ s) (header_ s)
                  (element_count_ s) true (gen_ s) (store_ s)) = s.
Proof. destruct s. simpl. by intros ->. Qed.

(** [put] of a key the list holds, with or without memory. *)
Lemma xsf_put_present s L key (v value : V) (mem : bool) :
  xsf_wf s L → assoc key L = Some v →
  ∃ s' L',
    XSF.put bernoulli mem key value s = Ok (Returned () s')
    ∧ xsf_wf s' L'
    ∧ (∀ k, assoc k L'
            = if bool_decide (k = key) then Some value else assoc k L)
    ∧ e_addr <$> L' = e_addr <$> L
    ∧ e_lvl <$> L' = e_lvl <$> L
    ∧ dom (store_ s') = dom (store_ s)
    ∧ element_count_ s' = element_count_ s
    ∧ gen_ s' = gen_ s
    ∧ skip_list_level_ s' = skip_list_level_ s.
Proof.
  intros (hd & HInv & Hm & Hle) Hv.
  assert (Hsort : StronglySorted Z.lt (e_key <$> L)) by by destruct HInv.
  destruct (hit_cases L key Hsort)
    as (Llt & Lge & -> & Hlt & Hge & [(q & Q & -> & Hq & _)|[_ Hnone]]);
    [|congruence].
  unfold XSF.put, mutex_lock. rewrite Hm. cbn [mbind res_bind].
  destruct (put_body_present bernoulli XSF.to_uint8 _ hd Llt (q :: Q) key
              value (Inv_set_mutex _ true s hd _ HInv) Hlt Hge mem q Q
              eq_refl Hq) as [Hrun HInv'].
  rewrite Hrun. cbn [mbind res_bind].
  eexists _, (Llt ++ with_val q value :: Q). split; [done|].
  simpl_fields. split_and!; try done.
  - exists hd. split_and!; [|done|done].
    by apply (Inv_set_mutex _ false) in HInv'.
  - intros k.
    by rewrite (assoc_update k key Llt q (with_val q value) Q)
      by (done || by apply below_not_key).
  - by rewrite !fmap_app, !fmap_cons.
  - by rewrite !fmap_app, !fmap_cons.
  - apply dom_insert_lookup_L.
    destruct HInv as [Hrep _ _ _ _ _ _ _ _ _ _].
    rewrite (Hrep (hd :: Llt) q Q eq_refl). by eexists.
Qed.

(** X4. [put] of a key the list holds changes the value in place: it
    returns even when there is no memory, allocates and releases nothing,
    draws no level, keeps the nodes of the level-0 chain, the size and the
    top level, and changes the result of [get] for that key only. *)
Theorem xsf_put_updates_in_place (k0 : Z) (v0 : V) (max_level : nat)
    (seed : Z) s (key : Z) (v value : V) (mem : bool) :
  reachable mt19937 bernoulli k0 v0 max_level seed s →
  XSF.get key s = Ok (Some v) →
  ∃ s', XSF.put bernoulli mem key value s = Ok (Returned () s')
        ∧ dom (store_ s') = dom (store_ s)
        ∧ level0_nodes s' = level0_nodes s
        ∧ XSF.size s' = XSF.size s
        ∧ gen_ s' = gen_ s
        ∧ skip_list_level_ s' = skip_list_level_ s
        ∧ XSF.get key s' = Ok (Some value)
        ∧ ∀ k, k ≠ key → XSF.get k s' = XSF.get k s.
Proof.
  intros (L & Hwf & _)%reachable_wf Hget.
  rewrite (xsf_get_spec s L key Hwf) in Hget. injection Hget as Hv.
  destruct (xsf_put_present s L key v value mem Hwf Hv)
    as (s' & L' & Hrun & Hwf' & Hassoc & Haddr & _ & Hdom & Hcount & Hgen
        & Htop).
  exists s'. split; [done|].
  pose proof Hwf as (hd & HInv & _). pose proof Hwf' as (hd' & HInv' & _).
  split_and!; try done.
  - by rewrite (level0_nodes_spec XSF.to_uint8 s' hd' L' HInv'),
         (level0_nodes_spec XSF.to_uint8 s hd L HInv), Haddr.
  - rewrite (xsf_get_spec s' L' key Hwf'), Hassoc.
    by rewrite bool_decide_eq_true_2.
  - intros k Hk.
    rewrite (xsf_get_spec s' L' k Hwf'), (xsf_get_spec s L k Hwf), Hassoc.
    by rewrite bool_decide_eq_false_2.
Qed.

(** [remove], by whether the list holds the key. *)
Lemma xsf_remove_cases s L key :
  xsf_wf s L →
  (assoc key L = None ∧ XSF.remove key s = Ok s)
  ∨ (∃ Llt q Q s',
       L = Llt ++ q :: Q ∧ e_key q = key ∧ assoc key L = Some (e_val q)
       ∧ Forall (λ e, e_key e ≠ key) (Llt ++ Q)
       ∧ XSF.remove key s = Ok s'
       ∧ xsf_wf s' (Llt ++ Q)
       ∧ skip_list_level_ s'
         = shrink_top (Llt ++ unlinking q (skip_list_level_ s + 1) :: Q)
             (skip_list_level_ s)
       ∧ element_count_ s' = element_count_ s - 1
       ∧ gen_ s' = gen_ s ∧ header_ s' = header_ s
       ∧ store_ s !! e_addr q = Some (node_of q Q)).
Proof.
  intros (hd & HInv & Hm & Hle).
  assert (Hsort : StronglySorted Z.lt (e_key <$> L)) by by destruct HInv.
  destruct (hit_cases L key Hsort)
    as (Llt & Lge & -> & Hlt & Hge & [(q & Q & -> & Hq & Hsome)|[Habs Hnone]]).
  - right. exists Llt, q, Q.
    unfold XSF.remove, mutex_lock. rewrite Hm. cbn [mbind res_bind].
    destruct (remove_body_present XSF.to_uint8 _ hd Llt q Q key
                (Inv_set_mutex _ true s hd _ HInv) Hlt Hq)
      as (h & Hrun & HInv').
    rewrite Hrun. cbn [mbind res_bind].
    apply (Inv_set_mutex _ false) in HInv'. simpl_fields in HInv'.
    eexists. split_and!; try done.
    + apply Forall_app. split; [by apply below_not_key|].
      rewrite fmap_app in Hsort. apply StronglySorted_app_1_r in Hsort.
      eapply Forall_impl; [apply (sorted_tail_gt q Q key); [done|lia]|].
      intros e He. simpl in He. lia.
    + exists hd. split_and!; [exact HInv'|done|done].
    + destruct HInv as [Hrep _ _ _ _ _ _ _ _ _ _].
      by apply (Hrep (hd :: Llt) q Q).
  - left. split; [done|].
    unfold XSF.remove, mutex_lock. rewrite Hm. cbn [mbind res_bind].
    rewrite (remove_body_absent XSF.to_uint8 _ hd Llt Lge key
               (Inv_set_mutex _ true s hd _ HInv) Hlt Hge Habs).
    cbn [mbind res_bind]. by rewrite unlock_lock.
Qed.

(** X5. [remove] of a key the list does not hold leaves the list exactly
    as it was. *)
Theorem xsf_remove_absent (k0 : Z) (v0 : V) (max_level : nat) (seed : Z) s
    (key : Z) :
  reachable mt19937 bernoulli k0 v0 max_level seed s →
  XSF.get key s = Ok None →
  XSF.remove key s = Ok s.
Proof.
  intros (L & Hwf & _)%reachable_wf Hget.
  rewrite (xsf_get_spec s L key Hwf) in Hget. injection Hget as Hnone.
  destruct (xsf_remove_cases s L key Hwf)
    as [[_ Hrun]|(Llt & q & Q & s' & _ & _ & Hsome & _)]; [done|congruence].
Qed.

(** X6. [remove] of a key the list holds releases the one node that holds
    it and no other: the store loses that address, [size] goes down by
    one, [get] finds the key no more and finds every other key as
    before. *)
Theorem xsf_remove_present (k0 : Z) (v0 : V) (max_level : nat) (seed : Z) s
    (key : Z) (v : V) :
  reachable mt19937 bernoulli k0 v0 max_level seed s →
  XSF.get key s = Ok (Some v) →
  ∃ s' a n,
    XSF.remove key s = Ok s'
    ∧ store_ s !! a = Some n ∧ key_ n = key ∧ value_ n = v
    ∧ dom (store_ s') = dom (store_ s) ∖ {[a]}
    ∧ XSF.size s' + 1 = XSF.size s
    ∧ XSF.get key s' = Ok None
    ∧ ∀ k, k ≠ key → XSF.get k s' = XSF.get k s.
Proof.
  intros (L & Hwf & _)%reachable_wf Hget.
  rewrite (xsf_get_spec s L key Hwf) in Hget. injection Hget as Hv.
  destruct (xsf_remove_cases s L key Hwf)
    as [[Hnone _]|(Llt & q & Q & s' & -> & Hq & Hsome & Hqs & Hrun & Hwf'
                   & _ & Hcount' & _ & Hhdr & Hnode)]; [congruence|].
  assert (e_val q = v) as Hqv by congruence.
  exists s', (e_addr q), (node_of q Q).
  pose proof Hwf as (hd & HInv & _). pose proof Hwf' as (hd' & HInv' & _).
  destruct HInv as [_ Hnd Hdom _ Hha _ _ _ _ Hcount _].
  destruct HInv' as [_ _ Hdom' _ Hha' _ _ _ _ _ _].
  split_and!; try done.
  - rewrite Hdom', Hdom.
    rewrite !fmap_cons, !fmap_app, fmap_cons in Hnd |- *.
    rewrite Hha in Hnd |- *. rewrite Hha'.
    rewrite Hhdr.
    apply NoDup_cons in Hnd as [Hhd Hnd].
    apply NoDup_app in Hnd as (_ & Hdis & Hnd).
    apply NoDup_cons in Hnd as [HqQ _].
    assert (e_addr q ∉ e_addr <$> Llt).
    { intros Hin. apply (Hdis _ Hin). by left. }
    assert (e_addr q ≠ header_ s).
    { intros Heq. apply Hhd. rewrite <- Heq. set_solver. }
    set_solver.
  - unfold XSF.size. rewrite Hcount', Hcount. rewrite length_app. simpl. lia.
  - rewrite (xsf_get_spec s' _ key Hwf').
    by rewrite (assoc_delete key key Llt q Q), bool_decide_eq_true_2.
  - intros k Hk.
    rewrite (xsf_get_spec s' _ k Hwf'), (xsf_get_spec s _ k Hwf).
    by rewrite (assoc_delete k key Llt q Q), bool_decide_eq_false_2.
Qed.
End xsf_single.

(** ** Verification: the levels *)

Section levels.
Context {V G : Type}.
Variable mt19937 : Z → G.
Variable bernoulli : G → bool * G.
Implicit Types (s : skip_list V G) (L : list (entry V)) (e : entry V).

Lemma random_level_loop_draws n : ∀ k g,
  ∃ b, draws bernoulli ((random_level_loop bernoulli n k g).1 - k + 1) g
       = (replicate ((random_level_loop bernoulli n k g).1 - k) true ++ [b],
          (random_level_loop bernoulli n k g).2)
       ∧ k ≤ (random_level_loop bernoulli n k g).1
       ∧ ((random_level_loop bernoulli n k g).1 < n + k → b = false).
Proof.
  induction n as [|n IH]; intros k g; cbn [random_level_loop].
  - destruct (bernoulli g) as [b g'] eqn:Hd. cbn [fst snd].
    exists b. replace (k - k + 1) with 1 by lia. replace (k - k) with 0 by lia.
    cbn [draws]. rewrite Hd. split; [done|]. split; lia.
  - destruct (bernoulli g) as [[] g'] eqn:Hd.
    + destruct (IH (S k) g') as (b & Hdraws & Hle & Hlast).
      set (r := random_level_loop bernoulli n (S k) g') in *.
      exists b. replace (r.1 - k + 1) with (S (r.1 - S k + 1)) by lia.
      replace (r.1 - k) with (S (r.1 - S k)) by lia.
      cbn [draws]. rewrite Hd, Hdraws. split; [done|].
      split; [lia|]. intros ?. apply Hlast. lia.
    + cbn [fst snd]. exists false.
      replace (k - k + 1) with 1 by lia. replace (k - k) with 0 by lia.
      cbn [draws]. rewrite Hd. split; [done|]. split; [lia|done].
Qed.

(** X8. The level drawn for a node is the number of heads tossed before
    the first tail, capped at [max_level_]; a call tosses the coin once
    more than the level it returns, also when the cap is reached. *)
Theorem get_random_level_draws s :
  ∃ b, draws bernoulli ((get_random_level bernoulli s).1 + 1) (gen_ s)
       = (replicate (get_random_level bernoulli s).1 true ++ [b],
          (get_random_level bernoulli s).2)
       ∧ (get_random_level bernoulli s).1 ≤ max_level_ s
       ∧ ((get_random_level bernoulli s).1 < max_level_ s → b = false).
Proof.
  unfold get_random_level.
  destruct (random_level_loop_draws (max_level_ s) 0 (gen_ s))
    as (b & Hdraws & _ & Hlast).
  rewrite Nat.sub_0_r in Hdraws. exists b. split; [done|].
  pose proof (random_level_loop_bound bernoulli (max_level_ s) 0 (gen_ s)).
  split; [lia|]. intros ?. apply Hlast. lia.
Qed.

(** [put] of a key the list does not hold: with a level below 255 it
    links a new node in, or leaves by [bad_alloc]; with level 255 it never
    returns. *)
Lemma xsf_put_absent s L key (value : V) :
  xsf_wf s L → assoc key L = None →
  ((get_random_level bernoulli s).1 < 255
   ∧ (∃ s' Llt Lge,
        XSF.put bernoulli true key value s = Ok (Returned () s')
        ∧ L = Llt ++ Lge
        ∧ Forall (λ e, e_key e ≠ key) (Llt ++ Lge)
        ∧ xsf_wf s' (Llt ++ spliced (fresh (dom (store_ s))) key value
                              (get_random_level bernoulli s).1
                              ((get_random_level bernoulli s).1 + 1) :: Lge)
        ∧ skip_list_level_ s'
          = skip_list_level_ s `max` (get_random_level bernoulli s).1
        ∧ gen_ s' = (get_random_level bernoulli s).2
        ∧ element_count_ s' = element_count_ s + 1
        ∧ header_ s' = header_ s))
  ∨ ((get_random_level bernoulli s).1 = 255
     ∧ ∀ mem, XSF.put bernoulli mem key value s = Err Diverged).
Proof.
  intros (hd & HInv & Hm & Hle) Hnone.
  assert (Hsort : StronglySorted Z.lt (e_key <$> L)) by by destruct HInv.
  destruct (hit_cases L key Hsort)
    as (Llt & Lge & -> & Hlt & Hge & [(q & Q & -> & Hq & Hsome)|[Habs _]]);
    [congruence|].
  set (s1 := mkSkipList (max_level_ s) (skip_list_level_ s) (header_ s)
               (element_count_ s) true (gen_ s) (store_ s)).
  assert (HInv1 : Inv XSF.to_uint8 s1 hd (Llt ++ Lge))
    by by apply Inv_set_mutex.
  pose proof (get_random_level_bound bernoulli s) as Hb.
  destruct (get_random_level bernoulli s) as [lvl g] eqn:Hlvl.
  cbn [fst snd] in *.
  assert (Hlvl1 : get_random_level bernoulli s1 = (lvl, g)) by exact Hlvl.
  destruct (decide (lvl < 255)) as [Hlt255|Hge255].
  - left. split; [done|].
    destruct (put_body_absent bernoulli XSF.to_uint8 s1 hd Llt Lge key value
                HInv1 Hlt Hge lvl g Habs Hlvl1 (wrap_ok_uint8 lvl Hlt255))
      as [(h & Hrun & HInv') _].
    unfold XSF.put, mutex_lock. rewrite Hm. cbn [mbind res_bind].
    fold s1. rewrite Hrun. cbn [mbind res_bind].
    eexists _, Llt, Lge. split; [done|]. split; [done|].
    simpl_fields. split_and!; [| |done|done|done|done].
    + apply Forall_app. split; [by apply below_not_key|].
      rewrite fmap_app in Hsort. apply StronglySorted_app_1_r in Hsort.
      eapply Forall_impl; [by apply (absent_above key Lge)|].
      intros e He. simpl in He. lia.
    + exists hd. split_and!; [|done|done].
      by apply (Inv_set_mutex _ false) in HInv'.
  - right. assert (lvl = 255) as -> by lia. split; [done|]. intros mem.
    unfold XSF.put, mutex_lock. rewrite Hm. cbn [mbind res_bind]. fold s1.
    rewrite (put_body_absent_stuck bernoulli XSF.to_uint8 s1 hd Llt Lge key
               value HInv1 Hlt Hge mem 255 g Diverged Habs Hlvl1); [done|].
    intros update Hlen. unfold adjust_max_level_for_insertion.
    change (skip_list_level_ s1) with (skip_list_level_ s).
    change (max_level_ s1) with (max_level_ s) in Hlen |- *.
    destruct HInv as [_ _ _ _ _ _ _ _ _ _ Hwt%wrap_ok_uint8_inv].
    rewrite bool_decide_eq_true_2 by lia.
    rewrite raise_loop_255; [done| |lia].
    unfold XSF.to_uint8. apply Nat.mod_upper_bound. lia.
Qed.

(** X7. With [max_level = 255] a [put] of a new key that draws level 255
    never returns: the [uint8_t] counter of the loop that raises the top
    level wraps from 255 to 0, so its test [i < 256] holds for ever;
    whatever the number of rounds, the loop has not ended. *)
Theorem xsf_put_diverges_at_255 (k0 : Z) (v0 : V) (max_level : nat)
    (seed : Z) s (key : Z) (value : V) (mem : bool) :
  reachable mt19937 bernoulli k0 v0 max_level seed s →
  XSF.get key s = Ok None →
  (get_random_level bernoulli s).1 = 255 →
  XSF.put bernoulli mem key value s = Err Diverged
  ∧ ∀ fuel update,
      length update = max_level_ s + 1 →
      raise_loop XSF.to_uint8 fuel (XSF.to_uint8 (skip_list_level_ s + 1))
        (get_random_level bernoulli s).1 (header_ s) update
      = Err Diverged.
Proof.
  intros (L & Hwf & _)%reachable_wf Hget Hlvl.
  rewrite (xsf_get_spec s L key Hwf) in Hget. injection Hget as Hnone.
  split.
  - destruct (xsf_put_absent s L key value Hwf Hnone) as [[? _]|[_ Hdiv]];
      [lia|apply Hdiv].
  - intros fuel update Hlen. rewrite Hlvl.
    destruct Hwf as (hd & HInv & _ & Hle).
    pose proof (get_random_level_bound bernoulli s) as Hb.
    apply raise_loop_255; [|lia].
    unfold XSF.to_uint8. apply Nat.mod_upper_bound. lia.
Qed.

(** X17. [put] of a key the list does not hold, when the level drawn is
    below 255 and there is memory: one node is allocated, at an address
    that was not in use, with the key, the value and the level drawn; no
    other node comes or goes, [size] goes up by one, [get] finds the new
    key and finds every other key as before. *)
Theorem xsf_put_inserts_one_node (k0 : Z) (v0 : V) (max_level : nat)
    (seed : Z) s (key : Z) (value : V) :
  reachable mt19937 bernoulli k0 v0 max_level seed s →
  XSF.get key s = Ok None →
  (get_random_level bernoulli s).1 < 255 →
  ∃ s' a n,
    XSF.put bernoulli true key value s = Ok (Returned () s')
    ∧ store_ s !! a = None
    ∧ store_ s' !! a = Some n
    ∧ key_ n = key ∧ value_ n = value
    ∧ node_level_ n = (get_random_level bernoulli s).1
    ∧ dom (store_ s') = dom (store_ s) ∪ {[a]}
    ∧ XSF.size s' = XSF.size s + 1
    ∧ XSF.get key s' = Ok (Some value)
    ∧ ∀ k, k ≠ key → XSF.get k s' = XSF.get k s.
Proof.
  intros (L & Hwf & _)%reachable_wf Hget Hlvl.
  rewrite (xsf_get_spec s L key Hwf) in Hget. injection Hget as Hnone.
  destruct (xsf_put_absent s L key value Hwf Hnone)
    as [[_ (s' & Llt & Lge & Hrun & -> & Hkeys & Hwf' & _ & _ & Hcount
            & Hhdr)]|[H255 _]]; [|lia].
  set (a := fresh (dom (store_ s))) in *.
  set (x := spliced a key value _ _) in *.
  pose proof Hwf as (hd & HInv & _). pose proof Hwf' as (hd' & HInv' & _).
  destruct HInv as [_ _ Hdom _ Hha _ _ _ _ _ _].
  destruct HInv' as [Hrep' _ Hdom' _ Hha' _ _ _ _ _ _].
  exists s', a, (node_of x Lge). split; [done|].
  split_and!; try done.
  - apply not_elem_of_dom. apply is_fresh.
  - by apply (Hrep' (hd' :: Llt) x Lge).
  - rewrite Hdom', Hdom, !fmap_cons, !fmap_app, fmap_cons, Hha, Hha', Hhdr.
    cbn [x spliced e_addr]. set_solver.
  - rewrite (xsf_get_spec s' _ key Hwf').
    by rewrite (assoc_insert key key Llt x Lge), bool_decide_eq_true_2
      by (done || by apply Forall_app in Hkeys as [? _]).
  - intros k Hk.
    rewrite (xsf_get_spec s' _ k Hwf'), (xsf_get_spec s _ k Hwf).
    by rewrite (assoc_insert k key Llt x Lge), bool_decide_eq_false_2
      by (done || by apply Forall_app in Hkeys as [? _]).
Qed.

(** *** The top level *)


Lemma tallest_cons e L : tallest (e :: L) = e_lvl e `max` tallest L.
Proof. done. Qed.

Lemma tallest_ge L e : e ∈ L → e_lvl e ≤ tallest L.
Proof.
  intros He. apply max_list_elem_of_le. by apply list_elem_of_fmap_2.
Qed.

Lemma tallest_hit L : 0 < tallest L → ∃ e, e ∈ L ∧ e_lvl e = tallest L.
Proof.
  intros Hpos. unfold tallest in *.
  assert (Hne : e_lvl <$> L ≠ []).
  { intros Hnil. rewrite Hnil in Hpos. simpl in Hpos. lia. }
  apply max_list_elem_of, list_elem_of_fmap in Hne as (e & Heq & He).
  by exists e.
Qed.

Lemma first_at_above_tallest L j :
  Forall regular L → tallest L < j → first_at j L = None.
Proof.
  intros Hreg Hj. apply first_at_None. rewrite Forall_forall in Hreg |- *.
  intros e He. rewrite vis_regular by by apply Hreg.
  apply bool_decide_eq_false_2. pose proof (tallest_ge L e He). lia.
Qed.

Lemma first_at_upto_tallest L j :
  Forall regular L → 0 < j → j ≤ tallest L → first_at j L ≠ None.
Proof.
  intros Hreg Hpos Hj Hnone.
  destruct (tallest_hit L) as (e & He & Hl); [lia|].
  apply first_at_None in Hnone. rewrite Forall_forall in Hnone, Hreg.
  specialize (Hnone e He). rewrite vis_regular in Hnone by by apply Hreg.
  apply bool_decide_eq_false in Hnone. lia.
Qed.

Lemma shrink_top_hit L (t : nat) :
  shrink_top L t = 0 ∨ first_at (shrink_top L t) L ≠ None.
Proof.
  induction t as [|t IH]; cbn [shrink_top]; [by left|].
  destruct (first_at (S t) L) eqn:Hf; [|done]. right. by rewrite Hf.
Qed.

(** The loop that lowers the top level stops at the tallest node left. *)
Lemma shrink_top_tallest (P Q : list (entry V)) (x : entry V) (t : nat) :
  Forall regular (P ++ Q) → hidden x → tallest (P ++ Q) ≤ t →
  shrink_top (P ++ x :: Q) t = tallest (P ++ Q).
Proof.
  intros Hreg Hx Ht.
  assert (Hsame : ∀ j, first_at j (P ++ x :: Q) = first_at j (P ++ Q)).
  { intros j. rewrite !first_at_app. cbn [first_at]. by rewrite Hx. }
  destruct (shrink_top_spec (P ++ x :: Q) t) as [Hle Hnone].
  destruct (Nat.lt_trichotomy (shrink_top (P ++ x :: Q) t)
              (tallest (P ++ Q))) as [Hlt|[Heq|Hgt]]; [|done|].
  - exfalso. apply (first_at_upto_tallest (P ++ Q) (tallest (P ++ Q)));
      [done|lia|lia|]. rewrite <- Hsame. apply Hnone; lia.
  - exfalso. destruct (shrink_top_hit (P ++ x :: Q) t) as [H0|Hhit]; [lia|].
    apply Hhit. rewrite Hsame. by apply first_at_above_tallest.
Qed.

(** A reachable state with its chain, the top level being that of the
    tallest node. *)
Lemma hidden_unlinking (c : entry V) (t : nat) :
  e_lvl c ≤ t → hidden (unlinking c (t + 1)).
Proof.
  intros Hc j. apply vis_false. unfold unlinking, with_span. simpl. lia.
Qed.

Lemma tallest_le L (t : nat) :
  Forall (λ e, e_lvl e ≤ t) L → tallest L ≤ t.
Proof.
  induction 1 as [|e L He _ IH]; [unfold tallest; simpl; lia|].
  rewrite tallest_cons. lia.
Qed.

Lemma top_ge_tallest s L : xsf_wf s L → tallest L ≤ skip_list_level_ s.
Proof.
  intros (hd & HInv & _). apply tallest_le. by destruct HInv.
Qed.

(** The nodes of the store other than the header are those of the chain. *)
Lemma wf_node_entry s L a (n : Node V) :
  xsf_wf s L → store_ s !! a = Some n → a ≠ header_ s →
  ∃ e, e ∈ L ∧ node_level_ n = e_lvl e.
Proof.
  intros (hd & HInv & _) Ha Hne.
  destruct HInv as [Hrep _ Hdom _ Hha _ _ _ _ _ _].
  assert (Hin : a ∈ dom (store_ s)) by (apply elem_of_dom; eauto).
  rewrite Hdom in Hin. apply elem_of_list_to_set in Hin.
  apply list_elem_of_fmap in Hin as (e & -> & He).
  apply elem_of_cons in He as [->|He]; [by rewrite Hha in Hne|].
  destruct (rep_elem _ _ e Hrep) as (rest & Hl); [set_solver|].
  rewrite Hl in Ha. injection Ha as <-. by exists e.
Qed.

Lemma wf_entry_node s L e :
  xsf_wf s L → e ∈ L →
  ∃ n, store_ s !! e_addr e = Some n ∧ e_addr e ≠ header_ s
       ∧ node_level_ n = e_lvl e.
Proof.
  intros (hd & HInv & _) He.
  destruct HInv as [Hrep Hnd _ _ Hha _ _ _ _ _ _].
  destruct (rep_elem _ _ e Hrep) as (rest & Hnode); [set_solver|].
  exists (node_of e rest). split_and!; [done| |done].
  rewrite <- Hha. rewrite fmap_cons in Hnd.
  apply NoDup_cons in Hnd as [Hnotin _]. intros Heq. apply Hnotin.
  rewrite <- Heq. by apply list_elem_of_fmap_2.
Qed.

(** In terms of the chain: the top level is the level of its tallest
    node. *)
Lemma tight_tallest s L :
  xsf_wf s L → tight s ↔ skip_list_level_ s = tallest L.
Proof.
  intros Hwf. pose proof (top_ge_tallest s L Hwf) as Hle. split.
  - intros Ht. destruct (decide (0 < skip_list_level_ s)) as [Hpos|Hz];
      [|lia].
    destruct (Ht Hpos) as (a & n & Ha & Hne & Hl).
    destruct (wf_node_entry s L a n Hwf Ha Hne) as (e & He & Hn).
    pose proof (tallest_ge L e He). lia.
  - intros Heq Hpos. rewrite Heq in Hpos.
    destruct (tallest_hit L Hpos) as (e & He & Hl).
    destruct (wf_entry_node s L e Hwf He) as (n & Hn & Hne & Hlvl).
    exists (e_addr e), n. split_and!; [done|done|congruence].
Qed.




End levels.

(** ** Verification: the sequence of levels *)

Section level_sequence.
Context {V G : Type}.
Variable mt19937 : Z → G.
Variable bernoulli : G → bool * G.
Implicit Types (s : skip_list V G) (L : list (entry V)).






End level_sequence.

(** ** Verification: [momu::SkipList] under sequences of calls *)

Section momu_runs.
Context {V G : Type}.
Variable mt19937 : Z → G.
Variable bernoulli : G → bool * G.
Implicit Types (s : skip_list V G) (L : list (entry V)) (m : gmap Z V).

Lemma wf_size s L m :
  xsf_wf s L → (∀ k, assoc k L = m !! k) → element_count_ s = size m.
Proof.
  intros (hd & HInv & _) Hm.
  destruct HInv as [_ _ _ _ _ _ Hsort _ _ Hcount _].
  rewrite Hcount. by apply sorted_length_size.
Qed.

Lemma momu_get_wf s L key : xsf_wf s L → Momu.get key s = Ok (assoc key L).
Proof.
  intros (hd & HInv & Hm & _). unfold Momu.get, mutex_lock. rewrite Hm.
  cbn [mbind res_bind].
  apply (get_body_spec XSF.to_uint8 _ hd). by apply Inv_set_mutex.
Qed.

Lemma momu_contains_wf s L key :
  xsf_wf s L → Momu.contains key s = Ok (bool_decide (is_Some (assoc key L))).
Proof.
  intros (hd & HInv & Hm & _). unfold Momu.contains, mutex_lock. rewrite Hm.
  cbn [mbind res_bind].
  rewrite (get_body_spec XSF.to_uint8 _ hd L key); [done|].
  by apply Inv_set_mutex.
Qed.

Lemma momu_remove_wf s L key :
  xsf_wf s L →
  ∃ s' L',
    Momu.remove key s = Ok (bool_decide (is_Some (assoc key L)), s')
    ∧ xsf_wf s' L'
    ∧ (∀ k, assoc k L' = if bool_decide (k = key) then None else assoc k L)
    ∧ max_level_ s' = max_level_ s.
Proof.
  intros (hd & HInv & Hm & Hle).
  unfold Momu.remove, mutex_lock. rewrite Hm. cbn [mbind res_bind].
  destruct (remove_body_spec XSF.to_uint8 _ hd L key
              (Inv_set_mutex _ true s hd L HInv))
    as (b & s' & L' & Hrun & HInv' & Hassoc & Hml & _ & _ & _ & Hb).
  rewrite Hrun. cbn [mbind res_bind].
  assert (b = bool_decide (is_Some (assoc key L))) as ->.
  { rewrite Hb. destruct (assoc key L); [|done].
    by rewrite bool_decide_eq_true_2 by by eexists. }
  eexists _, L'. split; [done|]. split_and!; [|done|done].
  exists hd. split_and!; [by apply Inv_set_mutex|done|].
  cbn [mutex_unlock max_level_] in *. lia.
Qed.

(** One call on a list that holds the map [m]. *)
Lemma momu_call_sound (o : momu_op V) s L m a s' :
  xsf_wf s L → (∀ k, assoc k L = m !! k) →
  momu_call bernoulli o s = Ok (Returned a s') →
  a = (momu_step m o).1
  ∧ max_level_ s' = max_level_ s
  ∧ ∃ L', xsf_wf s' L' ∧ ∀ k, assoc k L' = (momu_step m o).2 !! k.
Proof.
  intros Hwf Hm Hcall. destruct o as [key value|key|key|key| |];
    cbn [momu_call momu_step fst snd] in *.
  - change (Momu.put bernoulli true key value s)
      with (XSF.put bernoulli true key value s) in Hcall.
    destruct (xsf_put_cases bernoulli s L key value Hwf)
      as [(s1 & L' & Hrun & Hwf' & Hassoc & Hml & _)|[Hrun _]];
      rewrite Hrun in Hcall; cbn [mbind res_bind] in Hcall; [|done].
    injection Hcall as <- <-. split_and!; [done|done|].
    exists L'. split; [done|]. intros k. rewrite Hassoc.
    destruct (decide (k = key)) as [->|Hk].
    + by rewrite bool_decide_eq_true_2, lookup_insert_eq.
    + by rewrite bool_decide_eq_false_2, lookup_insert_ne.
  - rewrite (momu_get_wf s L key Hwf) in Hcall. cbn [mbind res_bind] in Hcall.
    injection Hcall as <- <-. rewrite Hm. split_and!; [done|done|by exists L].
  - rewrite (momu_contains_wf s L key Hwf) in Hcall.
    cbn [mbind res_bind] in Hcall.
    injection Hcall as <- <-. rewrite Hm. split_and!; [done|done|by exists L].
  - destruct (momu_remove_wf s L key Hwf)
      as (s1 & L' & Hrun & Hwf' & Hassoc & Hml).
    rewrite Hrun in Hcall. cbn [mbind res_bind] in Hcall.
    injection Hcall as <- <-. rewrite Hm. split_and!; [done|done|].
    exists L'. split; [done|]. intros k. rewrite Hassoc.
    destruct (decide (k = key)) as [->|Hk].
    + by rewrite bool_decide_eq_true_2, lookup_delete_eq.
    + by rewrite bool_decide_eq_false_2, lookup_delete_ne, Hm.
  - injection Hcall as <- <-. unfold Momu.size.
    rewrite (wf_size s L m Hwf Hm). split_and!; [done|done|by exists L].
  - injection Hcall as <- <-. unfold Momu.empty.
    rewrite (wf_size s L m Hwf Hm). split_and!; [done|done|by exists L].
Qed.

Lemma momu_call_returns (o : momu_op V) s L :
  xsf_wf s L → max_level_ s < 255 →
  ∃ a s', momu_call bernoulli o s = Ok (Returned a s').
Proof.
  intros Hwf Hmax. destruct o as [key value|key|key|key| |];
    cbn [momu_call].
  - change (Momu.put bernoulli true key value s)
      with (XSF.put bernoulli true key value s).
    destruct (xsf_put_spec bernoulli s L key value Hwf Hmax)
      as (s1 & L' & -> & _). by eexists _, _.
  - rewrite (momu_get_wf s L key Hwf). by eexists _, _.
  - rewrite (momu_contains_wf s L key Hwf). by eexists _, _.
  - destruct (momu_remove_wf s L key Hwf) as (s1 & L' & -> & _).
    by eexists _, _.
  - by eexists _, _.
  - by eexists _, _.
Qed.

Lemma momu_run_sound (ops : list (momu_op V)) : ∀ s L m rs s',
  xsf_wf s L → (∀ k, assoc k L = m !! k) →
  momu_run bernoulli ops s = Ok (Returned rs s') →
  rs = (momu_model ops m).1
  ∧ ∃ L', xsf_wf s' L' ∧ ∀ k, assoc k L' = (momu_model ops m).2 !! k.
Proof.
  induction ops as [|o ops IH]; intros s L m rs s' Hwf Hm Hrun;
    cbn [momu_run momu_model] in *.
  - injection Hrun as <- <-. split; [done|]. by exists L.
  - destruct (momu_call bernoulli o s) as [[a s1|e s1]|f] eqn:Hcall;
      cbn [mbind res_bind] in Hrun; [|done|done].
    destruct (momu_call_sound o s L m a s1 Hwf Hm Hcall)
      as (-> & _ & L1 & Hwf1 & Hm1).
    destruct (momu_step m o) as [a m1]. cbn [fst snd] in *.
    destruct (momu_run bernoulli ops s1) as [[rs1 s2|e s2]|f] eqn:Hrest;
      cbn [mbind res_bind] in Hrun; [|done|done].
    injection Hrun as <- <-.
    destruct (IH s1 L1 m1 rs1 s2 Hwf1 Hm1 Hrest) as (-> & L2 & Hwf2 & Hm2).
    destruct (momu_model ops m1) as [rest m2]. cbn [fst snd] in *.
    split; [done|]. by exists L2.
Qed.

Lemma momu_run_returns (ops : list (momu_op V)) : ∀ s L m,
  xsf_wf s L → (∀ k, assoc k L = m !! k) → max_level_ s < 255 →
  ∃ rs s', momu_run bernoulli ops s = Ok (Returned rs s').
Proof.
  induction ops as [|o ops IH]; intros s L m Hwf Hm Hmax; cbn [momu_run].
  - by eexists _, _.
  - destruct (momu_call_returns o s L Hwf Hmax) as (a & s1 & Hcall).
    rewrite Hcall. cbn [mbind res_bind].
    destruct (momu_call_sound o s L m a s1 Hwf Hm Hcall)
      as (_ & Hml & L1 & Hwf1 & Hm1).
    destruct (IH s1 L1 _ Hwf1 Hm1) as (rs & s2 & Hrest); [lia|].
    rewrite Hrest. cbn [mbind res_bind]. by eexists _, _.
Qed.

Lemma momu_init_is_xsf (v0 : V) (max_level : nat) (seed : Z) :
  Momu.SkipList mt19937 v0 max_level seed
  = XSF.XSFSkipList mt19937 0%Z v0 max_level seed.
Proof. done. Qed.

(** X10. The calls of a client on a [momu::SkipList] answer as a map
    does: [get] gives the value last put for the key and not removed
    since, [contains] and [remove] tell whether there is one, [size] is
    the number of keys and [empty] tells whether it is 0.  With
    [max_level] below 255 every sequence of calls returns. *)
Theorem momu_answers (v0 : V) (max_level : nat) (seed : Z)
    (ops : list (momu_op V)) :
  (max_level < 255 →
   ∃ s, momu_run bernoulli ops (Momu.SkipList mt19937 v0 max_level seed)
        = Ok (Returned (momu_model ops ∅).1 s))
  ∧ ∀ rs s,
      momu_run bernoulli ops (Momu.SkipList mt19937 v0 max_level seed)
      = Ok (Returned rs s) →
      rs = (momu_model ops ∅).1
      ∧ Momu.size s = size (momu_model ops ∅).2
      ∧ ∀ key, Momu.get key s = Ok ((momu_model ops ∅).2 !! key).
Proof.
  rewrite momu_init_is_xsf.
  pose proof (xsf_wf_init mt19937 0%Z v0 max_level seed) as Hwf.
  assert (Hm : ∀ k, assoc k ([] : list (entry V)) = (∅ : gmap Z V) !! k)
    by (intros k; by rewrite lookup_empty).
  split.
  - intros Hmax.
    destruct (momu_run_returns ops _ [] ∅ Hwf Hm) as (rs & s & Hrun).
    { rewrite max_level_init. unfold XSF.to_uint8.
      rewrite Nat.mod_small; lia. }
    destruct (momu_run_sound ops _ [] ∅ rs s Hwf Hm Hrun) as (-> & _).
    by exists s.
  - intros rs s Hrun.
    destruct (momu_run_sound ops _ [] ∅ rs s Hwf Hm Hrun)
      as (-> & L & Hwf' & Hm').
    split_and!; [done| |].
    + unfold Momu.size. by apply (wf_size s L).
    + intros key. by rewrite (momu_get_wf s L key Hwf'), Hm'.
Qed.
End momu_runs.

(** ** Verification: the older class under sequences of calls *)

Section legacy_clients.
Context {G : Type}.
Variable rand_bit : G → bool * G.
Implicit Types (s : skip_list Z G) (L : list (entry Z)) (m : gmap Z Z).
Local Open Scope string_scope.

Lemma legacy_wf_size s L m :
  legacy_wf s L → (∀ k, assoc k L = m !! k) → element_count_ s = size m.
Proof.
  intros (hd & HInv & _) Hm.
  destruct HInv as [_ _ _ _ _ _ Hsort _ _ Hcount _].
  rewrite Hcount. by apply sorted_length_size.
Qed.

(** One call on a list that holds the map [m]. *)
Lemma legacy_call_spec (o : legacy_op) s L m :
  legacy_wf s L → (∀ k, assoc k L = m !! k) →
  ∃ s' L',
    legacy_call rand_bit o s = Ok (Returned (legacy_step m o).1 s')
    ∧ legacy_wf s' L'
    ∧ ∀ k, assoc k L' = (legacy_step m o).2 !! k.
Proof.
  intros Hwf Hm. destruct o as [key value|key d|key|];
    cbn [legacy_call legacy_step fst snd].
  - destruct (insert_element_spec rand_bit s L key value Hwf)
      as (r & s' & L' & Hrun & Hwf' & Hassoc & _ & ->).
    rewrite Hrun. cbn [mbind res_bind]. rewrite Hm.
    exists s', L'. split_and!; [done|done|]. intros k. rewrite Hassoc.
    destruct (decide (k = key)) as [->|Hk].
    + by rewrite bool_decide_eq_true_2, lookup_insert_eq.
    + by rewrite bool_decide_eq_false_2, lookup_insert_ne.
  - rewrite (search_element_spec s L key d Hwf). cbn [mbind res_bind].
    rewrite Hm. exists s, L. split_and!; [|done|done].
    by destruct (m !! key).
  - destruct (delete_element_spec s L key Hwf)
      as (s' & L' & Hrun & Hwf' & Hassoc & _).
    rewrite Hrun. cbn [mbind res_bind].
    exists s', L'. split_and!; [done|done|]. intros k. rewrite Hassoc.
    destruct (decide (k = key)) as [->|Hk].
    + by rewrite bool_decide_eq_true_2, lookup_delete_eq.
    + by rewrite bool_decide_eq_false_2, lookup_delete_ne.
  - exists s, L. unfold Legacy.size.
    by rewrite (legacy_wf_size s L m Hwf Hm).
Qed.

Lemma legacy_run_spec (ops : list legacy_op) : ∀ s L m,
  legacy_wf s L → (∀ k, assoc k L = m !! k) →
  ∃ s' L',
    legacy_run rand_bit ops s = Ok (Returned (legacy_model ops m).1 s')
    ∧ legacy_wf s' L'
    ∧ ∀ k, assoc k L' = (legacy_model ops m).2 !! k.
Proof.
  induction ops as [|o ops IH]; intros s L m Hwf Hm;
    cbn [legacy_run legacy_model].
  - by exists s, L.
  - destruct (legacy_call_spec o s L m Hwf Hm) as (s1 & L1 & Hcall & Hwf1 & Hm1).
    rewrite Hcall. cbn [mbind res_bind].
    destruct (legacy_step m o) as [a m1]. cbn [fst snd] in *.
    destruct (IH s1 L1 m1 Hwf1 Hm1) as (s2 & L2 & Hrest & Hwf2 & Hm2).
    rewrite Hrest. cbn [mbind res_bind].
    destruct (legacy_model ops m1) as [rest m2]. cbn [fst snd] in *.
    by exists s2, L2.
Qed.

(** X11. Every sequence of [insert_element], [search_element],
    [delete_element] and [size] on a list of the older class returns, for
    every [max_level], and answers as a map does: [insert_element]
    returns 1 when the key was there (its value is replaced) and 0 when
    it was not, [search_element] finds the value last inserted and leaves
    its reference parameter alone when there is none, [size] is the
    number of keys. *)
Theorem legacy_answers (k0 v0 : Z) (max_level : nat) (g : G)
    (ops : list legacy_op) :
  ∃ s,
    legacy_run rand_bit ops (Legacy.SkipList k0 v0 max_level g)
    = Ok (Returned (legacy_model ops ∅).1 s)
    ∧ Legacy.size s = size (legacy_model ops ∅).2
    ∧ ∀ key d,
        Legacy.search_element key d s
        = Ok (match (legacy_model ops ∅).2 !! key with
              | Some v => (true, v)
              | None => (false, d)
              end).
Proof.
  destruct (legacy_run_spec ops (Legacy.SkipList k0 v0 max_level g) [] ∅)
    as (s & L & Hrun & Hwf & Hm).
  { apply legacy_wf_init. }
  { intros k. by rewrite lookup_empty. }
  exists s. split_and!; [done| |].
  - unfold Legacy.size. by apply (legacy_wf_size s L).
  - intros key d. by rewrite (search_element_spec s L key d Hwf), Hm.
Qed.
End legacy_clients.

(** ** Verification: more on the text snapshot *)

Section legacy_text.
Context {G : Type}.
Variable rand_bit : G → bool * G.
Variable value_first : bool.
Implicit Types (s : skip_list Z G) (L : list (entry Z)) (m : gmap Z Z).
Local Open Scope string_scope.

Lemma find_colon_split (str : string) : ∀ n,
  Legacy.find_colon str = Some n →
  str = Legacy.substr_to n str ++ String ":" (Legacy.substr_from (n + 1) str)
  ∧ Legacy.find_colon (Legacy.substr_to n str) = None.
Proof.
  induction str as [|c str IH]; intros n; cbn [Legacy.find_colon]; [done|].
  destruct (Ascii.eqb c ":") eqn:Hc.
  - intros [= <-]. apply Ascii.eqb_eq in Hc as ->. done.
  - destruct (Legacy.find_colon str) as [n'|]; [|done].
    intros [= <-]. destruct (IH n' eq_refl) as [Hstr Hnone].
    cbn [Legacy.substr_to Legacy.substr_from Nat.add Legacy.find_colon].
    rewrite Hc, Hnone, append_cons. by rewrite <- Hstr.
Qed.

(** X12. [get_key_value_from_string] cuts a string at its first [:]: the
    key is what comes before it and holds no [:], the value is all that
    comes after it; a string without [:], the empty string among them,
    is not valid and leaves [*key] and [*value] as they were. *)
Theorem get_key_value_splits (str key value : string) :
  (Legacy.is_valid_string str = true
   ∧ ∃ k v, Legacy.get_key_value_from_string str key value = (k, v)
            ∧ str = k ++ ":" ++ v
            ∧ Legacy.find_colon k = None)
  ∨ (Legacy.is_valid_string str = false
     ∧ Legacy.find_colon str = None
     ∧ Legacy.get_key_value_from_string str key value = (key, value)).
Proof.
  unfold Legacy.get_key_value_from_string, Legacy.is_valid_string.
  destruct (Legacy.find_colon str) as [n|] eqn:Hf.
  - left. destruct (find_colon_split str n Hf) as [Hstr Hnone].
    assert (Hne : str ≠ "") by (by destruct str).
    rewrite bool_decide_eq_false_2 by done.
    rewrite bool_decide_eq_true_2 by by eexists.
    split; [done|]. cbn [negb andb]. by eexists _, _.
  - right.
    rewrite (bool_decide_eq_false_2 (is_Some None)) by by intros [? ?].
    by rewrite andb_false_r.
Qed.

Lemma assoc_elem L (k v : Z) :
  StronglySorted Z.lt (e_key <$> L) →
  (k, v) ∈ (λ e, (e_key e, e_val e)) <$> L ↔ assoc k L = Some v.
Proof.
  intros Hs. rewrite assoc_list_to_map. apply elem_of_list_to_map.
  rewrite <- list_fmap_compose. by apply sorted_NoDup.
Qed.

(** X13. [dump_file] writes the pairs of the list, one line [key:value]
    each, in ascending order of the keys: as many lines as [size] tells,
    and a line for a pair exactly when [search_element] finds it. *)
Theorem legacy_dump_lists_pairs (k0 v0 : Z) (max_level : nat) (g : G) s :
  legacy_reachable rand_bit k0 v0 max_level g s →
  ∃ text pairs,
    Legacy.dump_file s = Ok text
    ∧ Legacy.getlines "" text = pair_text <$> pairs
    ∧ StronglySorted Z.lt pairs.*1
    ∧ length pairs = Legacy.size s
    ∧ ∀ k v d,
        (k, v) ∈ pairs ↔ Legacy.search_element k d s = Ok (true, v).
Proof.
  intros (L & Hwf & _)%legacy_reachable_wf.
  pose proof Hwf as (hd & HInv & _).
  pose proof (level0_chain_spec Legacy.to_int s hd L HInv) as Hchain.
  destruct HInv as [_ _ _ _ _ _ Hsort _ _ Hcount _].
  eexists _, ((λ e, (e_key e, e_val e)) <$> L).
  unfold Legacy.dump_file. rewrite Hchain. cbn [mbind res_bind].
  split; [done|]. split; [apply getlines_dump|].
  split_and!.
  - by rewrite <- list_fmap_compose.
  - unfold Legacy.size. by rewrite length_fmap.
  - intros k v d. rewrite (search_element_spec s L k d Hwf).
    rewrite assoc_elem by done.
    destruct (assoc k L); split; intros; simplify_eq; done.
Qed.

Lemma load_model_twice (lines : list string) m (key : Z) :
  load_model lines (load_model lines m) !! key = load_model lines m !! key.
Proof.
  rewrite (load_model_over lines (load_model lines m)).
  rewrite (load_model_over lines m).
  by destruct (load_model lines ∅ !! key).
Qed.

(** X14. Loading a file twice is loading it once: the second [load_file]
    returns with the same pairs in the list, the same size and the same
    answer to every search as after the first. *)
Theorem legacy_load_twice (k0 v0 : Z) (max_level : nat) (g : G) s
    (file : string) :
  legacy_reachable rand_bit k0 v0 max_level g s →
  Forall loadable (Legacy.getlines "" file) →
  ∃ out1 s1 out2 s2,
    Legacy.load_file rand_bit value_first (Some file) (s, false)
    = Ok (Returned out1 (s1, false))
    ∧ Legacy.load_file rand_bit value_first (Some file) (s1, false)
      = Ok (Returned out2 (s2, false))
    ∧ level0_chain s2 = level0_chain s1
    ∧ Legacy.size s2 = Legacy.size s1
    ∧ ∀ key d,
        Legacy.search_element key d s2 = Legacy.search_element key d s1.
Proof.
  intros (L & Hwf & _)%legacy_reachable_wf Hload.
  destruct (load_lines_app rand_bit value_first (Legacy.getlines "" file) []
              "" "" [] s L (list_to_map ((λ e, (e_key e, e_val e)) <$> L)))
    as (key1 & value1 & out1 & s1 & L1 & Hrun1 & Hwf1 & Hm1 & _);
    [done|apply assoc_list_to_map|by left|done|done|].
  destruct (load_lines_app rand_bit value_first (Legacy.getlines "" file) []
              "" "" [] s1 L1
              (load_model (Legacy.getlines "" file)
                 (list_to_map ((λ e, (e_key e, e_val e)) <$> L))))
    as (key2 & value2 & out2 & s2 & L2 & Hrun2 & Hwf2 & Hm2 & _);
    [done|done|by left|done|done|].
  rewrite app_nil_r in Hrun1, Hrun2.
  exists out1, s1, out2, s2.
  split; [unfold Legacy.load_file; cbn [fst snd]; by rewrite Hrun1|].
  split; [unfold Legacy.load_file; cbn [fst snd]; by rewrite Hrun2|].
  assert (Heq : ∀ k, assoc k L2 = assoc k L1).
  { intros k. by rewrite Hm2, Hm1, load_model_twice. }
  pose proof Hwf1 as (hd1 & HInv1 & _). pose proof Hwf2 as (hd2 & HInv2 & _).
  assert (Hpairs : (λ e, (e_key e, e_val e)) <$> L2
                   = (λ e, (e_key e, e_val e)) <$> L1).
  { apply sorted_assoc_ext; [by destruct HInv2|by destruct HInv1|done]. }
  split_and!.
  - by rewrite (level0_chain_spec Legacy.to_int s2 hd2 L2 HInv2),
         (level0_chain_spec Legacy.to_int s1 hd1 L1 HInv1), Hpairs.
  - unfold Legacy.size.
    destruct HInv1 as [_ _ _ _ _ _ _ _ _ Hc1 _].
    destruct HInv2 as [_ _ _ _ _ _ _ _ _ Hc2 _].
    rewrite Hc1, Hc2.
    by rewrite <- (length_fmap (λ e, (e_key e, e_val e)) L2), Hpairs,
         length_fmap.
  - intros key d.
    by rewrite (search_element_spec s2 L2 key d Hwf2),
         (search_element_spec s1 L1 key d Hwf1), Heq.
Qed.

(** X20. A [load_file] that ends with the exception of [std::stoi] has
    put the pairs of the lines before the line it stopped at, and has not
    closed [file_reader_].  The next [load_file] on the list finds the
    stream open: it returns at once, without a line read or a pair put,
    whatever the store file holds, and closes the stream; the [load_file]
    after that reads the file again. *)
Theorem legacy_load_after_throw (k0 v0 : Z) (max_level : nat) (g : G) s
    (file : string) (pre : list string) (line : string)
    (post : list string) :
  legacy_reachable rand_bit k0 v0 max_level g s →
  Legacy.getlines "" file = (pre ++ line :: post)%list →
  Forall loadable pre → ¬ loadable line →
  ∃ e s1,
    Legacy.load_file rand_bit value_first (Some file) (s, false)
    = Ok (Threw e (s1, true))
    ∧ (∀ key d,
         Legacy.search_element key d s1
         = match load_model pre ∅ !! key with
           | Some v => Ok (true, v)
           | None => Legacy.search_element key d s
           end)
    ∧ (∀ other,
         Legacy.load_file rand_bit value_first other (s1, true)
         = Ok (Returned [] (s1, false)))
    ∧ (∀ text,
         Forall loadable (Legacy.getlines "" text) →
         ∃ out s2,
           Legacy.load_file rand_bit value_first (Some text) (s1, false)
           = Ok (Returned out (s2, false))
           ∧ ∀ key d,
               Legacy.search_element key d s2
               = match load_model (Legacy.getlines "" text) ∅ !! key with
                 | Some v => Ok (true, v)
                 | None => Legacy.search_element key d s1
                 end).
Proof.
  intros (L & Hwf & _)%legacy_reachable_wf Hlines Hpre Hline.
  destruct (load_lines_app rand_bit value_first pre (line :: post) "" "" []
              s L (list_to_map ((λ e, (e_key e, e_val e)) <$> L)))
    as (key1 & value1 & out1 & s1 & L1 & Hrun1 & Hwf1 & Hm1 & _);
    [done|apply assoc_list_to_map|by left|done|done|].
  destruct (load_lines_throw rand_bit value_first line post key1 value1 out1
              s1 Hline) as (e & Hthrow).
  exists e, s1. split_and!.
  - unfold Legacy.load_file. cbn [fst snd]. by rewrite Hlines, Hrun1, Hthrow.
  - intros key d.
    rewrite (search_element_spec s1 L1 key d Hwf1), Hm1.
    rewrite load_model_over.
    destruct (load_model pre ∅ !! key); [done|].
    by rewrite (search_element_spec s L key d Hwf),
         assoc_list_to_map.
  - done.
  - intros text Htext.
    destruct (load_lines_app rand_bit value_first (Legacy.getlines "" text)
                [] "" "" [] s1 L1
                (list_to_map ((λ e, (e_key e, e_val e)) <$> L1)))
      as (key2 & value2 & out2 & s2 & L2 & Hrun2 & Hwf2 & Hm2 & _);
      [done|apply assoc_list_to_map|by left|done|done|].
    rewrite app_nil_r in Hrun2. exists out2, s2. split.
    + unfold Legacy.load_file. cbn [fst snd]. by rewrite Hrun2.
    + intros key d.
      rewrite (search_element_spec s2 L2 key d Hwf2), Hm2.
      rewrite load_model_over.
      destruct (load_model (Legacy.getlines "" text) ∅ !! key); [done|].
      by rewrite (search_element_spec s1 L1 key d Hwf1),
           assoc_list_to_map.
Qed.

(** X16. When [new] fails in [insert_element] of a key the list does not
    hold, the function leaves by [std::bad_alloc] without [mtx.unlock()]:
    the nodes, the size and the answer to every search are as before, but
    the mutex stays locked and every later [insert_element] and
    [delete_element] waits for it. *)
Theorem legacy_bad_alloc_keeps_lock (k0 v0 : Z) (max_level : nat) (g : G) s
    (key value : Z) :
  legacy_reachable rand_bit k0 v0 max_level g s →
  Legacy.search_element key value s = Ok (false, value) →
  ∃ s',
    Legacy.insert_element rand_bit false key value s
    = Ok (Threw bad_alloc s')
    ∧ mutex_ s' = true
    ∧ (∀ mem k v, Legacy.insert_element rand_bit mem k v s' = Err Blocked)
    ∧ (∀ k, Legacy.delete_element k s' = Err Blocked)
    ∧ store_ s' = store_ s
    ∧ Legacy.size s' = Legacy.size s
    ∧ ∀ k d, Legacy.search_element k d s' = Legacy.search_element k d s.
Proof.
  intros (L & Hwf & _)%legacy_reachable_wf Hsearch.
  rewrite (search_element_spec s L key value Hwf) in Hsearch.
  assert (Hnone : assoc key L = None).
  { destruct (assoc key L); [by injection Hsearch|done]. }
  pose proof Hwf as (hd & HInv & Hm).
  assert (Hsort : StronglySorted Z.lt (e_key <$> L)) by by destruct HInv.
  destruct (hit_cases L key Hsort)
    as (Llt & Lge & -> & Hlt & Hge & [(q & Q & -> & Hq & Hsome)|[Habs _]]);
    [congruence|].
  set (s1 := mkSkipList (max_level_ s) (skip_list_level_ s) (header_ s)
               (element_count_ s) true (gen_ s) (store_ s)).
  assert (HInv1 : Inv Legacy.to_int s1 hd (Llt ++ Lge))
    by by apply Inv_set_mutex.
  destruct (get_random_level rand_bit s1) as [lvl g1] eqn:Hlvl.
  destruct (put_body_absent rand_bit Legacy.to_int s1 hd Llt Lge key value
              HInv1 Hlt Hge lvl g1 Habs Hlvl (wrap_ok_int lvl))
    as [_ Hrun].
  unfold Legacy.insert_element, mutex_lock at 1. rewrite Hm.
  cbn [mbind res_bind]. fold s1. rewrite Hrun. cbn [mbind res_bind].
  eexists. split; [done|]. simpl_fields.
  split_and!; try done.
  - intros k d. unfold Legacy.search_element.
    pose proof (get_random_level_bound rand_bit s1) as Hb. rewrite Hlvl in Hb.
    rewrite (get_body_spec Legacy.to_int _ hd (Llt ++ Lge) k
               (Inv_raise_top Legacy.to_int s1 hd _ lvl g1 HInv1 Hb
                  (wrap_ok_int lvl))).
    by rewrite (get_body_spec Legacy.to_int s hd (Llt ++ Lge) k HInv).
Qed.
End legacy_text.

(** ** Verification: programs with several lists of the older class *)

Section legacy_programs.
Context {G : Type}.
Variable rand_bit : G → bool * G.
Implicit Types (s t : skip_list Z G) (L : list (entry Z))
    (p : Legacy.program G).

(** The invariant does not look at the two globals. *)
Lemma Inv_view s hd L (m : bool) (g : G) :
  Inv Legacy.to_int s hd L →
  Inv Legacy.to_int
    (mkSkipList (max_level_ s) (skip_list_level_ s) (header_ s)
       (element_count_ s) m g (store_ s)) hd L.
Proof. intros []. by constructor. Qed.

Lemma the_list_inv p i s :
  Legacy.the_list p i = Ok s →
  ∃ t, Legacy.lists p !! i = Some t
       ∧ s = mkSkipList (max_level_ t) (skip_list_level_ t) (header_ t)
               (element_count_ t) (Legacy.mtx p) (Legacy.rand_state p)
               (store_ t).
Proof.
  unfold Legacy.the_list, at_index.
  destruct (Legacy.lists p !! i) as [t|]; cbn [mbind res_bind]; [|done].
  intros [= <-]. by exists t.
Qed.

Lemma the_list_wf p i s :
  program_wf p → Legacy.the_list p i = Ok s → ∃ L, legacy_wf s L.
Proof.
  intros [Hm Hall] (t & Ht & ->)%the_list_inv.
  rewrite Forall_forall in Hall.
  destruct (Hall t) as (hd & L & HInv); [by eapply list_elem_of_lookup_2|].
  exists L, hd. split; [by apply Inv_view|done].
Qed.

Lemma leave_list_wf p i s L :
  program_wf p → legacy_wf s L → program_wf (Legacy.leave_list p i s).
Proof.
  intros [_ Hall] (hd & HInv & Hm). split; [done|].
  cbn [Legacy.leave_list Legacy.lists]. apply Forall_insert; [done|].
  by exists hd, L.
Qed.

Lemma legacy_program_wf (g : G) p : legacy_program rand_bit g p → program_wf p.
Proof.
  induction 1 as [|p k v max_level _ [Hm Hall]
                  |p i key value r p' _ IH Hrun
                  |p i key p' _ IH Hrun].
  - split; [done|constructor].
  - split; [done|]. cbn [Legacy.construct Legacy.lists].
    apply Forall_app. split; [done|]. constructor; [|constructor].
    destruct (legacy_wf_init k v max_level (Legacy.rand_state p))
      as (hd & HInv & _).
    by exists hd, [].
  - unfold Legacy.insert_on in Hrun.
    destruct (Legacy.the_list p i) as [s|] eqn:Hs; cbn [mbind res_bind] in Hrun;
      [|done].
    destruct (the_list_wf p i s IH Hs) as (L & Hwf).
    destruct (insert_element_spec rand_bit s L key value Hwf)
      as (r' & s' & L' & Hrun' & Hwf' & _).
    rewrite Hrun' in Hrun. cbn [mbind res_bind] in Hrun.
    injection Hrun as _ <-. by apply (leave_list_wf p i s' L').
  - unfold Legacy.delete_on in Hrun.
    destruct (Legacy.the_list p i) as [s|] eqn:Hs; cbn [mbind res_bind] in Hrun;
      [|done].
    destruct (the_list_wf p i s IH Hs) as (L & Hwf).
    destruct (delete_element_spec s L key Hwf)
      as (s' & L' & Hrun' & Hwf' & _).
    rewrite Hrun' in Hrun. cbn [mbind res_bind] in Hrun.
    injection Hrun as <-. by apply (leave_list_wf p i s' L').
Qed.

(** A search reads the store, the header and the top level only. *)
Lemma search_fields s t (key d : Z) :
  store_ s = store_ t → skip_list_level_ s = skip_list_level_ t →
  header_ s = header_ t →
  Legacy.search_element key d s = Legacy.search_element key d t.
Proof.
  intros Hst Hl Hh. unfold Legacy.search_element, get_body.
  by rewrite Hst, Hl, Hh.
Qed.

(** [insert_element] of a new key when [new] fails. *)
Lemma insert_no_memory s L (key value : Z) :
  legacy_wf s L → assoc key L = None →
  ∃ s',
    Legacy.insert_element rand_bit false key value s = Ok (Threw bad_alloc s')
    ∧ mutex_ s' = true
    ∧ ∀ k d, Legacy.search_element k d s' = Legacy.search_element k d s.
Proof.
  intros Hwf Hnone. pose proof Hwf as (hd & HInv & Hm).
  assert (Hsort : StronglySorted Z.lt (e_key <$> L)) by by destruct HInv.
  destruct (hit_cases L key Hsort)
    as (Llt & Lge & -> & Hlt & Hge & [(q & Q & -> & Hq & Hsome)|[Habs _]]);
    [congruence|].
  set (s1 := mkSkipList (max_level_ s) (skip_list_level_ s) (header_ s)
               (element_count_ s) true (gen_ s) (store_ s)).
  assert (HInv1 : Inv Legacy.to_int s1 hd (Llt ++ Lge))
    by by apply Inv_set_mutex.
  destruct (get_random_level rand_bit s1) as [lvl g1] eqn:Hlvl.
  destruct (put_body_absent rand_bit Legacy.to_int s1 hd Llt Lge key value
              HInv1 Hlt Hge lvl g1 Habs Hlvl (wrap_ok_int lvl))
    as [_ Hrun].
  unfold Legacy.insert_element, mutex_lock at 1. rewrite Hm.
  cbn [mbind res_bind]. fold s1. rewrite Hrun. cbn [mbind res_bind].
  eexists. split; [done|]. simpl_fields. split; [done|].
  intros k d. unfold Legacy.search_element.
  pose proof (get_random_level_bound rand_bit s1) as Hb. rewrite Hlvl in Hb.
  rewrite (get_body_spec Legacy.to_int _ hd (Llt ++ Lge) k
             (Inv_raise_top Legacy.to_int s1 hd _ lvl g1 HInv1 Hb
                (wrap_ok_int lvl))).
  by rewrite (get_body_spec Legacy.to_int s hd (Llt ++ Lge) k HInv).
Qed.

(** X21. [mtx] is one mutex for all the lists of a program.  When [new]
    fails in [insert_element] on one list (for a key that list does not
    hold), the function leaves by [std::bad_alloc] with [mtx] locked, and
    from then on [insert_element] and [delete_element] wait on every list
    of the program, not only on that one; every search on every list
    answers as before. *)
Theorem legacy_bad_alloc_blocks_program (g : G) p (i : nat) s
    (key value : Z) :
  legacy_program rand_bit g p →
  Legacy.the_list p i = Ok s →
  Legacy.search_element key value s = Ok (false, value) →
  ∃ p',
    Legacy.insert_on rand_bit i false key value p = Ok (Threw bad_alloc p')
    ∧ Legacy.mtx p' = true
    ∧ length (Legacy.lists p') = length (Legacy.lists p)
    ∧ (∀ j mem k v,
         j < length (Legacy.lists p) →
         Legacy.insert_on rand_bit j mem k v p' = Err Blocked)
    ∧ (∀ j k,
         j < length (Legacy.lists p) → Legacy.delete_on j k p' = Err Blocked)
    ∧ (∀ j t, Legacy.the_list p j = Ok t →
         ∃ t', Legacy.the_list p' j = Ok t'
               ∧ ∀ k d, Legacy.search_element k d t'
                        = Legacy.search_element k d t).
Proof.
  intros Hwfp%legacy_program_wf Hs Hsearch.
  destruct (the_list_wf p i s Hwfp Hs) as (L & Hwf).
  rewrite (search_element_spec s L key value Hwf) in Hsearch.
  assert (Hnone : assoc key L = None).
  { destruct (assoc key L); [by injection Hsearch|done]. }
  destruct (insert_no_memory s L key value Hwf Hnone)
    as (s' & Hrun & Hm' & Hsame).
  exists (Legacy.leave_list p i s').
  assert (Hblocked : ∀ j, j < length (Legacy.lists p) →
            ∃ t, Legacy.the_list (Legacy.leave_list p i s') j = Ok t
                 ∧ mutex_ t = true).
  { intros j Hj. unfold Legacy.the_list, at_index.
    cbn [Legacy.leave_list Legacy.lists Legacy.mtx Legacy.rand_state].
    destruct (lookup_lt_is_Some_2 (<[i:=s']> (Legacy.lists p)) j) as [t Ht];
      [by rewrite length_insert|].
    rewrite Ht. cbn [mbind res_bind]. by eexists. }
  split_and!.
  - unfold Legacy.insert_on. rewrite Hs. cbn [mbind res_bind].
    by rewrite Hrun.
  - done.
  - cbn [Legacy.leave_list Legacy.lists]. by rewrite length_insert.
  - intros j mem k v Hj. destruct (Hblocked j Hj) as (t & Ht & Hmt).
    unfold Legacy.insert_on. rewrite Ht. cbn [mbind res_bind].
    unfold Legacy.insert_element, mutex_lock. by rewrite Hmt.
  - intros j k Hj. destruct (Hblocked j Hj) as (t & Ht & Hmt).
    unfold Legacy.delete_on. rewrite Ht. cbn [mbind res_bind].
    unfold Legacy.delete_element, mutex_lock. by rewrite Hmt.
  - intros j t Ht. pose proof Ht as (tj & Hj & ->)%the_list_inv.
    unfold Legacy.the_list, at_index.
    cbn [Legacy.leave_list Legacy.lists Legacy.mtx Legacy.rand_state].
    destruct (decide (j = i)) as [->|Hne].
    + rewrite list_lookup_insert_eq by by eapply lookup_lt_Some.
      cbn [mbind res_bind]. eexists. split; [done|]. intros k d.
      rewrite Hs in Ht. injection Ht as ->.
      rewrite <- Hsame. by apply search_fields.
    + rewrite list_lookup_insert_ne by done. rewrite Hj.
      cbn [mbind res_bind]. eexists. split; [done|]. intros k d.
      by apply search_fields.
Qed.
End legacy_programs.

(** ** Verification: [display_list] *)

Section legacy_display.
Context {G : Type}.
Variable rand_bit : G → bool * G.
Implicit Types (s : skip_list Z G) (L : list (entry Z)).

Lemma row_from_spec (h : gmap addr (Node Z)) (i : nat) : ∀ L A fuel,
  rep h (A ++ L) → Forall regular L → length L ≤ fuel →
  Legacy.row_from fuel h i (first_at i L) = Ok (level_row L i).
Proof.
  unfold level_row.
  induction L as [|e L IH]; intros A fuel Hrep Hreg Hfuel.
  - by destruct fuel.
  - apply Forall_cons in Hreg as [He Hreg].
    cbn [first_at]. rewrite vis_regular by done.
    assert (Hrep' : rep h ((A ++ [e]) ++ L)) by by rewrite <- app_assoc.
    destruct (decide (i ≤ e_lvl e)) as [Hi|Hi].
    + rewrite bool_decide_eq_true_2 by done.
      rewrite filter_cons_True by done. rewrite fmap_cons.
      destruct fuel as [|fuel]; [simpl in Hfuel; lia|].
      cbn [Legacy.row_from]. unfold deref.
      rewrite (Hrep A e L eq_refl). cbn [mbind res_bind].
      unfold at_index. cbn [node_of forward_ key_ value_].
      rewrite fwd_of_lookup by done. cbn [mbind res_bind].
      rewrite bool_decide_eq_true_2 by (destruct He; lia).
      rewrite (IH (A ++ [e])); [done|done|done|simpl in Hfuel; lia].
    + rewrite bool_decide_eq_false_2 by done.
      rewrite filter_cons_False by done.
      apply (IH (A ++ [e])); [done|done|simpl in Hfuel; lia].
Qed.

Lemma display_row_spec s hd L (i : nat) :
  Inv Legacy.to_int s hd L → i ≤ max_level_ s →
  Legacy.display_row s i = Ok (level_row L i).
Proof.
  intros HInv Hi. pose proof (Inv_size Legacy.to_int s hd L HInv) as Hsz.
  destruct HInv as [Hrep _ _ Hreg Hha Hhl _ _ _ _ _].
  unfold Legacy.display_row. rewrite <- Hha.
  apply Forall_cons in Hreg as [Hh Hr].
  rewrite (rep_load_regular (store_ s) (hd :: L) [] hd L) by (done || lia).
  cbn [mbind res_bind].
  apply (row_from_spec (store_ s) i L [hd]); [done|done|].
  simpl in Hsz. lia.
Qed.

Lemma display_from_spec s hd L : ∀ i,
  Inv Legacy.to_int s hd L → i ≤ max_level_ s →
  Legacy.display_from i s
  = Ok ((λ j, Legacy.display_line j (level_row L j))
          <$> reverse (seq 0 (i + 1))).
Proof.
  induction i as [|i IH]; intros HInv Hi; cbn [Legacy.display_from].
  - by rewrite (display_row_spec s hd L 0 HInv Hi).
  - rewrite (display_row_spec s hd L (S i) HInv Hi). cbn [mbind res_bind].
    rewrite IH by (done || lia). cbn [mbind res_bind].
    replace (S i + 1) with (S (i + 1)) by lia.
    rewrite seq_S, reverse_snoc, fmap_cons.
    by replace (0 + (i + 1)) with (S i) by lia.
Qed.

Lemma filter_sublist_mono {A} (P Q : A → Prop) `{∀ x, Decision (P x)}
    `{∀ x, Decision (Q x)} (l : list A) :
  (∀ x, P x → Q x) → filter P l `sublist_of` filter Q l.
Proof.
  intros HPQ. induction l as [|x l IH]; [done|].
  destruct (decide (P x)) as [HP|HP].
  - rewrite !filter_cons_True by auto. by constructor.
  - rewrite (filter_cons_False P) by done.
    destruct (decide (Q x)).
    + rewrite filter_cons_True by done. by constructor.
    + by rewrite filter_cons_False by done.
Qed.

Lemma StronglySorted_sublist (l1 l2 : list Z) :
  l1 `sublist_of` l2 → StronglySorted Z.lt l2 → StronglySorted Z.lt l1.
Proof.
  induction 1 as [|x l1 l2 Hsub IH|x l1 l2 Hsub IH]; intros Hs; [done|..].
  - apply StronglySorted_cons in Hs as [Hall Hs].
    constructor; [by apply IH|].
    rewrite Forall_forall in Hall |- *. intros y Hy. apply Hall.
    by eapply elem_of_sublist.
  - apply StronglySorted_cons in Hs as [_ Hs]. by apply IH.
Qed.

Lemma level_row_elem s hd L (i : nat) (k v : Z) :
  Inv Legacy.to_int s hd L →
  (k, v) ∈ level_row L i
  ↔ ∃ a n, store_ s !! a = Some n ∧ a ≠ header_ s
           ∧ key_ n = k ∧ value_ n = v ∧ i ≤ node_level_ n.
Proof.
  intros [Hrep Hnd Hdom _ Hha _ _ _ _ _ _]. unfold level_row.
  rewrite fmap_cons in Hnd. apply NoDup_cons in Hnd as [Hnotin _].
  split.
  - intros (e & [= -> ->] & [Hi He]%list_elem_of_filter)%list_elem_of_fmap.
    destruct (rep_elem _ _ e Hrep) as (rest & Hnode); [set_solver|].
    exists (e_addr e), (node_of e rest). split_and!; try done.
    rewrite <- Hha. intros Heq. apply Hnotin. rewrite <- Heq.
    by apply list_elem_of_fmap_2.
  - intros (a & n & Ha & Hne & <- & <- & Hi).
    assert (Hin : a ∈ dom (store_ s)) by (apply elem_of_dom; eauto).
    rewrite Hdom in Hin. apply elem_of_list_to_set in Hin.
    apply list_elem_of_fmap in Hin as (e & -> & He).
    apply elem_of_cons in He as [->|He]; [by rewrite Hha in Hne|].
    destruct (rep_elem _ _ e Hrep) as (rest & Hnode); [set_solver|].
    rewrite Hnode in Ha. injection Ha as <-.
    cbn [node_of key_ value_ node_level_] in *.
    apply (list_elem_of_fmap_2 (λ e, (e_key e, e_val e))).
    by apply list_elem_of_filter.
Qed.

(** X15. [display_list] writes one line for every level from the top
    level down to 0.  The line of level [i] lists the pairs of the nodes
    whose level is at least [i], in ascending order of the keys; so what
    a level lists is listed, in the same order, by the level below it,
    and level 0 lists the whole list, as [dump_file] does. *)
Theorem legacy_display_levels (k0 v0 : Z) (max_level : nat) (g : G) s :
  legacy_reachable rand_bit k0 v0 max_level g s →
  ∃ row : nat → list (Z * Z),
    Legacy.display_list s
    = Ok ((λ i, Legacy.display_line i (row i))
            <$> reverse (seq 0 (skip_list_level_ s + 1)))
    ∧ level0_chain s = Ok (row 0)
    ∧ (∀ i, row (S i) `sublist_of` row i)
    ∧ (∀ i, StronglySorted Z.lt (row i).*1)
    ∧ ∀ i k v,
        (k, v) ∈ row i
        ↔ ∃ a n, store_ s !! a = Some n ∧ a ≠ header_ s
                 ∧ key_ n = k ∧ value_ n = v ∧ i ≤ node_level_ n.
Proof.
  intros (L & (hd & HInv & _) & _)%legacy_reachable_wf.
  exists (level_row L).
  assert (Hrow0 : level_row L 0 = (λ e, (e_key e, e_val e)) <$> L).
  { unfold level_row. f_equal. clear. induction L as [|e L IH]; [done|].
    rewrite filter_cons_True by lia. by rewrite IH. }
  assert (Hsub : ∀ i, level_row L (S i) `sublist_of` level_row L i).
  { intros i. unfold level_row. apply fmap_sublist.
    apply filter_sublist_mono. intros e. lia. }
  split_and!.
  - unfold Legacy.display_list. apply (display_from_spec s hd L); [done|].
    by destruct HInv.
  - by rewrite (level0_chain_spec Legacy.to_int s hd L HInv), Hrow0.
  - done.
  - intros i. destruct HInv as [_ _ _ _ _ _ Hsort _ _ _ _].
    apply (StronglySorted_sublist _ (e_key <$> L)); [|done].
    unfold level_row. rewrite <- list_fmap_compose.
    change (fst ∘ (λ e : entry Z, (e_key e, e_val e))) with (@e_key Z).
    apply fmap_sublist, sublist_filter.
  - intros i k v. by apply (level_row_elem s hd L).
Qed.
End legacy_display.

(** ** Verification: [remove] after [put] *)

Section xsf_undo.
Context {V G : Type}.
Variable mt19937 : Z → G.
Variable bernoulli : G → bool * G.
Implicit Types (s : skip_list V G) (L : list (entry V)).

(** A store is determined by the chain it holds. *)
Lemma rep_unique (h h' : gmap addr (Node V)) (C : list (entry V)) :
  rep h C → rep h' C →
  dom h = list_to_set (e_addr <$> C) → dom h' = list_to_set (e_addr <$> C) →
  h = h'.
Proof.
  intros Hrep Hrep' Hdom Hdom'. apply map_eq. intros a.
  destruct (decide (a ∈ e_addr <$> C)) as [Hin|Hnin].
  - apply list_elem_of_fmap in Hin as (e & -> & He).
    apply list_elem_of_split in He as (l1 & l2 & ->).
    by rewrite (Hrep l1 e l2 eq_refl), (Hrep' l1 e l2 eq_refl).
  - assert (Hn : a ∉ dom h) by (rewrite Hdom; set_solver).
    assert (Hn' : a ∉ dom h') by (rewrite Hdom'; set_solver).
    apply not_elem_of_dom in Hn, Hn'. by rewrite Hn, Hn'.
Qed.

(** X18. [remove] undoes [put]: after [put] of a key the list does not
    hold (level drawn below 255, memory available), [remove] of that key
    gives back the same nodes at the same addresses with the same links,
    the same size and the mutex free; the generator has moved on.  The top
    level ends at the level of the tallest node: the level it had before,
    unless an earlier [put] that ended in [std::bad_alloc] had left it
    higher. *)
Theorem xsf_remove_undoes_put (k0 : Z) (v0 : V) (max_level : nat) (seed : Z)
    s (key : Z) (value : V) :
  reachable mt19937 bernoulli k0 v0 max_level seed s →
  XSF.get key s = Ok None →
  (get_random_level bernoulli s).1 < 255 →
  ∃ s1 s2,
    XSF.put bernoulli true key value s = Ok (Returned () s1)
    ∧ XSF.remove key s1 = Ok s2
    ∧ store_ s2 = store_ s
    ∧ header_ s2 = header_ s
    ∧ max_level_ s2 = max_level_ s
    ∧ element_count_ s2 = element_count_ s
    ∧ mutex_ s2 = mutex_ s
    ∧ gen_ s2 = (get_random_level bernoulli s).2
    ∧ skip_list_level_ s2 ≤ skip_list_level_ s
    ∧ tight s2
    ∧ (tight s → skip_list_level_ s2 = skip_list_level_ s).
Proof.
  intros (L & Hwf & _)%reachable_wf Hget Hlvl255.
  pose proof (top_ge_tallest s L Hwf) as Htop.
  pose proof (tight_tallest s L Hwf) as Htight.
  rewrite (xsf_get_spec s L key Hwf) in Hget. injection Hget as Hnone.
  destruct Hwf as (hd & HInv & Hm & Hle).
  assert (Hsort : StronglySorted Z.lt (e_key <$> L)) by by destruct HInv.
  destruct (hit_cases L key Hsort)
    as (Llt & Lge & -> & Hlt & Hge & [(q & Q & -> & Hq & Hsome)|[Habs _]]);
    [congruence|].
  set (s0 := mkSkipList (max_level_ s) (skip_list_level_ s) (header_ s)
               (element_count_ s) true (gen_ s) (store_ s)).
  assert (HInv0 : Inv XSF.to_uint8 s0 hd (Llt ++ Lge))
    by by apply Inv_set_mutex.
  destruct (get_random_level bernoulli s) as [lvl g] eqn:Hlvl.
  cbn [fst snd] in *.
  assert (Hlvl0 : get_random_level bernoulli s0 = (lvl, g)) by exact Hlvl.
  destruct (put_body_absent bernoulli XSF.to_uint8 s0 hd Llt Lge key value
              HInv0 Hlt Hge lvl g Habs Hlvl0 (wrap_ok_uint8 lvl Hlvl255))
    as [(h1 & Hput & HInv1) _].
  assert (Hput' :
    XSF.put bernoulli true key value s
    = Ok (Returned ()
            (mkSkipList (max_level_ s) (skip_list_level_ s `max` lvl)
               (header_ s) (element_count_ s + 1) false g h1))).
  { unfold XSF.put, mutex_lock. rewrite Hm. cbn [mbind res_bind].
    fold s0. by rewrite Hput. }
  clear Hput Hlvl0 HInv0. subst s0. simpl_fields in HInv1.
  set (x := spliced (fresh (dom (store_ s))) key value lvl (lvl + 1)) in *.
  destruct (remove_body_present XSF.to_uint8 _ hd Llt x Lge key HInv1 Hlt
              eq_refl) as (h2 & Hrem & HInv2).
  simpl_fields in Hrem. simpl_fields in HInv2.
  assert (Hx : e_lvl x ≤ skip_list_level_ s `max` lvl) by (simpl; lia).
  assert (Hshrink :
    shrink_top (Llt ++ unlinking x (skip_list_level_ s `max` lvl + 1) :: Lge)
      (skip_list_level_ s `max` lvl) = tallest (Llt ++ Lge)).
  { apply shrink_top_tallest.
    - destruct HInv as [_ _ _ Hreg _ _ _ _ _ _ _].
      by apply Forall_cons in Hreg as [_ Hreg].
    - by apply hidden_unlinking.
    - lia. }
  rewrite Hshrink in HInv2, Hrem.
  replace (element_count_ s + 1 - 1) with (element_count_ s) in HInv2, Hrem
    by lia.
  assert (h2 = store_ s) as ->.
  { destruct HInv as [Hrep _ Hdom _ _ _ _ _ _ _ _].
    destruct HInv2 as [Hrep2 _ Hdom2 _ _ _ _ _ _ _ _].
    simpl_fields in Hrep2. simpl_fields in Hdom2.
    by apply (rep_unique h2 (store_ s) (hd :: Llt ++ Lge)). }
  eexists _, _. split; [exact Hput'|]. split.
  { unfold XSF.remove, mutex_lock. simpl_fields. cbn [mbind res_bind].
    rewrite Hrem. cbn [mbind res_bind]. reflexivity. }
  unfold mutex_unlock. simpl_fields.
  split_and!; [done|done|done|done|done|done|done| |].
  - apply (tight_tallest _ (Llt ++ Lge)); [|done].
    exists hd. split_and!; [|done|done].
    by apply (Inv_set_mutex _ false) in HInv2.
  - intros Ht%Htight. by rewrite Ht.
Qed.
End xsf_undo.

(** ** Verification: the destructor of the older class *)

Section legacy_teardown.
Context {G : Type}.
Variable rand_bit : G → bool * G.

(** X19. The destructor of the older class releases every node of the
    list and then the header, each once, and leaves nothing allocated; it
    does so by the recursive [clear], last node first, with one frame of
    [clear] per element. *)
Theorem legacy_destructor_frees_all (k0 v0 : Z) (max_level : nat) (g : G)
    (s : skip_list Z G) :
  legacy_reachable rand_bit k0 v0 max_level g s →
  ∃ nodes, level0_nodes s = Ok nodes
           ∧ destroy s = Ok (∅, reverse nodes ++ [header_ s], Legacy.size s)
           ∧ NoDup (reverse nodes ++ [header_ s]).
Proof.
  intros (L & (hd & HInv & _) & _)%legacy_reachable_wf.
  exists (e_addr <$> L).
  rewrite (level0_nodes_spec Legacy.to_int s hd L HInv).
  rewrite (destroy_spec Legacy.to_int s hd L HInv).
  destruct HInv as [_ Hnd _ _ Hha _ _ _ _ Hcount _].
  unfold Legacy.size. rewrite Hcount.
  split_and!; [done|done|].
  rewrite fmap_cons, Hha in Hnd.
  apply NoDup_cons in Hnd as [Hne Hnd].
  apply NoDup_app. split_and!.
  - by rewrite reverse_Permutation.
  - intros a Ha%elem_of_reverse. set_solver.
  - apply NoDup_singleton.
Qed.
End legacy_teardown.

(** ** The further properties on examples *)

Lemma xsf_size_counts_keys_witness :
  run tape_draw example_ops example_list = Ok (Returned () example_state)
  ∧ XSF.size example_state = size (model example_ops).
Proof.
  assert (Hrun : run tape_draw example_ops example_list
                 = Ok (Returned () example_state))
    by (vm_compute; reflexivity).
  split; [exact Hrun|].
  exact (xsf_size_counts_keys (tape_seed [true; false; true; true; false])
           tape_draw 0%Z 0%Z 3 7%Z example_ops example_state Hrun).
Defined.

Lemma xsf_store_is_chain_witness :
  reachable (tape_seed [true; false; true; true; false]) tape_draw
    0%Z 0%Z 3 7%Z three_list
  ∧ ∃ nodes,
      level0_nodes three_list = Ok nodes
      ∧ NoDup (header_ three_list :: nodes)
      ∧ dom (store_ three_list) = list_to_set (header_ three_list :: nodes)
      ∧ size (store_ three_list) = XSF.size three_list + 1.
Proof.
  split; [exact three_reachable|].
  exact (xsf_store_is_chain _ _ _ _ _ _ _ three_reachable).
Defined.

Lemma xsf_links_ascend_witness :
  reachable (tape_seed [true; false; true; true; false]) tape_draw
    0%Z 0%Z 3 7%Z three_list
  ∧ store_ three_list !! 1 = Some three_node
  ∧ forward_ three_node !! 1 = Some (Some 2)
  ∧ ∃ m, store_ three_list !! 2 = Some m
         ∧ 1 ≤ node_level_ m
         ∧ 2 ≠ header_ three_list
         ∧ (1 ≠ header_ three_list
            → (key_ three_node < key_ m)%Z).
Proof.
  assert (H1 : store_ three_list !! 1 = Some three_node)
    by (vm_compute; reflexivity).
  assert (H2 : forward_ three_node !! 1
               = Some (Some 2)) by reflexivity.
  split; [exact three_reachable|]. split; [exact H1|]. split; [exact H2|].
  exact (xsf_links_ascend _ _ _ _ _ _ _ 1 2 _ 1 three_reachable H1 H2).
Defined.

Lemma xsf_put_updates_in_place_witness :
  reachable (tape_seed [true; false; true; true; false]) tape_draw
    0%Z 0%Z 3 7%Z example_state
  ∧ XSF.get 9%Z example_state = Ok (Some 91%Z)
  ∧ ∃ s', XSF.put tape_draw false 9%Z 92%Z example_state
          = Ok (Returned () s')
          ∧ dom (store_ s') = dom (store_ example_state)
          ∧ level0_nodes s' = level0_nodes example_state
          ∧ XSF.size s' = XSF.size example_state
          ∧ gen_ s' = gen_ example_state
          ∧ skip_list_level_ s' = skip_list_level_ example_state
          ∧ XSF.get 9%Z s' = Ok (Some 92%Z)
          ∧ ∀ k, k ≠ 9%Z → XSF.get k s' = XSF.get k example_state.
Proof.
  assert (Hget : XSF.get 9%Z example_state = Ok (Some 91%Z))
    by (vm_compute; reflexivity).
  split; [exact example_reachable|]. split; [exact Hget|].
  exact (xsf_put_updates_in_place _ _ _ _ _ _ _ 9%Z 91%Z 92%Z false
           example_reachable Hget).
Defined.

Lemma xsf_remove_absent_witness :
  reachable (tape_seed [true; false; true; true; false]) tape_draw
    0%Z 0%Z 3 7%Z example_state
  ∧ XSF.get 5%Z example_state = Ok None
  ∧ XSF.remove 5%Z example_state = Ok example_state.
Proof.
  assert (Hget : XSF.get 5%Z example_state = Ok None)
    by (vm_compute; reflexivity).
  split; [exact example_reachable|]. split; [exact Hget|].
  exact (xsf_remove_absent _ _ _ _ _ _ _ 5%Z example_reachable Hget).
Defined.

Lemma xsf_remove_present_witness :
  reachable (tape_seed [true; false; true; true; false]) tape_draw
    0%Z 0%Z 3 7%Z example_state
  ∧ XSF.get 9%Z example_state = Ok (Some 91%Z)
  ∧ ∃ s' a n,
      XSF.remove 9%Z example_state = Ok s'
      ∧ store_ example_state !! a = Some n ∧ key_ n = 9%Z ∧ value_ n = 91%Z
      ∧ dom (store_ s') = dom (store_ example_state) ∖ {[a]}
      ∧ XSF.size s' + 1 = XSF.size example_state
      ∧ XSF.get 9%Z s' = Ok None
      ∧ ∀ k, k ≠ 9%Z → XSF.get k s' = XSF.get k example_state.
Proof.
  assert (Hget : XSF.get 9%Z example_state = Ok (Some 91%Z))
    by (vm_compute; reflexivity).
  split; [exact example_reachable|]. split; [exact Hget|].
  exact (xsf_remove_present _ _ _ _ _ _ _ 9%Z 91%Z example_reachable Hget).
Defined.

Lemma xsf_put_diverges_at_255_witness :
  reachable (tape_seed (replicate 255 true)) tape_draw 0%Z 0%Z 255 0%Z
    tall_list
  ∧ XSF.get 5%Z tall_list = Ok None
  ∧ (get_random_level tape_draw tall_list).1 = 255
  ∧ XSF.put tape_draw true 5%Z 50%Z tall_list = Err Diverged
  ∧ ∀ fuel update,
      length update = max_level_ tall_list + 1 →
      raise_loop XSF.to_uint8 fuel
        (XSF.to_uint8 (skip_list_level_ tall_list + 1))
        (get_random_level tape_draw tall_list).1 (header_ tall_list) update
      = Err Diverged.
Proof.
  assert (Hreach : reachable (tape_seed (replicate 255 true)) tape_draw
                     0%Z 0%Z 255 0%Z tall_list) by apply reach_init.
  assert (Hget : XSF.get 5%Z tall_list = Ok None)
    by (vm_compute; reflexivity).
  assert (Hlvl : (get_random_level tape_draw tall_list).1 = 255)
    by (vm_compute; reflexivity).
  split; [exact Hreach|]. split; [exact Hget|]. split; [exact Hlvl|].
  exact (xsf_put_diverges_at_255 _ _ _ _ _ _ _ 5%Z 50%Z true Hreach Hget
           Hlvl).
Defined.

Lemma raised_reachable :
  reachable (tape_seed [true; true; false]) tape_draw 0%Z 0%Z 4 1%Z
    raised_list.
Proof.
  apply (reach_put_threw _ _ _ _ _ _ bad_alloc_list false 7%Z 70%Z bad_alloc
           raised_list); [apply reach_init|vm_compute; reflexivity].
Defined.


Lemma momu_answers_witness :
  3 < 255
  ∧ (∃ s, momu_run tape_draw momu_example_ops
            (Momu.SkipList (tape_seed [true; false; true]) 0%Z 3 7%Z)
          = Ok (Returned
                  [AUnit; ABool true; ABool true; ABool false; AValue None;
                   AUnit; ASize 1; ABool false] s)
          ∧ Momu.size s = 1
          ∧ Momu.get 4%Z s = Ok (Some 40%Z)).
Proof.
  destruct (momu_answers (tape_seed [true; false; true]) tape_draw 0%Z 3 7%Z
              momu_example_ops) as [Hruns Hsound].
  split; [lia|].
  destruct (Hruns ltac:(lia)) as (s & Hrun).
  exists s. split; [exact Hrun|].
  destruct (Hsound _ s Hrun) as (_ & Hsize & Hget).
  split; [exact Hsize|]. exact (Hget 4%Z).
Defined.

Lemma legacy_dump_lists_pairs_witness :
  legacy_reachable tape_draw 0%Z 0%Z 3 [true; false; true; true; false]
    legacy_two
  ∧ ∃ text pairs,
      Legacy.dump_file legacy_two = Ok text
      ∧ Legacy.getlines "" text = pair_text <$> pairs
      ∧ StronglySorted Z.lt pairs.*1
      ∧ length pairs = Legacy.size legacy_two
      ∧ ∀ k v d,
          (k, v) ∈ pairs
          ↔ Legacy.search_element k d legacy_two = Ok (true, v).
Proof.
  split; [exact legacy_two_reachable|].
  exact (legacy_dump_lists_pairs tape_draw _ _ _ _ _ legacy_two_reachable).
Defined.

Lemma legacy_load_twice_witness :
  legacy_reachable tape_draw 0%Z 0%Z 3 [true; false; true; true; false]
    legacy_two
  ∧ Forall loadable (Legacy.getlines "" legacy_file)
  ∧ ∃ out1 s1 out2 s2,
      Legacy.load_file tape_draw true (Some legacy_file) (legacy_two, false)
      = Ok (Returned out1 (s1, false))
      ∧ Legacy.load_file tape_draw true (Some legacy_file) (s1, false)
        = Ok (Returned out2 (s2, false))
      ∧ level0_chain s2 = level0_chain s1
      ∧ Legacy.size s2 = Legacy.size s1
      ∧ ∀ key d,
          Legacy.search_element key d s2 = Legacy.search_element key d s1.
Proof.
  assert (Hlines : Legacy.getlines "" legacy_file
                   = ["5:50"; ""; ":40"; "bad"; "7:70"]%string)
    by (vm_compute; reflexivity).
  assert (Hload : Forall loadable (Legacy.getlines "" legacy_file)).
  { rewrite Hlines.
    repeat (constructor;
            [first [left; vm_compute; reflexivity
                   |right; vm_compute; eexists; reflexivity]|]).
    constructor. }
  split; [exact legacy_two_reachable|]. split; [exact Hload|].
  exact (legacy_load_twice tape_draw true _ _ _ _ _ legacy_file
           legacy_two_reachable Hload).
Defined.

Lemma legacy_load_after_throw_witness :
  legacy_reachable tape_draw 0%Z 0%Z 3 [true; false; true; true; false]
    legacy_example
  ∧ Legacy.getlines "" legacy_broken_file
    = ["5:50"; "x:1"; "7:70"]%string
  ∧ Forall loadable ["5:50"%string]
  ∧ ¬ loadable "x:1"
  ∧ ∃ e s1,
      Legacy.load_file tape_draw true (Some legacy_broken_file)
        (legacy_example, false)
      = Ok (Threw e (s1, true))
      ∧ Legacy.search_element 5%Z 0%Z s1 = Ok (true, 50%Z)
      ∧ Legacy.search_element 7%Z 0%Z s1 = Ok (false, 0%Z)
      ∧ Legacy.load_file tape_draw true (Some legacy_file) (s1, true)
        = Ok (Returned [] (s1, false)).
Proof.
  assert (Hlines : Legacy.getlines "" legacy_broken_file
                   = ["5:50"; "x:1"; "7:70"]%string)
    by (vm_compute; reflexivity).
  assert (Hpre : Forall loadable ["5:50"%string]).
  { constructor; [|constructor]. right. vm_compute. eexists. reflexivity. }
  assert (Hbad : ¬ loadable "x:1").
  { intros [H|[kv H]]; vm_compute in H; discriminate H. }
  assert (Hreach : legacy_reachable tape_draw 0%Z 0%Z 3
                     [true; false; true; true; false] legacy_example)
    by apply lreach_init.
  split; [exact Hreach|]. split; [exact Hlines|]. split; [exact Hpre|].
  split; [exact Hbad|].
  destruct (legacy_load_after_throw tape_draw true 0%Z 0%Z 3
              [true; false; true; true; false] legacy_example
              legacy_broken_file ["5:50"%string] "x:1"%string
              ["7:70"%string] Hreach Hlines Hpre Hbad)
    as (e & s1 & Hrun & Hsearch & Hnext & _).
  exists e, s1. split; [exact Hrun|].
  split; [rewrite Hsearch; vm_compute; reflexivity|].
  split; [rewrite Hsearch; vm_compute; reflexivity|].
  apply Hnext.
Defined.

Lemma legacy_display_levels_witness :
  legacy_reachable tape_draw 0%Z 0%Z 3 [true; false; true; true; false]
    legacy_two
  ∧ ∃ row : nat → list (Z * Z),
      Legacy.display_list legacy_two
      = Ok ((λ i, Legacy.display_line i (row i))
              <$> reverse (seq 0 (skip_list_level_ legacy_two + 1)))
      ∧ level0_chain legacy_two = Ok (row 0)
      ∧ (∀ i, row (S i) `sublist_of` row i)
      ∧ (∀ i, StronglySorted Z.lt (row i).*1)
      ∧ ∀ i k v,
          (k, v) ∈ row i
          ↔ ∃ a n, store_ legacy_two !! a = Some n
                   ∧ a ≠ header_ legacy_two
                   ∧ key_ n = k ∧ value_ n = v ∧ i ≤ node_level_ n.
Proof.
  split; [exact legacy_two_reachable|].
  exact (legacy_display_levels tape_draw _ _ _ _ _ legacy_two_reachable).
Defined.

Lemma legacy_bad_alloc_keeps_lock_witness :
  legacy_reachable tape_draw 0%Z 0%Z 3 [true; false; true; true; false]
    legacy_two
  ∧ Legacy.search_element 6%Z 60%Z legacy_two = Ok (false, 60%Z)
  ∧ ∃ s',
      Legacy.insert_element tape_draw false 6%Z 60%Z legacy_two
      = Ok (Threw bad_alloc s')
      ∧ mutex_ s' = true
      ∧ (∀ mem k v, Legacy.insert_element tape_draw mem k v s' = Err Blocked)
      ∧ (∀ k, Legacy.delete_element k s' = Err Blocked)
      ∧ store_ s' = store_ legacy_two
      ∧ Legacy.size s' = Legacy.size legacy_two
      ∧ ∀ k d,
          Legacy.search_element k d s' = Legacy.search_element k d legacy_two.
Proof.
  assert (Hsearch : Legacy.search_element 6%Z 60%Z legacy_two
                    = Ok (false, 60%Z)) by (vm_compute; reflexivity).
  split; [exact legacy_two_reachable|]. split; [exact Hsearch|].
  exact (legacy_bad_alloc_keeps_lock tape_draw _ _ _ _ _ 6%Z 60%Z
           legacy_two_reachable Hsearch).
Defined.

Lemma xsf_put_inserts_one_node_witness :
  reachable (tape_seed [true; false; true; true; false]) tape_draw
    0%Z 0%Z 3 7%Z example_state
  ∧ XSF.get 5%Z example_state = Ok None
  ∧ (get_random_level tape_draw example_state).1 < 255
  ∧ ∃ s' a n,
      XSF.put tape_draw true 5%Z 50%Z example_state = Ok (Returned () s')
      ∧ store_ example_state !! a = None
      ∧ store_ s' !! a = Some n
      ∧ key_ n = 5%Z ∧ value_ n = 50%Z
      ∧ node_level_ n = (get_random_level tape_draw example_state).1
      ∧ dom (store_ s') = dom (store_ example_state) ∪ {[a]}
      ∧ XSF.size s' = XSF.size example_state + 1
      ∧ XSF.get 5%Z s' = Ok (Some 50%Z)
      ∧ ∀ k, k ≠ 5%Z → XSF.get k s' = XSF.get k example_state.
Proof.
  assert (Hget : XSF.get 5%Z example_state = Ok None)
    by (vm_compute; reflexivity).
  assert (Hlvl : (get_random_level tape_draw example_state).1 < 255)
    by (vm_compute; lia).
  split; [exact example_reachable|]. split; [exact Hget|].
  split; [exact Hlvl|].
  exact (xsf_put_inserts_one_node _ _ _ _ _ _ _ 5%Z 50%Z example_reachable
           Hget Hlvl).
Defined.

Lemma xsf_remove_undoes_put_witness :
  reachable (tape_seed [true; true; false]) tape_draw 0%Z 0%Z 4 1%Z
    raised_list
  ∧ XSF.get 7%Z raised_list = Ok None
  ∧ (get_random_level tape_draw raised_list).1 < 255
  ∧ ∃ s1 s2,
      XSF.put tape_draw true 7%Z 70%Z raised_list = Ok (Returned () s1)
      ∧ XSF.remove 7%Z s1 = Ok s2
      ∧ store_ s2 = store_ raised_list
      ∧ header_ s2 = header_ raised_list
      ∧ max_level_ s2 = max_level_ raised_list
      ∧ element_count_ s2 = element_count_ raised_list
      ∧ mutex_ s2 = mutex_ raised_list
      ∧ gen_ s2 = (get_random_level tape_draw raised_list).2
      ∧ skip_list_level_ s2 ≤ skip_list_level_ raised_list
      ∧ tight s2
      ∧ (tight raised_list →
         skip_list_level_ s2 = skip_list_level_ raised_list).
Proof.
  assert (Hget : XSF.get 7%Z raised_list = Ok None)
    by (vm_compute; reflexivity).
  assert (Hlvl : (get_random_level tape_draw raised_list).1 < 255)
    by (vm_compute; lia).
  split; [exact raised_reachable|]. split; [exact Hget|].
  split; [exact Hlvl|].
  exact (xsf_remove_undoes_put _ _ _ _ _ _ _ 7%Z 70%Z raised_reachable
           Hget Hlvl).
Defined.

Lemma legacy_destructor_frees_all_witness :
  legacy_reachable tape_draw 0%Z 0%Z 3 [true; false; true; true; false]
    legacy_two
  ∧ ∃ nodes, level0_nodes legacy_two = Ok nodes
             ∧ destroy legacy_two
               = Ok (∅, reverse nodes ++ [header_ legacy_two],
                     Legacy.size legacy_two)
             ∧ NoDup (reverse nodes ++ [header_ legacy_two]).
Proof.
  split; [exact legacy_two_reachable|].
  exact (legacy_destructor_frees_all tape_draw _ _ _ _ _
           legacy_two_reachable).
Defined.



Lemma legacy_pair_program :
  legacy_program tape_draw [true; false; false] legacy_pair.
Proof. apply lprog_construct, lprog_construct, lprog_start. Defined.

Lemma legacy_bad_alloc_blocks_program_witness :
  legacy_program tape_draw [true; false; false] legacy_pair
  ∧ (∃ s, Legacy.the_list legacy_pair 0 = Ok s
          ∧ Legacy.search_element 1%Z 10%Z s = Ok (false, 10%Z))
  ∧ ∃ p',
      Legacy.insert_on tape_draw 0 false 1%Z 10%Z legacy_pair
      = Ok (Threw bad_alloc p')
      ∧ Legacy.mtx p' = true
      ∧ Legacy.insert_on tape_draw 1 true 2%Z 20%Z p' = Err Blocked
      ∧ Legacy.delete_on 1 2%Z p' = Err Blocked.
Proof.
  assert (Hs : Legacy.the_list legacy_pair 0
               = Ok (Legacy.SkipList 0%Z 0%Z 3 [true; false; false]))
    by (vm_compute; reflexivity).
  assert (Hsearch : Legacy.search_element 1%Z 10%Z
                      (Legacy.SkipList 0%Z 0%Z 3 [true; false; false])
                    = Ok (false, 10%Z))
    by (vm_compute; reflexivity).
  split; [exact legacy_pair_program|].
  split; [eexists; split; [exact Hs|exact Hsearch]|].
  destruct (legacy_bad_alloc_blocks_program tape_draw [true; false; false]
              legacy_pair 0 _ 1%Z 10%Z legacy_pair_program Hs Hsearch)
    as (p' & Hrun & Hm & Hlen & Hins & Hdel & _).
  exists p'. split; [exact Hrun|]. split; [exact Hm|].
  split; [apply Hins|apply Hdel]; vm_compute; lia.
Defined.
